(** * convert-nuxt-aliases-to-relative-paths: a shallow embedding of [src/index.js]

    The script rewrites import specifiers of a Nuxt project: alias-prefixed
    specifiers become relative paths, and (with [--replace-absolute])
    root-absolute specifiers whose first segment is a known directory become
    relative ones as well.

    JavaScript strings are sequences of UTF-16 code units; a code unit is a
    number of type [N].  The functions of Node's [path] module are the POSIX
    ones.  The file system is a tree of directories and of entries that are
    no directories, together with the calls of [fs] it refuses, which throw;
    the targets of the aliases are strings. *)

From Stdlib Require Import List NArith Bool Arith Lia String Ascii Permutation.
Import ListNotations.

Open Scope N_scope.
Open Scope list_scope.

Abbreviation length := Datatypes.length.

(** ** JavaScript strings *)

Definition char := N.
Definition str := list char.

(** The code units of an ASCII literal. *)
Definition lit (s : string) : str := map N_of_ascii (list_ascii_of_string s).

Definition SLASH : char := 47.
Definition DOT : char := 46.
Definition SQUOTE : char := 39.
Definition DQUOTE : char := 34.

Fixpoint str_eqb (a b : str) : bool :=
  match a, b with
  | [], [] => true
  | x :: a', y :: b' => (x =? y) && str_eqb a' b'
  | _, _ => false
  end.

Definition isEmpty (s : str) : bool :=
  match s with [] => true | _ => false end.

(** [s.startsWith(prefix)] *)
Fixpoint startsWith (prefix s : str) : bool :=
  match prefix, s with
  | [], _ => true
  | p :: prefix', c :: s' => (p =? c) && startsWith prefix' s'
  | _ :: _, [] => false
  end.

(** [s.endsWith(suffix)] *)
Definition endsWith (suffix s : str) : bool :=
  startsWith (rev suffix) (rev s).

(** What follows [prefix] in [s], when [s] starts with it. *)
Fixpoint stripPrefix (prefix s : str) : option str :=
  match prefix, s with
  | [], _ => Some s
  | p :: prefix', c :: s' => if p =? c then stripPrefix prefix' s' else None
  | _ :: _, [] => None
  end.

(** [arr.includes(x)] on an array of strings. *)
Definition includes (arr : list str) (x : str) : bool :=
  existsb (str_eqb x) arr.

(** [Array.from(new Set(arr))]: the first occurrence of every element, in order. *)
Fixpoint uniq (seen arr : list str) : list str :=
  match arr with
  | [] => []
  | x :: rest => if includes seen x then uniq seen rest
                 else x :: uniq (seen ++ [x]) rest
  end.

Fixpoint dropWhile {A} (p : A -> bool) (l : list A) : list A :=
  match l with
  | [] => []
  | x :: r => if p x then dropWhile p r else l
  end.

(** ** Node's POSIX [path] module

    [normalizeString] walks the path one separator-delimited segment at a time:
    empty segments and [.] are dropped, [..] removes the last kept segment
    (or is kept itself when the path is relative and nothing is left to
    remove), every other segment is kept.  The functions below state that
    segment by segment.  [process.cwd()], an absolute path, is the argument
    [cwd]. *)

Module Path.

Definition isSep (c : char) : bool := c =? SLASH.

(** [s.split('/')] *)
Fixpoint split (s : str) : list str :=
  match s with
  | [] => [[]]
  | c :: r =>
      if isSep c then [] :: split r
      else match split r with
           | seg :: segs => (c :: seg) :: segs
           | [] => [[c]]
           end
  end.

(** [segs.join('/')] *)
Fixpoint unsplit (segs : list str) : str :=
  match segs with
  | [] => []
  | [seg] => seg
  | seg :: rest => seg ++ SLASH :: unsplit rest
  end.

Definition isDot (seg : str) : bool := str_eqb seg [DOT].
Definition isDotDot (seg : str) : bool := str_eqb seg [DOT; DOT].

(** One segment of [normalizeString]; [res] holds the kept segments, the
    last one first. *)
Definition pushSegment (allowAboveRoot : bool) (res : list str) (seg : str) : list str :=
  if isEmpty seg || isDot seg then res
  else if isDotDot seg then
    match res with
    | last :: before =>
        if isDotDot last then (if allowAboveRoot then seg :: res else res)
        else before
    | [] => if allowAboveRoot then [seg] else []
    end
  else seg :: res.

Definition normalizeSegments (allowAboveRoot : bool) (segs : list str) : list str :=
  rev (fold_left (pushSegment allowAboveRoot) segs []).

Definition normalizeString (path : str) (allowAboveRoot : bool) : str :=
  unsplit (normalizeSegments allowAboveRoot (split path)).

(** [path.isAbsolute(p)] *)
Definition isAbsolute (p : str) : bool :=
  match p with
  | c :: _ => isSep c
  | [] => false
  end.

(** [path.normalize(p)] *)
Definition normalize (p : str) : str :=
  match p with
  | [] => [DOT]
  | _ =>
      let absolute := isAbsolute p in
      let trailingSeparator := endsWith [SLASH] p in
      let body := normalizeString p (negb absolute) in
      match body with
      | [] => if absolute then [SLASH]
              else if trailingSeparator then [DOT; SLASH] else [DOT]
      | _ =>
          let body' := if trailingSeparator then body ++ [SLASH] else body in
          if absolute then SLASH :: body' else body'
      end
  end.

(** [path.join(...args)] *)
Definition join (args : list str) : str :=
  match filter (fun a => negb (isEmpty a)) args with
  | [] => [DOT]
  | parts => normalize (unsplit parts)
  end.

(** The loop of [path.resolve]: [todo] lists the arguments from the last to
    the first, followed by the working directory. *)
Fixpoint resolveLoop (todo : list str) (resolvedPath : str) : str * bool :=
  match todo with
  | [] => (resolvedPath, false)
  | p :: rest =>
      if isEmpty p then resolveLoop rest resolvedPath
      else
        let resolvedPath' := p ++ SLASH :: resolvedPath in
        if isAbsolute p then (resolvedPath', true)
        else resolveLoop rest resolvedPath'
  end.

(** [path.resolve(...args)] *)
Definition resolve (cwd : str) (args : list str) : str :=
  let (resolvedPath, resolvedAbsolute) := resolveLoop (rev args ++ [cwd]) [] in
  let body := normalizeString resolvedPath (negb resolvedAbsolute) in
  if resolvedAbsolute then SLASH :: body
  else match body with [] => [DOT] | _ => body end.

(** [path.dirname(p)]: trailing separators are skipped, then the path is cut
    at the last separator that is not its first character. *)
Definition dirname (p : str) : str :=
  match p with
  | [] => [DOT]
  | c0 :: body =>
      let hasRoot := isSep c0 in
      let trimmed := dropWhile isSep (rev body) in
      match dropWhile (fun c => negb (isSep c)) trimmed with
      | [] => if hasRoot then [SLASH] else [DOT]
      | _ :: before =>
          if hasRoot && isEmpty before then [SLASH; SLASH]
          else c0 :: rev before
      end
  end.

(** The segments of a resolved path. *)
Definition segmentsOf (p : str) : list str :=
  filter (fun seg => negb (isEmpty seg)) (split p).

Fixpoint dropCommon (a b : list str) : list str * list str :=
  match a, b with
  | x :: a', y :: b' => if str_eqb x y then dropCommon a' b' else (a, b)
  | _, _ => (a, b)
  end.

(** [path.relative(from, to)]: both paths are resolved, their common leading
    segments are dropped, and the result climbs out of what is left of
    [from] before descending into what is left of [to]. *)
Definition relative (cwd from to : str) : str :=
  if str_eqb from to then []
  else
    let from' := resolve cwd [from] in
    let to' := resolve cwd [to] in
    if str_eqb from' to' then []
    else
      let (up, down) := dropCommon (segmentsOf from') (segmentsOf to') in
      unsplit (map (fun _ => [DOT; DOT]) up ++ down).

End Path.

(** ** Regular expressions and [String.prototype.replace]

    A regular expression is embedded by what it matches at one position: the
    code unit before the position (for a lookbehind; [None] at index 0) and
    the text from the position on give the length of the match and its two
    capture groups.  Both patterns of the script end in a lazy [(.*?)]
    followed by a group for one quote character, single or double. *)

Record RegExpMatch := {
  m_length : nat;          (* length of the matched text *)
  m_capture : str;         (* group 1 *)
  m_quote : char           (* group 2 *)
}.

Definition RegExp := option char -> str -> option RegExpMatch.

(** A replacer function receives the match and the two groups. *)
Definition Replacer := str -> str -> char -> str.

(** Without the [s] flag, [.] matches every code unit but the line
    terminators LF, CR, U+2028 and U+2029. *)
Definition isLineTerminator (c : char) : bool :=
  (c =? 10) || (c =? 13) || (c =? 8232) || (c =? 8233).

(** The character class of group 2: a single or a double quote. *)
Definition isQuote (c : char) : bool := (c =? SQUOTE) || (c =? DQUOTE).

(** The lazy [(.*?)] and the quote group at the head of [s]: the star gives
    way to the quote class at the first quote, and gives up at a line
    terminator.  The result is the capture, the quote and the text after the
    quote. *)
Fixpoint lazyToQuote (s : str) : option (str * char * str) :=
  match s with
  | [] => None
  | c :: r =>
      if isQuote c then Some ([], c, r)
      else if isLineTerminator c then None
      else match lazyToQuote r with
           | Some (cap, q, rest) => Some (c :: cap, q, rest)
           | None => None
           end
  end.

(** [(?<!/)]: the position is not preceded by a slash. *)
Definition notAfterSlash (prev : option char) : bool :=
  match prev with
  | Some c => negb (c =? SLASH)
  | None => true
  end.

(** The characters with a meaning in a pattern: [. * + ? ^ $ { } ( ) | [ ] \]. *)
Definition isSyntaxCharacter (c : char) : bool :=
  existsb (N.eqb c) [46; 42; 43; 63; 94; 36; 123; 125; 40; 41; 124; 91; 93; 92].

Definition BACKSLASH : char := 92.

(** The escape of line 105: a backslash goes before every such character. *)
Definition escapeRegExp (alias : str) : str :=
  flat_map (fun c => if isSyntaxCharacter c then [BACKSLASH; c] else [c]) alias.

(** The text a pattern made of plain characters and escaped syntax
    characters stands for; [None] when the pattern holds a syntax character
    that is not escaped. *)
Fixpoint readLiteral (pattern : str) : option str :=
  match pattern with
  | [] => Some []
  | c :: rest =>
      if c =? BACKSLASH then
        match rest with
        | e :: rest' =>
            if isSyntaxCharacter e
            then option_map (cons e) (readLiteral rest')
            else None
        | [] => None
        end
      else if isSyntaxCharacter c then None
      else option_map (cons c) (readLiteral rest)
  end.

(** The pattern of line 105: [(?<!/)], the escaped alias, [/], the lazy
    [(.*?)] and the quote group, with the flag [g].  The escaped alias is a
    literal: the text it stands for is matched code unit by code unit. *)
Definition aliasRegExp (alias : str) : RegExp := fun prev s =>
  match readLiteral (escapeRegExp alias) with
  | Some token =>
      if notAfterSlash prev then
        match stripPrefix token s with
        | Some (c :: r) =>
            if c =? SLASH then
              match lazyToQuote r with
              | Some (cap, q, _) =>
                  Some {| m_length := length token + 1 + length cap + 1;
                          m_capture := cap; m_quote := q |}
              | None => None
              end
            else None
        | _ => None
        end
      else None
  | None => None
  end.

(** The pattern of line 130: a quote, [/], the lazy [(.*?)] and the quote
    group, with the flag [g]. *)
Definition absolutePathRegex : RegExp := fun _ s =>
  match s with
  | q0 :: c :: r =>
      if isQuote q0 && (c =? SLASH) then
        match lazyToQuote r with
        | Some (cap, q, _) =>
            Some {| m_length := 2 + length cap + 1;
                    m_capture := cap; m_quote := q |}
        | None => None
        end
      else None
  | _ => None
  end.

(** [s.replace(re, f)] with a global [re]: the text is scanned from left to
    right; [skip] counts the code units of the current match that are still
    to be passed over, and [prev] is the code unit before the position, in
    the text being scanned.  A match is tried at every position outside an
    earlier match.  (Neither pattern matches the empty string.) *)
Fixpoint replaceScan (re : RegExp) (f : Replacer)
    (prev : option char) (skip : nat) (s : str) : str :=
  match s with
  | [] => []
  | c :: rest =>
      match skip with
      | S k => replaceScan re f (Some c) k rest
      | O =>
          match re prev s with
          | Some m =>
              f (firstn (m_length m) s) (m_capture m) (m_quote m)
                ++ replaceScan re f (Some c) (pred (m_length m)) rest
          | None => c :: replaceScan re f (Some c) 0 rest
          end
      end
  end.

Definition replace (re : RegExp) (f : Replacer) (s : str) : str :=
  replaceScan re f None 0%nat s.

(** The match the scan would try at index [i] of [s]. *)
Definition prevChar (s : str) (i : nat) : option char :=
  match i with
  | O => None
  | S j => nth_error s j
  end.

Definition matchAt (re : RegExp) (s : str) (i : nat) : option RegExpMatch :=
  re (prevChar s i) (skipn i s).

(** The matches the scan of [replace] finds, each with the index it begins
    at, as [s.matchAll(re)] lists them. *)
Fixpoint matchesScan (re : RegExp) (prev : option char) (skip index : nat)
    (s : str) : list (nat * RegExpMatch) :=
  match s with
  | [] => []
  | c :: rest =>
      match skip with
      | S k => matchesScan re (Some c) k (S index) rest
      | O =>
          match re prev s with
          | Some m =>
              (index, m)
              :: matchesScan re (Some c) (pred (m_length m)) (S index) rest
          | None => matchesScan re (Some c) 0 (S index) rest
          end
      end
  end.

Definition matchAll (re : RegExp) (s : str) : list (nat * RegExpMatch) :=
  matchesScan re None 0%nat 0%nat s.

(** ** The two rewriting stages of [replaceAliases] (lines 102-143) *)

Section Rewriter.

(** [process.cwd()] and the path of the file being rewritten. *)
Variable cwd : str.
Variable filePath : str.

(** The replacer of one alias (lines 106-112). *)
Definition aliasReplacer (targetPath : str) : Replacer := fun _ aliasPath quote =>
  let absoluteAliasPath := Path.join [targetPath; aliasPath] in
  let relativePath := Path.relative cwd (Path.dirname filePath) absoluteAliasPath in
  relativePath ++ [quote].

(** The substitution pass of one alias (lines 103-113). *)
Definition aliasPass (updated : str) (entry : str * str) : str :=
  let (alias, targetPath) := entry in
  replace (aliasRegExp alias) (aliasReplacer targetPath) updated.

(** [Object.entries(aliases).reduce(..., content)] (lines 102-115). *)
Definition rewriteAliases (aliases : list (str * str)) (content : str) : str :=
  fold_left aliasPass aliases content.

(** Lines 120-127. *)
Definition srcDirOf : str := Path.resolve cwd [lit "src"].
Definition isInSrc : bool := startsWith srcDirOf filePath.
Definition rootDirOf : str := if isInSrc then srcDirOf else cwd.

(** [absolutePath.split('/')[0]] *)
Definition firstSegment (absolutePath : str) : str :=
  hd [] (Path.split absolutePath).

(** The replacer of the absolute-path stage (lines 132-143). *)
Definition absoluteReplacer (knownDirectories : list str) : Replacer :=
  fun whole absolutePath quote =>
    if includes knownDirectories (firstSegment absolutePath) then
      let absoluteFullPath := Path.join [rootDirOf; absolutePath] in
      let relativeFullPath :=
        Path.relative cwd (Path.dirname filePath) absoluteFullPath in
      quote :: relativeFullPath ++ [quote]
    else whole.

Definition rewriteAbsolute (knownDirectories : list str) (updatedContent : str) : str :=
  replace absolutePathRegex (absoluteReplacer knownDirectories) updatedContent.

(** The content the script compares with the original and writes
    (lines 102-155). *)
Definition rewriteContent (aliases : list (str * str))
    (shouldReplaceAbsolutePaths : bool) (knownDirectories : list str)
    (content : str) : str :=
  let updatedContent := rewriteAliases aliases content in
  if shouldReplaceAbsolutePaths
  then rewriteAbsolute knownDirectories updatedContent
  else updatedContent.

End Rewriter.

(** ** JavaScript objects as ordered property lists

    [Object.entries] enumerates the own string keys of an object: the array
    indices first, in ascending order, then the other keys in the order in
    which they were created.  An object is the list of its entries in that
    order. *)

Definition isDigit (c : char) : bool := (48 <=? c) && (c <=? 57).

Fixpoint digitsValue (acc : N) (s : str) : option N :=
  match s with
  | [] => Some acc
  | c :: r => if isDigit c then digitsValue (10 * acc + (c - 48)) r else None
  end.

(** A key is an array index when it is the canonical decimal form of an
    integer below [2^32 - 1]. *)
Definition arrayIndex (k : str) : option N :=
  match k with
  | [] => None
  | c :: r =>
      if (c =? 48) && negb (isEmpty r) then None
      else match digitsValue 0 k with
           | Some n => if n <? 4294967295 then Some n else None
           | None => None
           end
  end.

Section JSObject.

Context {V : Type}.

Definition jsobj := list (str * V).

Fixpoint objGet (k : str) (o : jsobj) : option V :=
  match o with
  | [] => None
  | (k', v) :: r => if str_eqb k k' then Some v else objGet k r
  end.

Fixpoint objUpdate (k : str) (v : V) (o : jsobj) : jsobj :=
  match o with
  | [] => []
  | (k', v') :: r =>
      if str_eqb k k' then (k', v) :: r else (k', v') :: objUpdate k v r
  end.

Fixpoint objInsertIndex (n : N) (k : str) (v : V) (o : jsobj) : jsobj :=
  match o with
  | [] => [(k, v)]
  | (k', v') :: r =>
      match arrayIndex k' with
      | Some n' => if n' <? n then (k', v') :: objInsertIndex n k v r
                   else (k, v) :: o
      | None => (k, v) :: o
      end
  end.

(** [o[k] = v]: an existing key keeps its place. *)
Definition objSet (o : jsobj) (kv : str * V) : jsobj :=
  let (k, v) := kv in
  match objGet k o with
  | Some _ => objUpdate k v o
  | None =>
      match arrayIndex k with
      | Some n => objInsertIndex n k v o
      | None => o ++ [(k, v)]
      end
  end.

(** [{ ...a, ...b }] *)
Definition objSpread (a b : jsobj) : jsobj :=
  fold_left objSet b (fold_left objSet a []).

End JSObject.

(** ** The alias table: [getAliasesWithPaths] (lines 19-42) *)

(** What [loadNuxtConfig] resolves to, as far as the script reads it; [None]
    is a property that is [undefined]. *)
Record NuxtConfig := {
  nc_rootDir : option str;
  nc_srcDir : option str;
  nc_alias : option (@jsobj str)
}.

(** [nuxtConfig.rootDir || projectRoot] *)
Definition rootDirOfConfig (projectRoot : str) (nuxtConfig : NuxtConfig) : str :=
  match nc_rootDir nuxtConfig with
  | Some (c :: r) => c :: r
  | _ => projectRoot
  end.

(** Line 23; [path.isAbsolute] throws a [TypeError] when its argument is not
    a string. *)
Definition srcDirOfConfig (projectRoot : str) (nuxtConfig : NuxtConfig) : option str :=
  match nc_srcDir nuxtConfig with
  | None => None
  | Some s =>
      if Path.isAbsolute s then Some s
      else Some (Path.resolve projectRoot
                   [rootDirOfConfig projectRoot nuxtConfig;
                    if isEmpty s then lit "src" else s])
  end.

Definition defaultAliases (rootDir srcDir : str) : @jsobj str :=
  [ (lit "~", srcDir);
    (lit "@", srcDir);
    (lit "~~", rootDir);
    (lit "@@", rootDir);
    (lit "assets", Path.join [srcDir; lit "assets"]);
    (lit "public", Path.join [srcDir; lit "public"]) ].

(** [loaded] is what the awaited [loadNuxtConfig] gave, [None] when it threw.
    The result is [None] when the [catch] clause ran, which ends the process
    with [process.exit(1)]. *)
Definition getAliasesWithPaths (projectRoot : str) (loaded : option NuxtConfig)
    : option (@jsobj str) :=
  match loaded with
  | None => None
  | Some nuxtConfig =>
      let rootDir := rootDirOfConfig projectRoot nuxtConfig in
      match srcDirOfConfig projectRoot nuxtConfig with
      | None => None
      | Some srcDir =>
          let userAliases :=
            match nc_alias nuxtConfig with Some a => a | None => [] end in
          Some (objSpread (defaultAliases rootDir srcDir) userAliases)
      end
  end.

(** ** The file system and the run of the script *)

(** What [lstatSync(p).isDirectory()] tells apart: a directory with its
    entries, and anything else, with the content a read of it gives (a link
    is no directory for [lstatSync]; whether it can be read is told by the
    [throws] of the world). *)
#[warnings="-register-all"]
Inductive node :=
| File (content : str)
| Dir (entries : list (str * node)).

Fixpoint countDirs (n : node) : nat :=
  match n with
  | File _ => O
  | Dir entries => S (list_sum (map (fun e => countDirs (snd e)) entries))
  end.

(** The directories below a directory's entries. *)
Definition dirsBelow (entries : list (str * node)) : nat :=
  list_sum (map (fun e => countDirs (snd e)) entries).

Definition lookupEntry (name : str) (entries : list (str * node)) : option node :=
  option_map snd (find (fun e => str_eqb (fst e) name) entries).

(** The calls of the [fs] module that can throw. *)
Inductive fsCall :=
| readdirSync (path : str)
| lstatSync (path : str)
| readFileSync (path : str)
| writeFileSync (path : str).

(** What the script does to the world, in order.  A call of [fs] is an
    event when it returns; when it throws, the event is [Throws]. *)
Inductive event :=
| ErrorConfigNotFound                 (* console.error, line 14 *)
| ErrorLoadingConfig                  (* console.error, line 39 *)
| LogKnownDirectories (dirs : list str)  (* console.log, line 78 *)
| LoadNuxtConfig (call : nat)         (* loadNuxtConfig is called, line 21 *)
| ReadDir (path : str)                (* fs.readdirSync *)
| ReadFile (path : str)               (* fs.readFileSync *)
| WriteFile (path : str) (data : str) (* fs.writeFileSync *)
| LogUpdated (path : str)             (* console.log, lines 147 and 153 *)
| Throws (call : fsCall).             (* the call throws *)

(** How the process ends: [process.exit(code)] or the event loop running
    empty ([Exit 0]), or an exception nothing catches, thrown at top level
    or out of a call of [replaceAliases] (Node, since version 15, ends the
    process on a rejection nothing handles; its exit status is 1 then). *)
Inductive outcome :=
| Exit (code : N)
| Uncaught.

(** A call of [replaceAliases] suspended at its [await]: the directory, its
    entries, and which call of [loadNuxtConfig] it waits for. *)
Record Task := {
  t_dir : str;
  t_entries : list (str * node);
  t_load : nat
}.

(** The world of one run.  [loadNuxtConfig k] is what the [k]-th call of the
    provider gives ([None]: it throws).  The suspended calls of
    [replaceAliases] resume as their loads settle, in an order the script
    does not control: [schedule] picks, from the directories of the suspended
    calls in the order of their suspension, the one that resumes next.

    [throws c] tells whether the file system refuses the call [c]: an entry
    that cannot be examined, a directory that cannot be listed, a file that
    cannot be read (a dangling link, say) or written.  An exception that
    escapes a call of [replaceAliases] rejects its promise, which nothing
    handles: Node ends the process when the microtask queue has run empty,
    and the suspended calls whose loads settle before that still resume;
    [lastResumes] is how many of them do. *)
Record World := {
  cwd : str;
  argv : list str;
  rootEntries : list (str * node);
  loadNuxtConfig : nat -> option NuxtConfig;
  schedule : list str -> nat;
  throws : fsCall -> bool;
  lastResumes : nat
}.

(** The [i]-th element of [x :: l] and the others (the last one when [i] is
    too large). *)
Fixpoint extract {A} (i : nat) (x : A) (l : list A) : A * list A :=
  match i, l with
  | S j, y :: r => let (z, r') := extract j y r in (z, x :: r')
  | _, _ => (x, l)
  end.

(** Lines 94-97. *)
Definition acceptedExtension (filePath : str) : bool :=
  endsWith (lit ".ts") filePath
  || endsWith (lit ".vue") filePath
  || endsWith (lit ".scss") filePath
  || endsWith (lit ".js") filePath.

(** Lines 49-54. *)
Definition getVisibleDirectories (entries : list (str * node)) : list str :=
  map fst
    (filter (fun e => match snd e with
                      | Dir _ => negb (startsWith (lit ".") (fst e))
                      | File _ => false
                      end) entries).

Section Run.

Variable w : World.

(** Line 46. *)
Definition shouldReplaceAbsolutePaths : bool :=
  includes (argv w) (lit "--replace-absolute").

(** [fs.existsSync(path.join(projectRoot, name))] *)
Definition existsInRoot (name : str) : bool :=
  match lookupEntry name (rootEntries w) with Some _ => true | None => false end.

(** Line 161, and line 59. *)
Definition startDir : str := Path.resolve (cwd w) [lit "src"].

(** Lines 57-72, when the file system refuses no call; [None] when
    [readdirSync] throws because [src] is not a directory.  What happens
    when a call is refused is told by [getKnownDirectoriesThrows]. *)
Definition getKnownDirectories : option (list str) :=
  let rootDirectories := getVisibleDirectories (rootEntries w) in
  match lookupEntry (lit "src") (rootEntries w) with
  | None => Some (uniq [] rootDirectories)
  | Some (Dir srcEntries) =>
      Some (uniq [] (rootDirectories ++ getVisibleDirectories srcEntries))
  | Some (File _) => None
  end.

(** Lines 49-54 when the file system refuses a call: the events up to the
    first call that throws, [readdirSync(rootDir)] or the [lstatSync] of
    one of the entries; [None] when no call throws. *)
Definition getVisibleDirectoriesThrows (rootDir : str)
    (entries : list (str * node)) : option (list event) :=
  if throws w (readdirSync rootDir) then Some [Throws (readdirSync rootDir)]
  else
    match find (throws w)
            (map (fun e => lstatSync (Path.join [rootDir; fst e])) entries) with
    | Some call => Some [ReadDir rootDir; Throws call]
    | None => None
    end.

(** Lines 57-72 when the file system refuses a call. *)
Definition getKnownDirectoriesThrows : option (list event) :=
  match getVisibleDirectoriesThrows (cwd w) (rootEntries w) with
  | Some trace => Some trace
  | None =>
      match lookupEntry (lit "src") (rootEntries w) with
      | Some (Dir srcEntries) =>
          option_map (cons (ReadDir (cwd w)))
            (getVisibleDirectoriesThrows startDir srcEntries)
      | _ => None
      end
  end.

Section Walk.

Variable knownDirectories : list str.

(** Lines 99-155, for one accepted file: the events, and whether an
    exception escapes ([readFileSync] or [writeFileSync] throws). *)
Definition visitFile (aliases : @jsobj str) (filePath content : str)
    : list event * bool :=
  if throws w (readFileSync filePath)
  then ([Throws (readFileSync filePath)], true)
  else
    let final :=
      rewriteContent (cwd w) filePath aliases shouldReplaceAbsolutePaths
        knownDirectories content in
    if str_eqb final content then ([ReadFile filePath], false)
    else if throws w (writeFileSync filePath)
    then ([ReadFile filePath; Throws (writeFileSync filePath)], true)
    else ([ReadFile filePath; WriteFile filePath final; LogUpdated filePath], false).

(** The [forEach] of lines 89-157 over the entries of [dir].  A directory
    entry starts a new call of [replaceAliases], which calls
    [loadNuxtConfig] and suspends; [calls] counts the calls of
    [loadNuxtConfig] made so far.  An exception ([lstatSync], or the read or
    the write of a file, throws) ends the [forEach] where it is: the entries
    after it are not looked at; the calls started before it stay suspended.
    The result tells the events, the calls started, the count of loads and
    whether an exception escaped. *)
Fixpoint replaceAliases (aliases : @jsobj str) (dir : str)
    (entries : list (str * node)) (calls : nat)
    : list event * list Task * nat * bool :=
  match entries with
  | [] => ([], [], calls, false)
  | (file, n) :: rest =>
      let filePath := Path.join [dir; file] in
      if throws w (lstatSync filePath)
      then ([Throws (lstatSync filePath)], [], calls, true)
      else
        match n with
        | Dir sub =>
            let '(evs, tasks, calls', threw) :=
              replaceAliases aliases dir rest (S calls) in
            (LoadNuxtConfig calls :: evs,
             {| t_dir := filePath; t_entries := sub; t_load := calls |} :: tasks,
             calls', threw)
        | File content =>
            if acceptedExtension filePath then
              let (evs0, threw0) := visitFile aliases filePath content in
              if threw0 then (evs0, [], calls, true)
              else
                let '(evs, tasks, calls', threw) :=
                  replaceAliases aliases dir rest calls in
                (evs0 ++ evs, tasks, calls', threw)
            else replaceAliases aliases dir rest calls
        end
  end.

(** [replaceAliases(dir)] from its [await] on, once the load has given the
    table: [readdirSync(dir)] (line 89), which may throw, and the [forEach]. *)
Definition resume (aliases : @jsobj str) (task : Task) (calls : nat)
    : list event * list Task * nat * bool :=
  if throws w (readdirSync (t_dir task))
  then ([Throws (readdirSync (t_dir task))], [], calls, true)
  else
    let '(evs, tasks, calls', threw) :=
      replaceAliases aliases (t_dir task) (t_entries task) calls in
    (ReadDir (t_dir task) :: evs, tasks, calls', threw).

(** What is left to the process after a call has resumed and run: [None]
    while no exception has escaped; [Some k] when one has, and [k] more
    suspended calls resume before Node ends the process. *)
Definition afterCall (doomed : option nat) (threw : bool) : option nat :=
  match doomed with
  | Some k => Some (pred k)
  | None => if threw then Some (lastResumes w) else None
  end.

(** The event loop: one suspended call resumes at a time.  A failed load
    ends the process in the [catch] of [getAliasesWithPaths]; an exception
    that has escaped ends it as an uncaught one, at once or after some more
    calls have resumed; when nothing is suspended any more and no exception
    has escaped the process ends with code 0. *)
Fixpoint run (fuel : nat) (pending : list Task) (calls : nat)
    (doomed : option nat) (trace : list event)
    : option (outcome * list event) :=
  match doomed, pending with
  | Some O, _ => Some (Uncaught, trace)
  | Some _, [] => Some (Uncaught, trace)
  | None, [] => Some (Exit 0, trace)
  | _, first :: others =>
      match fuel with
      | O => None
      | S fuel' =>
          let (task, pending') :=
            extract (schedule w (map t_dir pending)) first others in
          match getAliasesWithPaths (cwd w) (loadNuxtConfig w (t_load task)) with
          | None => Some (Exit 1, trace ++ [ErrorLoadingConfig])
          | Some aliases =>
              let '(evs, tasks, calls', threw) := resume aliases task calls in
              run fuel' (pending' ++ tasks) calls' (afterCall doomed threw)
                (trace ++ evs)
          end
      end
  end.

End Walk.

(** The events of line 76-79. *)
Definition knownDirectoriesEvents (known : list str) : list event :=
  if shouldReplaceAbsolutePaths
  then [ReadDir (cwd w)]
       ++ (if existsInRoot (lit "src") then [ReadDir startDir] else [])
       ++ [LogKnownDirectories known]
  else [].

(** The whole script.  [None] only if the fuel of [run] were too small. *)
Definition main : option (outcome * list event) :=
  if negb (existsInRoot (lit "nuxt.config.ts"))
     && negb (existsInRoot (lit "nuxt.config.js"))
  then Some (Exit 1, [ErrorConfigNotFound])
  else
    match (if shouldReplaceAbsolutePaths
           then getKnownDirectoriesThrows else None) with
    | Some trace => Some (Uncaught, trace)
    | None =>
        match (if shouldReplaceAbsolutePaths
               then getKnownDirectories else Some []) with
        | None => Some (Uncaught, [ReadDir (cwd w); Throws (readdirSync startDir)])
        | Some knownDirectories =>
            let trace :=
              knownDirectoriesEvents knownDirectories ++ [LoadNuxtConfig O] in
            match lookupEntry (lit "src") (rootEntries w) with
            | Some (Dir srcEntries) =>
                run knownDirectories (countDirs (Dir srcEntries))
                  [{| t_dir := startDir; t_entries := srcEntries; t_load := O |}]
                  1%nat None trace
            | _ =>
                (* the first load settles, then [readdirSync(startDir)] throws *)
                match getAliasesWithPaths (cwd w) (loadNuxtConfig w O) with
                | None => Some (Exit 1, trace ++ [ErrorLoadingConfig])
                | Some _ =>
                    Some (Uncaught, trace ++ [Throws (readdirSync startDir)])
                end
            end
        end
    end.

End Run.

(** ** Notions the statements below use *)

(** The files below the entries of [dir], each with the path the walk
    computes for it. *)
Fixpoint filesOfNode (path : str) (n : node) : list (str * str) :=
  match n with
  | File content => [(path, content)]
  | Dir entries =>
      flat_map (fun e => filesOfNode (Path.join [path; fst e]) (snd e)) entries
  end.

Definition filesOf (dir : str) (entries : list (str * node)) : list (str * str) :=
  flat_map (fun e => filesOfNode (Path.join [dir; fst e]) (snd e)) entries.

(** A name [readdirSync] can return: not empty, without a separator, and
    neither [.] nor [..]. *)
Definition validName (name : str) : bool :=
  negb (isEmpty name) && negb (existsb Path.isSep name)
  && negb (Path.isDot name) && negb (Path.isDotDot name).

Fixpoint validNode (n : node) : bool :=
  match n with
  | File _ => true
  | Dir entries => forallb (fun e => validName (fst e) && validNode (snd e)) entries
  end.

Definition validEntries (entries : list (str * node)) : bool :=
  forallb (fun e => validName (fst e) && validNode (snd e)) entries.

Definition isLoad (e : event) : bool :=
  match e with LoadNuxtConfig _ => true | _ => false end.

(** How often the configuration provider was called. *)
Definition loadCount (trace : list event) : nat :=
  length (filter isLoad trace).

Definition touchesFile (e : event) : bool :=
  match e with ReadFile _ | WriteFile _ _ => true | _ => false end.

(** The code unit before the end of [s], [prev] when [s] is empty. *)
Fixpoint lastOpt (prev : option char) (s : str) : option char :=
  match s with
  | [] => prev
  | c :: r => lastOpt (Some c) r
  end.

(** A code unit the lazy [(.*?)] passes over: neither a quote nor a line
    terminator. *)
Definition plain (c : char) : Prop :=
  isQuote c = false /\ isLineTerminator c = false.

(** The match of an alias pattern with the capture [cap] and the quote [q],
    and that of the absolute pattern. *)
Definition aliasMatch (alias cap : str) (q : char) : RegExpMatch :=
  {| m_length := length alias + 1 + length cap + 1;
     m_capture := cap; m_quote := q |}.

Definition absoluteMatch (cap : str) (q : char) : RegExpMatch :=
  {| m_length := 2 + length cap + 1; m_capture := cap; m_quote := q |}.

(** Every match that begins in [s] ends in [s], when [s] is followed by [x]
    and preceded by [prev]. *)
Definition fitsBefore (re : RegExp) (prev : option char) (s x : str) : Prop :=
  forall p1 c p2 m, s = p1 ++ c :: p2 ->
    re (lastOpt prev p1) (c :: p2 ++ x) = Some m ->
    (m_length m <= length (c :: p2))%nat.

(** Every match in [s], preceded by [prev], is replaced by itself. *)
Definition keptAsIs (re : RegExp) (f : Replacer) (prev : option char) (s : str) : Prop :=
  forall p1 p2 m, s = p1 ++ p2 ->
    re (lastOpt prev p1) p2 = Some m ->
    f (firstn (m_length m) p2) (m_capture m) (m_quote m) = firstn (m_length m) p2.

(** A segment without a separator, a segment [normalizeString] keeps as it
    is, and the clean absolute path of a list of segments. *)
Definition noSep (seg : str) : Prop := existsb Path.isSep seg = false.

Definition validSeg (seg : str) : Prop := validName seg = true.

Definition clean (segs : list str) : str := SLASH :: Path.unsplit segs.

(** The directories a list of suspended calls still has to visit. *)
Definition weight (tasks : list Task) : nat :=
  list_sum (map (fun t => S (dirsBelow (t_entries t))) tasks).

(** What [main] has done when the walk begins: the known directories, if
    asked for, and the first load; and the call of [replaceAliases] that is
    suspended then. *)
Definition firstEvents (w : World) (known : list str) : list event :=
  knownDirectoriesEvents w known ++ [LoadNuxtConfig O].

Definition firstTask (w : World) (srcEntries : list (str * node)) : Task :=
  {| t_dir := startDir w; t_entries := srcEntries; t_load := O |}.

(** [I] holds on when a suspended call resumes and runs. *)
Definition preserved (w : World) (knownDirectories : list str)
    (I : list Task -> nat -> option nat -> list event -> Prop) : Prop :=
  forall first others calls doomed trace task pending' aliases evs tasks calls' threw,
    I (first :: others) calls doomed trace ->
    extract (schedule w (map t_dir (first :: others))) first others
    = (task, pending') ->
    getAliasesWithPaths (cwd w) (loadNuxtConfig w (t_load task)) = Some aliases ->
    resume w knownDirectories aliases task calls = (evs, tasks, calls', threw) ->
    I (pending' ++ tasks) calls' (afterCall w doomed threw) (trace ++ evs).

(** The configuration of a project [/proj] with the source directory
    [/proj/src] and no alias of its own. *)
Definition plainConfig : NuxtConfig :=
  {| nc_rootDir := Some (lit "/proj");
     nc_srcDir := Some (lit "/proj/src");
     nc_alias := None |}.

(** The project [/proj]: a configuration file and, under [src], a script,
    a text file and an empty directory. *)
Definition smallProject : list (str * node) :=
  [ (lit "nuxt.config.js", File []);
    (lit "src",
     Dir [ (lit "a.js", File (lit "import X from '~/b'"));
           (lit "notes.txt", File (lit "see '~/b'"));
           (lit "sub", Dir []) ]) ].

(** A run in [/proj] without arguments, the suspended calls resuming in the
    order of their suspension and the file system refusing nothing; [load]
    is the configuration provider. *)
Definition smallWorld (load : nat -> option NuxtConfig) : World :=
  {| cwd := lit "/proj";
     argv := [];
     rootEntries := smallProject;
     loadNuxtConfig := load;
     schedule := fun _ => O;
     throws := fun _ => false;
     lastResumes := O |}.


(** The paths the run reads, in the order of the reads. *)
Definition readsOf (trace : list event) : list str :=
  flat_map (fun e => match e with ReadFile path => [path] | _ => [] end) trace.

(** The paths below [dir] the [forEach] accepts. *)
Definition acceptedPaths (dir : str) (entries : list (str * node)) : list str :=
  filter acceptedExtension (map fst (filesOf dir entries)).

(** The events of lines 99-155. *)
Definition fileEvent (e : event) : bool :=
  match e with ReadFile _ | WriteFile _ _ | LogUpdated _ => true | _ => false end.

(** An [fs] call that throws. *)
Definition isThrow (e : event) : bool :=
  match e with Throws _ => true | _ => false end.

(** The two reports that come before [process.exit(1)]. *)
Definition isError (e : event) : bool :=
  match e with ErrorConfigNotFound | ErrorLoadingConfig => true | _ => false end.

(** Every write in [trace] stands between the read of the file and the
    report of the update, and every report follows such a write. *)
Definition writesReported (trace : list event) : Prop :=
  (forall path data,
     In (WriteFile path data) trace ->
     exists before after,
       trace = before ++ ReadFile path :: WriteFile path data :: LogUpdated path :: after)
  /\ (forall path,
        In (LogUpdated path) trace ->
        exists before data after,
          trace = before ++ ReadFile path :: WriteFile path data :: LogUpdated path :: after).

(** A string no line of the content is cut by. *)
Definition noLineTerminator (s : str) : Prop :=
  Forall (fun c => isLineTerminator c = false) s.

(** The tokens of the default table, in the order of lines 26-33. *)
Definition defaultTokens : list str :=
  [lit "~"; lit "@"; lit "~~"; lit "@@"; lit "assets"; lit "public"].

(** [lines.join] with a line feed between the lines. *)
Fixpoint joinLines (lines : list str) : str :=
  match lines with
  | [] => []
  | [line] => line
  | line :: rest => line ++ 10 :: joinLines rest
  end.

(** What every run of the walk keeps: no error is reported before the end;
    a call has thrown exactly when the process is bound to end with an
    uncaught exception; a load that was made has given the table or its
    call is still suspended. *)
Definition sound (w : World) (pending : list Task) (calls : nat) (doomed : option nat)
    (tr : list event) : Prop :=
  (forall e, In e tr -> isError e = false)
  /\ (doomed = None -> forall e, In e tr -> isThrow e = false)
  /\ (doomed <> None -> exists call, In (Throws call) tr)
  /\ (forall k, In (LoadNuxtConfig k) tr ->
        getAliasesWithPaths (cwd w) (loadNuxtConfig w k) <> None
        \/ exists t, In t pending /\ t_load t = k).

(** * Lemmas *)

(** Both sides are the same concatenation, differently bracketed. *)
Ltac reassoc :=
  repeat first [rewrite <- app_assoc | rewrite <- app_comm_cons]; reflexivity.

#[local] Arguments N.eqb : simpl never.

(** ** Strings *)

Lemma str_eqb_eq (a b : str) : str_eqb a b = true <-> a = b.
Proof.
  revert b; induction a as [|x a IH]; intros [|y b]; simpl;
    try (split; [discriminate | congruence]); try tauto.
  rewrite andb_true_iff, N.eqb_eq, IH. split.
  - intros [-> ->]; reflexivity.
  - intros H; inversion H; auto.
Qed.

Lemma str_eqb_refl (a : str) : str_eqb a a = true.
Proof. apply str_eqb_eq; reflexivity. Qed.

Lemma str_eqb_neq (a b : str) : str_eqb a b = false <-> a <> b.
Proof.
  split.
  - intros H E. apply str_eqb_eq in E. congruence.
  - intros H. destruct (str_eqb a b) eqn:E; auto.
    apply str_eqb_eq in E. contradiction.
Qed.

Lemma startsWith_app (p s : str) : startsWith p (p ++ s) = true.
Proof.
  induction p as [|c p IH]; simpl; auto.
  rewrite N.eqb_refl; auto.
Qed.

Lemma stripPrefix_app (a s : str) : stripPrefix a (a ++ s) = Some s.
Proof.
  induction a as [|c a IH]; simpl; auto.
  rewrite N.eqb_refl; auto.
Qed.

Lemma stripPrefix_Some (a s r : str) : stripPrefix a s = Some r -> s = a ++ r.
Proof.
  revert s; induction a as [|c a IH]; intros [|d s]; simpl; try congruence.
  destruct (c =? d) eqn:E; try discriminate.
  apply N.eqb_eq in E; subst d. intros H. rewrite (IH _ H); reflexivity.
Qed.

Lemma lastOpt_app (prev : option char) (a b : str) :
  lastOpt prev (a ++ b) = lastOpt (lastOpt prev a) b.
Proof. revert prev; induction a as [|c a IH]; intros; simpl; auto. Qed.

Lemma prevChar_app (a b : str) :
  prevChar (a ++ b) (length a) = lastOpt None a.
Proof.
  destruct a as [|c a]; simpl; auto.
  revert c; induction a as [|d a IH]; intros c; simpl; auto.
Qed.

Lemma skipn_app_length {A} (a b : list A) : skipn (length a) (a ++ b) = b.
Proof. induction a; simpl; auto. Qed.

Lemma firstn_app_length {A} (a b : list A) : firstn (length a) (a ++ b) = a.
Proof. induction a; simpl; congruence. Qed.

(** ** The escaped alias *)

Lemma readLiteral_escapeRegExp (alias : str) :
  readLiteral (escapeRegExp alias) = Some alias.
Proof.
  induction alias as [|c alias IH]; [reflexivity|].
  unfold escapeRegExp in *. simpl flat_map.
  destruct (isSyntaxCharacter c) eqn:E.
  - change (readLiteral ([BACKSLASH; c] ++ ?l))
      with (if BACKSLASH =? BACKSLASH
            then (if isSyntaxCharacter c
                  then option_map (cons c) (readLiteral l) else None)
            else None).
    rewrite N.eqb_refl, E, IH. reflexivity.
  - assert ((c =? BACKSLASH) = false) as Eb.
    { apply N.eqb_neq. intros ->. discriminate. }
    change (readLiteral ([c] ++ ?l))
      with (if c =? BACKSLASH
            then match l with
                 | e :: rest' =>
                     if isSyntaxCharacter e
                     then option_map (cons e) (readLiteral rest') else None
                 | [] => None
                 end
            else if isSyntaxCharacter c then None
                 else option_map (cons c) (readLiteral l)).
    rewrite Eb, E, IH. reflexivity.
Qed.

(** ** The lazy tail of the two patterns *)

Lemma lazyToQuote_Some (s cap rest : str) (q : char) :
  lazyToQuote s = Some (cap, q, rest) ->
  s = cap ++ q :: rest /\ isQuote q = true /\ Forall plain cap.
Proof.
  revert cap; induction s as [|c s IH]; simpl; intros cap; try discriminate.
  destruct (isQuote c) eqn:Q.
  - intros H; inversion H; subst. auto.
  - destruct (isLineTerminator c) eqn:L; try discriminate.
    destruct (lazyToQuote s) as [[[cap' q'] rest']|]; try discriminate.
    intros H; inversion H; subst.
    destruct (IH cap' eq_refl) as (-> & Hq & Hc).
    repeat split; auto. constructor; auto. split; auto.
Qed.

Lemma lazyToQuote_intro (sub post : str) (q : char) :
  isQuote q = true -> Forall plain sub ->
  lazyToQuote (sub ++ q :: post) = Some (sub, q, post).
Proof.
  intros Hq; induction 1 as [|c sub [Q L] _ IH]; simpl.
  - rewrite Hq; reflexivity.
  - rewrite Q, L, IH; reflexivity.
Qed.

(** ** The scan of [replace] *)

Section Scan.

Variable re : RegExp.
Variable f : Replacer.

(** What both patterns of the script satisfy: a match is not empty and lies
    within the text; it depends on the text only up to its own end. *)
Hypothesis re_bound : forall prev s m,
  re prev s = Some m -> (1 <= m_length m <= length s)%nat.
Hypothesis re_extend : forall prev s x m,
  re prev s = Some m -> re prev (s ++ x) = Some m.
Hypothesis re_restrict : forall prev s x m,
  re prev (s ++ x) = Some m -> (m_length m <= length s)%nat -> re prev s = Some m.

Lemma replaceScan_skip (mt post : str) (prev : option char) :
  replaceScan re f prev (length mt) (mt ++ post)
  = replaceScan re f (lastOpt prev mt) 0 post.
Proof.
  revert prev; induction mt as [|c mt IH]; intros prev; simpl; auto.
Qed.

(** A match at the head of the text is replaced, and the scan goes on after it. *)
Lemma replaceScan_match (mt post : str) (prev : option char) (m : RegExpMatch) :
  re prev (mt ++ post) = Some m -> length mt = m_length m ->
  replaceScan re f prev 0 (mt ++ post)
  = f mt (m_capture m) (m_quote m) ++ replaceScan re f (lastOpt prev mt) 0 post.
Proof.
  intros Hm Hlen. pose proof (re_bound _ _ _ Hm) as Hb.
  destruct mt as [|c mt]; simpl in Hlen; [lia|].
  simpl app. simpl replaceScan. simpl app in Hm. rewrite Hm.
  rewrite <- Hlen. simpl pred.
  rewrite replaceScan_skip.
  f_equal. f_equal. simpl. f_equal. apply firstn_app_length.
Qed.

Lemma fitsBefore_tail (prev : option char) (c : char) (s x : str) :
  fitsBefore re prev (c :: s) x -> fitsBefore re (Some c) s x.
Proof.
  intros H p1 d p2 m E Hm. apply (H (c :: p1) d p2 m); simpl; congruence.
Qed.

(** The scan of a text splits where no match straddles. *)
Lemma replaceScan_app (s x : str) : forall prev skip,
  (skip <= length s)%nat -> fitsBefore re prev s x ->
  replaceScan re f prev skip (s ++ x)
  = replaceScan re f prev skip s ++ replaceScan re f (lastOpt prev s) 0 x.
Proof.
  induction s as [|c s IH]; intros prev skip Hskip Hfit.
  - simpl in Hskip. assert (skip = 0)%nat as -> by lia. reflexivity.
  - simpl app. simpl lastOpt. destruct skip as [|k].
    + simpl replaceScan.
      destruct (re prev (c :: s ++ x)) as [m|] eqn:Hm.
      * assert (m_length m <= length (c :: s))%nat as Hlen
          by (apply (Hfit [] c s m); auto).
        assert (re prev (c :: s) = Some m) as Hm'
          by (apply (re_restrict prev (c :: s) x); auto).
        rewrite Hm'. pose proof (re_bound _ _ _ Hm') as Hb.
        rewrite (IH (Some c) (pred (m_length m)));
          [| simpl in Hlen; lia | eapply fitsBefore_tail; eauto].
        rewrite app_assoc. f_equal. f_equal.
        change (c :: s ++ x) with ((c :: s) ++ x).
        rewrite firstn_app.
        replace (m_length m - length (c :: s))%nat with 0%nat by lia.
        simpl firstn at 2. rewrite app_nil_r. reflexivity.
      * destruct (re prev (c :: s)) as [m|] eqn:Hm'.
        { apply (re_extend _ _ x) in Hm'. simpl in Hm'. congruence. }
        simpl. f_equal. apply IH; [lia | eapply fitsBefore_tail; eauto].
    + simpl replaceScan. apply IH; [simpl in Hskip; lia | eapply fitsBefore_tail; eauto].
Qed.

Lemma keptAsIs_tail (prev : option char) (c : char) (s : str) :
  keptAsIs re f prev (c :: s) -> keptAsIs re f (Some c) s.
Proof.
  intros H p1 p2 m E Hm. apply (H (c :: p1) p2 m); simpl; congruence.
Qed.

Lemma replaceScan_kept (s : str) : forall prev skip,
  (skip <= length s)%nat -> keptAsIs re f prev s ->
  replaceScan re f prev skip s = skipn skip s.
Proof.
  induction s as [|c s IH]; intros prev skip Hskip Hk.
  - destruct skip; reflexivity.
  - destruct skip as [|k]; simpl replaceScan.
    + destruct (re prev (c :: s)) as [m|] eqn:Hm.
      * pose proof (re_bound _ _ _ Hm) as Hb.
        rewrite (Hk [] (c :: s) m eq_refl Hm).
        rewrite (IH (Some c) (pred (m_length m)));
          [| simpl in Hb; lia | eapply keptAsIs_tail; eauto].
        destruct (m_length m) as [|n] eqn:E; [lia|].
        simpl. f_equal. apply firstn_skipn.
      * simpl. f_equal. apply (IH (Some c) 0%nat); [lia | eapply keptAsIs_tail; eauto].
    + simpl. apply IH; [simpl in Hskip; lia | eapply keptAsIs_tail; eauto].
Qed.

(** Where no match begins, the text is copied. *)
Lemma replaceScan_untouched (s x : str) : forall prev,
  (forall p1 c p2, s = p1 ++ c :: p2 ->
     re (lastOpt prev p1) (c :: p2 ++ x) = None) ->
  replaceScan re f prev 0 (s ++ x) = s ++ replaceScan re f (lastOpt prev s) 0 x.
Proof.
  induction s as [|c s IH]; intros prev H; [reflexivity|].
  simpl app. simpl replaceScan.
  pose proof (H [] c s eq_refl) as H0. simpl in H0. rewrite H0. simpl. f_equal.
  apply IH. intros p1 d p2 E. apply (H (c :: p1) d p2). simpl; congruence.
Qed.

(** A match the scan finds begins at or after the index the scan is at,
    and is not empty. *)
Lemma matchesScan_bounds (s : str) : forall prev skip index i m,
  In (i, m) (matchesScan re prev skip index s) ->
  (index <= i)%nat /\ (1 <= m_length m)%nat.
Proof.
  induction s as [|c s IH]; intros prev skip index i m H; [destruct H|].
  destruct skip as [|k]; simpl in H.
  - destruct (re prev (c :: s)) as [m0|] eqn:Hm.
    + destruct H as [E | H].
      * inversion E; subst. pose proof (re_bound _ _ _ Hm). lia.
      * apply IH in H. lia.
    + apply IH in H. lia.
  - apply IH in H. lia.
Qed.

(** The scan of a text splits where none of its matches straddles. *)
Lemma scan_app (s x : str) : forall prev skip index,
  (skip <= length s)%nat ->
  (forall i m, In (i, m) (matchesScan re prev skip index (s ++ x)) ->
     (i < index + length s)%nat -> (i + m_length m <= index + length s)%nat) ->
  replaceScan re f prev skip (s ++ x)
  = replaceScan re f prev skip s ++ replaceScan re f (lastOpt prev s) 0 x
  /\ matchesScan re prev skip index (s ++ x)
     = matchesScan re prev skip index s
       ++ matchesScan re (lastOpt prev s) 0 (index + length s) x.
Proof.
  induction s as [|c s IH]; intros prev skip index Hskip Hfit.
  - simpl in Hskip. assert (skip = 0)%nat as -> by lia.
    simpl. rewrite Nat.add_0_r. split; reflexivity.
  - simpl app. simpl lastOpt.
    change (length (c :: s)) with (S (length s)).
    rewrite <- Nat.add_succ_comm.
    destruct skip as [|k].
    + simpl replaceScan. simpl matchesScan.
      simpl app in Hfit. simpl matchesScan in Hfit.
      destruct (re prev (c :: s ++ x)) as [m|] eqn:Hm.
      * assert (m_length m <= length (c :: s))%nat as Hlen.
        { specialize (Hfit index m (or_introl eq_refl)). simpl in *. lia. }
        assert (re prev (c :: s) = Some m) as Hm'
          by (apply (re_restrict prev (c :: s) x); auto).
        rewrite Hm'. pose proof (re_bound _ _ _ Hm') as Hb.
        destruct (IH (Some c) (pred (m_length m)) (S index)) as [E1 E2].
        { simpl in Hlen. lia. }
        { intros i m0 Hin Hi. specialize (Hfit i m0 (or_intror Hin)).
          simpl in Hfit. lia. }
        rewrite E1, E2. split; [|reflexivity].
        rewrite app_assoc. f_equal. f_equal.
        change (c :: s ++ x) with ((c :: s) ++ x).
        rewrite firstn_app.
        replace (m_length m - length (c :: s))%nat with 0%nat by lia.
        simpl firstn at 2. rewrite app_nil_r. reflexivity.
      * destruct (re prev (c :: s)) as [m|] eqn:Hm'.
        { apply (re_extend _ _ x) in Hm'. simpl in Hm'. congruence. }
        destruct (IH (Some c) 0%nat (S index)) as [E1 E2]; [lia | |].
        { intros i m0 Hin Hi. specialize (Hfit i m0 Hin). simpl in Hfit. lia. }
        rewrite E1, E2. split; reflexivity.
    + simpl replaceScan. simpl matchesScan.
      simpl app in Hfit. simpl matchesScan in Hfit.
      apply IH; [simpl in Hskip; lia|].
      intros i m0 Hin Hi. specialize (Hfit i m0 Hin). simpl in Hfit. lia.
Qed.

(** Where the scan finds no match, the text is copied. *)
Lemma scan_untouched (s x : str) : forall prev index,
  (forall i m, In (i, m) (matchesScan re prev 0 index (s ++ x)) ->
     (index + length s <= i)%nat) ->
  replaceScan re f prev 0 (s ++ x) = s ++ replaceScan re f (lastOpt prev s) 0 x.
Proof.
  induction s as [|c s IH]; intros prev index H; [reflexivity|].
  simpl app. simpl replaceScan. simpl app in H. simpl matchesScan in H.
  destruct (re prev (c :: s ++ x)) as [m|] eqn:Hm.
  - specialize (H index m (or_introl eq_refl)). simpl in H. lia.
  - simpl. f_equal. apply (IH (Some c) (S index)).
    intros i m Hin. specialize (H i m Hin). simpl in H. lia.
Qed.

(** A text in which the scan finds no match comes out as it is. *)
Lemma scan_quiet (s : str) : forall prev index,
  matchesScan re prev 0 index s = [] -> replaceScan re f prev 0 s = s.
Proof.
  induction s as [|c s IH]; intros prev index H; [reflexivity|].
  simpl in *. destruct (re prev (c :: s)) as [m|]; [discriminate|].
  f_equal. apply (IH _ _ H).
Qed.

End Scan.

(** ** The two patterns *)

Lemma app_eq_prefix {A} (p s x r : list A) :
  s ++ x = p ++ r -> (length p <= length s)%nat -> exists r', s = p ++ r'.
Proof.
  revert s; induction p as [|a p IH]; intros s E Hlen; simpl in *.
  - exists s; reflexivity.
  - destruct s as [|b s]; simpl in *; [lia|].
    inversion E; subst. destruct (IH s H1) as [r' ->]; [lia|].
    exists r'; reflexivity.
Qed.

Lemma aliasRegExp_Some (alias : str) (prev : option char) (s : str) (m : RegExpMatch) :
  aliasRegExp alias prev s = Some m <->
  notAfterSlash prev = true /\
  exists cap q rest,
    s = alias ++ SLASH :: cap ++ q :: rest /\ isQuote q = true /\
    Forall plain cap /\ m = aliasMatch alias cap q.
Proof.
  unfold aliasRegExp. rewrite readLiteral_escapeRegExp. split.
  - destruct (notAfterSlash prev); try discriminate.
    destruct (stripPrefix alias s) as [[|c r]|] eqn:E; try discriminate.
    destruct (c =? SLASH) eqn:Ec; try discriminate.
    destruct (lazyToQuote r) as [[[cap q] rest]|] eqn:El; try discriminate.
    intros H; inversion H; subst; clear H. split; auto.
    apply N.eqb_eq in Ec; subst c.
    apply stripPrefix_Some in E.
    apply lazyToQuote_Some in El as (-> & Hq & Hc).
    exists cap, q, rest. auto.
  - intros (-> & cap & q & rest & -> & Hq & Hc & ->).
    rewrite stripPrefix_app, N.eqb_refl, lazyToQuote_intro; auto.
Qed.

Lemma aliasRegExp_bound (alias : str) prev s m :
  aliasRegExp alias prev s = Some m -> (1 <= m_length m <= length s)%nat.
Proof.
  intros H. apply aliasRegExp_Some in H as (_ & cap & q & rest & -> & _ & _ & ->).
  simpl. rewrite !length_app. simpl. rewrite !length_app. simpl. lia.
Qed.

Lemma aliasRegExp_extend (alias : str) prev s x m :
  aliasRegExp alias prev s = Some m -> aliasRegExp alias prev (s ++ x) = Some m.
Proof.
  intros H. apply aliasRegExp_Some in H as (Hp & cap & q & rest & -> & Hq & Hc & ->).
  apply aliasRegExp_Some. split; auto. exists cap, q, (rest ++ x).
  repeat split; auto.
  rewrite <- app_assoc. simpl. rewrite <- app_assoc. reflexivity.
Qed.

Lemma aliasRegExp_restrict (alias : str) prev s x m :
  aliasRegExp alias prev (s ++ x) = Some m -> (m_length m <= length s)%nat ->
  aliasRegExp alias prev s = Some m.
Proof.
  intros H Hlen.
  apply aliasRegExp_Some in H as (Hp & cap & q & rest & E & Hq & Hc & ->).
  apply aliasRegExp_Some. split; auto. exists cap, q.
  assert (alias ++ SLASH :: cap ++ q :: rest
          = (alias ++ SLASH :: cap ++ [q]) ++ rest) as E'.
  { rewrite <- app_assoc. simpl. rewrite <- app_assoc. reflexivity. }
  rewrite E' in E. apply app_eq_prefix in E as [r' ->].
  - exists r'. repeat split; auto.
    rewrite <- app_assoc. simpl. rewrite <- app_assoc. reflexivity.
  - simpl in Hlen. rewrite !length_app. simpl. rewrite !length_app. simpl. lia.
Qed.

Lemma aliasRegExp_after_slash (alias s : str) :
  aliasRegExp alias (Some SLASH) s = None.
Proof. unfold aliasRegExp. destruct (readLiteral _); reflexivity. Qed.

(** The lookbehind is all that a match takes from what precedes it. *)
Lemma aliasRegExp_prev (alias : str) (p1 p2 : option char) (s : str) :
  notAfterSlash p1 = notAfterSlash p2 ->
  aliasRegExp alias p1 s = aliasRegExp alias p2 s.
Proof. unfold aliasRegExp. intros ->. reflexivity. Qed.

Lemma aliasScan_prev (alias : str) (f : Replacer) (p1 p2 : option char) (s : str) :
  notAfterSlash p1 = notAfterSlash p2 ->
  replaceScan (aliasRegExp alias) f p1 0 s = replaceScan (aliasRegExp alias) f p2 0 s.
Proof.
  intros H. destruct s as [|c s]; simpl; auto.
  rewrite (aliasRegExp_prev alias p1 p2 _ H). reflexivity.
Qed.

Lemma absolutePathRegex_Some (prev : option char) (s : str) (m : RegExpMatch) :
  absolutePathRegex prev s = Some m <->
  exists q0 cap q rest,
    s = q0 :: SLASH :: cap ++ q :: rest /\ isQuote q0 = true /\
    isQuote q = true /\ Forall plain cap /\ m = absoluteMatch cap q.
Proof.
  unfold absolutePathRegex. split.
  - destruct s as [|q0 [|c r]]; try discriminate.
    destruct (isQuote q0) eqn:Q0; simpl; try discriminate.
    destruct (c =? SLASH) eqn:Ec; try discriminate.
    destruct (lazyToQuote r) as [[[cap q] rest]|] eqn:El; try discriminate.
    intros H; inversion H; subst; clear H.
    apply N.eqb_eq in Ec; subst c.
    apply lazyToQuote_Some in El as (-> & Hq & Hc).
    exists q0, cap, q, rest. auto.
  - intros (q0 & cap & q & rest & -> & Hq0 & Hq & Hc & ->).
    rewrite Hq0, N.eqb_refl, lazyToQuote_intro; auto.
Qed.

Lemma absolutePathRegex_bound prev s m :
  absolutePathRegex prev s = Some m -> (1 <= m_length m <= length s)%nat.
Proof.
  intros H. apply absolutePathRegex_Some in H
    as (q0 & cap & q & rest & -> & _ & _ & _ & ->).
  simpl. rewrite !length_app. simpl. lia.
Qed.

Lemma absolutePathRegex_extend prev s x m :
  absolutePathRegex prev s = Some m -> absolutePathRegex prev (s ++ x) = Some m.
Proof.
  intros H. apply absolutePathRegex_Some in H
    as (q0 & cap & q & rest & -> & Hq0 & Hq & Hc & ->).
  apply absolutePathRegex_Some. exists q0, cap, q, (rest ++ x).
  repeat split; auto. simpl. rewrite <- app_assoc. reflexivity.
Qed.

Lemma absolutePathRegex_restrict prev s x m :
  absolutePathRegex prev (s ++ x) = Some m -> (m_length m <= length s)%nat ->
  absolutePathRegex prev s = Some m.
Proof.
  intros H Hlen.
  apply absolutePathRegex_Some in H
    as (q0 & cap & q & rest & E & Hq0 & Hq & Hc & ->).
  apply absolutePathRegex_Some. exists q0, cap, q.
  assert (q0 :: SLASH :: cap ++ q :: rest
          = (q0 :: SLASH :: cap ++ [q]) ++ rest) as E'.
  { simpl. rewrite <- app_assoc. reflexivity. }
  rewrite E' in E. apply app_eq_prefix in E as [r' ->].
  - exists r'. repeat split; auto. simpl. rewrite <- app_assoc. reflexivity.
  - simpl in Hlen. simpl. rewrite !length_app. simpl. lia.
Qed.

Lemma absoluteScan_prev (f : Replacer) (p1 p2 : option char) (s : str) :
  replaceScan absolutePathRegex f p1 0 s = replaceScan absolutePathRegex f p2 0 s.
Proof. destruct s as [|c s]; reflexivity. Qed.

(** ** From positions of the content to the scan *)

Lemma matchAt_split (re : RegExp) (p1 p2 : str) :
  matchAt re (p1 ++ p2) (length p1) = re (lastOpt None p1) p2.
Proof.
  unfold matchAt. rewrite prevChar_app, skipn_app_length. reflexivity.
Qed.

Lemma matchAt_alias_beyond (alias s : str) (i : nat) :
  (length s <= i)%nat -> matchAt (aliasRegExp alias) s i = None.
Proof.
  intros H. unfold matchAt. rewrite skipn_all2 by exact H.
  unfold aliasRegExp. rewrite readLiteral_escapeRegExp.
  destruct (notAfterSlash _); [|reflexivity].
  destruct alias; reflexivity.
Qed.

Lemma matchAt_absolute_beyond (s : str) (i : nat) :
  (length s <= i)%nat -> matchAt absolutePathRegex s i = None.
Proof.
  intros H. unfold matchAt. rewrite skipn_all2 by exact H. reflexivity.
Qed.

Lemma fitsBefore_of_matchAt (re : RegExp) (pre x : str) :
  (forall i m, (i < length pre)%nat -> matchAt re (pre ++ x) i = Some m ->
               (i + m_length m <= length pre)%nat) ->
  fitsBefore re None pre x.
Proof.
  intros H p1 c p2 m -> Hm.
  specialize (H (length p1) m).
  rewrite <- app_assoc, matchAt_split in H.
  rewrite length_app in H. simpl in *.
  specialize (H ltac:(lia) Hm). lia.
Qed.

Lemma keptAsIs_of_matchAt (re : RegExp) (f : Replacer) (s : str) :
  (forall i m, matchAt re s i = Some m ->
     f (firstn (m_length m) (skipn i s)) (m_capture m) (m_quote m)
     = firstn (m_length m) (skipn i s)) ->
  keptAsIs re f None s.
Proof.
  intros H p1 p2 m -> Hm.
  specialize (H (length p1) m).
  rewrite matchAt_split, skipn_app_length in H. auto.
Qed.

(** A text in which the pattern matches nowhere is left as it is. *)
Lemma replace_no_match (re : RegExp) (f : Replacer) (s : str) :
  (forall prev t m, re prev t = Some m -> (1 <= m_length m <= length t)%nat) ->
  (forall i, matchAt re s i = None) ->
  replace re f s = s.
Proof.
  intros Hb H. unfold replace.
  rewrite (replaceScan_kept re f Hb s None 0%nat); [reflexivity | lia |].
  apply keptAsIs_of_matchAt. intros i m Hm. rewrite H in Hm. discriminate.
Qed.

Lemma quote_not_slash (q : char) : isQuote q = true -> notAfterSlash (Some q) = true.
Proof.
  unfold isQuote, notAfterSlash. rewrite orb_true_iff, !N.eqb_eq.
  intros [-> | ->]; reflexivity.
Qed.

Lemma lastOpt_snoc (prev : option char) (s : str) (c : char) :
  lastOpt prev (s ++ [c]) = Some c.
Proof. rewrite lastOpt_app. reflexivity. Qed.

(** The alias passes leave a text alone in which none of their patterns matches. *)
Lemma rewriteAliases_no_match (cwd filePath : str) (aliases : list (str * str)) (s : str) :
  (forall alias targetPath i, In (alias, targetPath) aliases ->
     matchAt (aliasRegExp alias) s i = None) ->
  rewriteAliases cwd filePath aliases s = s.
Proof.
  unfold rewriteAliases. induction aliases as [|[alias targetPath] rest IH]; intros H.
  - reflexivity.
  - change (fold_left (aliasPass cwd filePath) rest
              (aliasPass cwd filePath s (alias, targetPath)) = s).
    replace (aliasPass cwd filePath s (alias, targetPath)) with s.
    + apply IH. intros a t i Hin. apply (H a t i). right; exact Hin.
    + symmetry. unfold aliasPass. apply replace_no_match.
      * apply aliasRegExp_bound.
      * intros i. apply (H alias targetPath i). left; reflexivity.
Qed.

(** ** Line by line *)

Lemma firstn_reaches {A} (P : A -> Prop) (l1 l2 : list A) (c : A) : forall n,
  Forall P (firstn n (l1 ++ c :: l2)) -> ~ P c -> (n <= length l1)%nat.
Proof.
  induction l1 as [|x l1 IH]; intros n H Hc.
  - destruct n; [simpl; lia|]. simpl in H. inversion H; subst. contradiction.
  - destruct n; [simpl; lia|]. simpl in H. inversion H; subst.
    specialize (IH n H3 Hc). simpl. lia.
Qed.

Section Lines.

Variable re : RegExp.
Variable f : Replacer.

Hypothesis re_bound : forall prev s m,
  re prev s = Some m -> (1 <= m_length m <= length s)%nat.
Hypothesis re_extend : forall prev s x m,
  re prev s = Some m -> re prev (s ++ x) = Some m.
Hypothesis re_restrict : forall prev s x m,
  re prev (s ++ x) = Some m -> (m_length m <= length s)%nat -> re prev s = Some m.
(** No match holds a line terminator. *)
Hypothesis re_line : forall prev s m,
  re prev s = Some m -> noLineTerminator (firstn (m_length m) s).

Lemma replaceScan_line (a b : str) (c : char) (prev : option char) :
  isLineTerminator c = true ->
  replaceScan re f prev 0 (a ++ c :: b)
  = replaceScan re f prev 0 a ++ c :: replaceScan re f (Some c) 0 b.
Proof.
  intros Hc.
  assert (~ isLineTerminator c = false) as Hc' by (rewrite Hc; discriminate).
  rewrite (replaceScan_app re f re_bound re_extend re_restrict a (c :: b) prev 0%nat);
    [| lia |].
  - f_equal. simpl replaceScan.
    destruct (re (lastOpt prev a) (c :: b)) as [m|] eqn:E; [|reflexivity].
    exfalso. pose proof (re_bound _ _ _ E) as Hb.
    pose proof (re_line _ _ _ E) as Hl.
    apply (firstn_reaches _ [] b c) in Hl; [simpl in Hl; lia | exact Hc'].
  - intros p1 d p2 m -> E.
    pose proof (re_line _ _ _ E) as Hl.
    apply (firstn_reaches _ (d :: p2) b c) in Hl; [exact Hl | exact Hc'].
Qed.

End Lines.

Lemma lineTerminator_other (c : char) :
  isLineTerminator c = true -> isQuote c = false /\ (c =? SLASH) = false.
Proof.
  unfold isLineTerminator. rewrite !orb_true_iff, !N.eqb_eq.
  intros [[[-> | ->] | ->] | ->]; split; reflexivity.
Qed.

Lemma plain_noLineTerminator (cap : str) : Forall plain cap -> noLineTerminator cap.
Proof. apply Forall_impl. intros c [_ H]. exact H. Qed.

Lemma quote_noLineTerminator (q : char) : isQuote q = true -> isLineTerminator q = false.
Proof.
  unfold isQuote. rewrite orb_true_iff, !N.eqb_eq. intros [-> | ->]; reflexivity.
Qed.

Lemma aliasRegExp_line (alias : str) :
  noLineTerminator alias ->
  forall prev s m, aliasRegExp alias prev s = Some m ->
    noLineTerminator (firstn (m_length m) s).
Proof.
  intros Ha prev s m H.
  apply aliasRegExp_Some in H as (_ & cap & q & rest & -> & Hq & Hc & ->).
  replace (alias ++ SLASH :: cap ++ q :: rest)
    with ((alias ++ SLASH :: cap ++ [q]) ++ rest) by reassoc.
  replace (m_length (aliasMatch alias cap q))
    with (length (alias ++ SLASH :: cap ++ [q]))
    by (simpl; rewrite !length_app; simpl; rewrite !length_app; simpl; lia).
  rewrite firstn_app_length.
  apply Forall_app. split; [exact Ha|]. constructor; [reflexivity|].
  apply Forall_app. split; [apply plain_noLineTerminator; exact Hc|].
  constructor; [apply quote_noLineTerminator; exact Hq | constructor].
Qed.

Lemma absolutePathRegex_line prev s m :
  absolutePathRegex prev s = Some m -> noLineTerminator (firstn (m_length m) s).
Proof.
  intros H. apply absolutePathRegex_Some in H
    as (q0 & cap & q & rest & -> & Hq0 & Hq & Hc & ->).
  replace (q0 :: SLASH :: cap ++ q :: rest)
    with ((q0 :: SLASH :: cap ++ [q]) ++ rest) by reassoc.
  replace (m_length (absoluteMatch cap q))
    with (length (q0 :: SLASH :: cap ++ [q]))
    by (simpl; rewrite !length_app; simpl; lia).
  rewrite firstn_app_length.
  constructor; [apply quote_noLineTerminator; exact Hq0|].
  constructor; [reflexivity|].
  apply Forall_app. split; [apply plain_noLineTerminator; exact Hc|].
  constructor; [apply quote_noLineTerminator; exact Hq | constructor].
Qed.

Lemma aliasPass_line (cwd filePath a b : str) (c : char) (entry : str * str) :
  isLineTerminator c = true -> noLineTerminator (fst entry) ->
  aliasPass cwd filePath (a ++ c :: b) entry
  = aliasPass cwd filePath a entry ++ c :: aliasPass cwd filePath b entry.
Proof.
  destruct entry as [alias targetPath]. simpl fst. intros Hc Ha.
  unfold aliasPass, replace.
  rewrite (replaceScan_line _ _ (aliasRegExp_bound alias) (aliasRegExp_extend alias)
             (aliasRegExp_restrict alias) (aliasRegExp_line alias Ha) a b c None Hc).
  f_equal. f_equal. apply aliasScan_prev.
  destruct (lineTerminator_other c Hc) as [_ Hs]. simpl. rewrite Hs. reflexivity.
Qed.

Lemma rewriteAliases_line (cwd filePath : str) (aliases : list (str * str)) (c : char) :
  isLineTerminator c = true ->
  (forall entry, In entry aliases -> noLineTerminator (fst entry)) ->
  forall a b,
    rewriteAliases cwd filePath aliases (a ++ c :: b)
    = rewriteAliases cwd filePath aliases a
      ++ c :: rewriteAliases cwd filePath aliases b.
Proof.
  intros Hc. unfold rewriteAliases.
  induction aliases as [|entry rest IH]; intros Ha a b; [reflexivity|].
  change (fold_left (aliasPass cwd filePath) (entry :: rest) ?x)
    with (fold_left (aliasPass cwd filePath) rest (aliasPass cwd filePath x entry)).
  rewrite aliasPass_line; [| exact Hc | apply Ha; left; reflexivity].
  apply IH. intros e He. apply Ha. right. exact He.
Qed.

Lemma rewriteAbsolute_line (cwd filePath : str) (known : list str) (a b : str) (c : char) :
  isLineTerminator c = true ->
  rewriteAbsolute cwd filePath known (a ++ c :: b)
  = rewriteAbsolute cwd filePath known a ++ c :: rewriteAbsolute cwd filePath known b.
Proof.
  intros Hc. unfold rewriteAbsolute, replace.
  rewrite (replaceScan_line _ _ absolutePathRegex_bound absolutePathRegex_extend
             absolutePathRegex_restrict absolutePathRegex_line a b c None Hc).
  f_equal. f_equal. apply absoluteScan_prev.
Qed.


(** ** Contents made of lines *)

Lemma aliasPass_quiet (cwd filePath s : str) (entry : str * str) :
  matchAll (aliasRegExp (fst entry)) s = [] -> aliasPass cwd filePath s entry = s.
Proof.
  destruct entry as [alias targetPath]. unfold aliasPass, replace, matchAll.
  simpl fst. intros H. apply (scan_quiet _ _ s None 0%nat H).
Qed.

Lemma rewriteAliases_quiet (cwd filePath : str) (aliases : list (str * str)) (s : str) :
  (forall entry, In entry aliases -> matchAll (aliasRegExp (fst entry)) s = []) ->
  rewriteAliases cwd filePath aliases s = s.
Proof.
  unfold rewriteAliases. induction aliases as [|entry rest IH]; intros H; [reflexivity|].
  change (fold_left (aliasPass cwd filePath) (entry :: rest) s)
    with (fold_left (aliasPass cwd filePath) rest (aliasPass cwd filePath s entry)).
  rewrite aliasPass_quiet; [|apply H; left; reflexivity].
  apply IH. intros e He. apply H. right. exact He.
Qed.

(** When one entry only matches in a text, and nothing matches in what its
    pass leaves, the passes of the table come to the pass of that entry,
    wherever the entry stands in the table. *)
Lemma rewriteAliases_single
    (cwd filePath : str) (aliases : list (str * str)) (s : str) (entry : str * str) :
  NoDup (map fst aliases) ->
  In entry aliases ->
  (forall other, In other aliases -> fst other <> fst entry ->
     matchAll (aliasRegExp (fst other)) s = []) ->
  (forall other, In other aliases ->
     matchAll (aliasRegExp (fst other)) (aliasPass cwd filePath s entry) = []) ->
  rewriteAliases cwd filePath aliases s = aliasPass cwd filePath s entry.
Proof.
  intros Hnd Hin Hothers Hafter.
  destruct (in_split _ _ Hin) as (before & after & E). subst aliases.
  rewrite map_app in Hnd. simpl map in Hnd.
  pose proof (NoDup_remove_2 _ _ _ Hnd) as Hout.
  unfold rewriteAliases. rewrite fold_left_app.
  change (fold_left (aliasPass cwd filePath) (entry :: after) ?x)
    with (fold_left (aliasPass cwd filePath) after (aliasPass cwd filePath x entry)).
  fold (rewriteAliases cwd filePath before s).
  rewrite (rewriteAliases_quiet cwd filePath before s).
  - apply (rewriteAliases_quiet cwd filePath after).
    intros e He. apply Hafter. apply in_or_app. right. right. exact He.
  - intros e He. apply Hothers; [apply in_or_app; left; exact He|].
    intros Heq. apply Hout. apply in_or_app. left.
    rewrite <- Heq. apply in_map. exact He.
Qed.

Lemma rewriteAliases_empty (cwd filePath : str) (aliases : list (str * str)) :
  rewriteAliases cwd filePath aliases [] = [].
Proof.
  unfold rewriteAliases. induction aliases as [|[alias targetPath] rest IH];
    [reflexivity | exact IH].
Qed.

(** The passes rewrite a content line by line. *)
Lemma rewriteAliases_lines (cwd filePath : str) (aliases : list (str * str)) :
  (forall entry, In entry aliases -> noLineTerminator (fst entry)) ->
  forall lines,
    rewriteAliases cwd filePath aliases (joinLines lines)
    = joinLines (map (rewriteAliases cwd filePath aliases) lines).
Proof.
  intros Ha. induction lines as [|line rest IH].
  - apply rewriteAliases_empty.
  - destruct rest as [|next rest]; [reflexivity|].
    change (joinLines (line :: next :: rest))
      with (line ++ 10 :: joinLines (next :: rest)).
    rewrite (rewriteAliases_line cwd filePath aliases 10 eq_refl Ha), IH.
    reflexivity.
Qed.
(** ** Objects *)

Section ObjectFacts.

Context {V : Type}.
Implicit Types (o : @jsobj V) (k t : str) (v : V).

Lemma objGet_objUpdate o k v t :
  objGet k o <> None ->
  objGet t (objUpdate k v o) = if str_eqb t k then Some v else objGet t o.
Proof.
  induction o as [|[k' v'] r IH]; simpl; intros H; [congruence|].
  destruct (str_eqb k k') eqn:E.
  - apply str_eqb_eq in E; subst k'. simpl.
    destruct (str_eqb t k); reflexivity.
  - simpl. destruct (str_eqb t k') eqn:E'.
    + apply str_eqb_eq in E'; subst k'.
      destruct (str_eqb t k) eqn:E''; [|reflexivity].
      apply str_eqb_eq in E''; subst k. rewrite str_eqb_refl in E. discriminate.
    + apply IH. exact H.
Qed.

Lemma objGet_objInsertIndex o n k v t :
  objGet k o = None ->
  objGet t (objInsertIndex n k v o) = if str_eqb t k then Some v else objGet t o.
Proof.
  induction o as [|[k' v'] r IH]; simpl; [reflexivity|].
  destruct (str_eqb k k') eqn:Ek; [discriminate|]. intros H.
  destruct (arrayIndex k') as [n'|]; [destruct (n' <? n)|]; simpl;
    try reflexivity.
  rewrite (IH H). destruct (str_eqb t k') eqn:E'; [|reflexivity].
  destruct (str_eqb t k) eqn:E; [|reflexivity].
  apply str_eqb_eq in E'; apply str_eqb_eq in E; subst.
  rewrite str_eqb_refl in Ek. discriminate.
Qed.

Lemma objGet_snoc o k v t :
  objGet k o = None ->
  objGet t (o ++ [(k, v)]) = if str_eqb t k then Some v else objGet t o.
Proof.
  induction o as [|[k' v'] r IH]; simpl; [reflexivity|].
  destruct (str_eqb k k') eqn:Ek; [discriminate|]. intros H.
  rewrite (IH H). destruct (str_eqb t k') eqn:E'; [|reflexivity].
  destruct (str_eqb t k) eqn:E; [|reflexivity].
  apply str_eqb_eq in E'; apply str_eqb_eq in E; subst.
  rewrite str_eqb_refl in Ek. discriminate.
Qed.

(** Reading a property after a write. *)
Lemma objGet_objSet o k v t :
  objGet t (objSet o (k, v)) = if str_eqb t k then Some v else objGet t o.
Proof.
  unfold objSet. destruct (objGet k o) eqn:E.
  - apply objGet_objUpdate. congruence.
  - destruct (arrayIndex k).
    + apply objGet_objInsertIndex; exact E.
    + apply objGet_snoc; exact E.
Qed.

Lemma objGet_not_key o t : ~ In t (map fst o) -> objGet t o = None.
Proof.
  induction o as [|[k v] r IH]; simpl; [reflexivity|]. intros H.
  destruct (str_eqb t k) eqn:E.
  - apply str_eqb_eq in E. subst. tauto.
  - apply IH. tauto.
Qed.

(** The properties of [b] written one by one over [a]. *)
Lemma objGet_fold (b : @jsobj V) : forall a t,
  NoDup (map fst b) ->
  objGet t (fold_left objSet b a)
  = match objGet t b with Some v => Some v | None => objGet t a end.
Proof.
  induction b as [|[k v] r IH]; intros a t Hnd; [reflexivity|].
  simpl in Hnd. inversion Hnd as [|? ? Hk Hr]; subst.
  change (fold_left objSet ((k, v) :: r) a)
    with (fold_left objSet r (objSet a (k, v))).
  rewrite (IH _ _ Hr), objGet_objSet. simpl objGet.
  destruct (str_eqb t k) eqn:E; [|reflexivity].
  apply str_eqb_eq in E; subst. rewrite (objGet_not_key r k Hk). reflexivity.
Qed.

Lemma objGet_objSpread (a b : @jsobj V) t :
  NoDup (map fst a) -> NoDup (map fst b) ->
  objGet t (objSpread a b)
  = match objGet t b with Some v => Some v | None => objGet t a end.
Proof.
  intros Ha Hb. unfold objSpread. rewrite (objGet_fold b _ t Hb).
  rewrite (objGet_fold a [] t Ha). simpl.
  destruct (objGet t a); reflexivity.
Qed.

End ObjectFacts.

Lemma defaultAliases_keys (rootDir srcDir : str) :
  NoDup (map fst (defaultAliases rootDir srcDir)).
Proof.
  unfold defaultAliases. simpl map.
  repeat (constructor; [vm_compute; intuition discriminate|]). constructor.
Qed.

(** ** Paths *)

(** The examples of Node's documentation of the module. *)
Example path_documented :
  Path.dirname (lit "/foo/bar/baz/asdf/quux") = lit "/foo/bar/baz/asdf"
  /\ Path.join [lit "/foo"; lit "bar"; lit "baz/asdf"; lit "quux"; lit ".."]
     = lit "/foo/bar/baz/asdf"
  /\ Path.normalize (lit "/foo/bar//baz/asdf/quux/..") = lit "/foo/bar/baz/asdf"
  /\ Path.relative (lit "/") (lit "/data/orandea/test/aaa") (lit "/data/orandea/impl/bbb")
     = lit "../../impl/bbb"
  /\ Path.resolve (lit "/") [lit "/foo/bar"; lit "./baz"] = lit "/foo/bar/baz"
  /\ Path.resolve (lit "/") [lit "/foo/bar"; lit "/tmp/file/"] = lit "/tmp/file"
  /\ Path.resolve (lit "/home/myself/node")
       [lit "wwwroot"; lit "static_files/png/"; lit "../gif/image.gif"]
     = lit "/home/myself/node/wwwroot/static_files/gif/image.gif"
  /\ Path.isAbsolute (lit "/baz/..") = true
  /\ Path.isAbsolute (lit "qux/") = false.
Proof. repeat split; reflexivity. Qed.

Module PathFacts.
Import Path.

Lemma split_not_nil (s : str) : split s <> [].
Proof.
  induction s as [|c s IH]; simpl; [discriminate|].
  destruct (isSep c); [discriminate|].
  destruct (split s); [contradiction | discriminate].
Qed.

Lemma split_noSep (s : str) : Forall noSep (split s).
Proof.
  induction s as [|c s IH]; simpl.
  - repeat constructor.
  - destruct (isSep c) eqn:E.
    + constructor; [reflexivity | exact IH].
    + destruct (split s) as [|seg segs]; [repeat constructor; unfold noSep; simpl; rewrite E; reflexivity|].
      inversion IH; subst. constructor; auto.
      unfold noSep in *. simpl. rewrite E. assumption.
Qed.

(** Splitting at a separator splits the list of segments. *)
Lemma split_app_sep (a b : str) : split (a ++ SLASH :: b) = split a ++ split b.
Proof.
  induction a as [|c a IH]; simpl; [reflexivity|].
  destruct (isSep c); [rewrite IH; reflexivity|].
  rewrite IH. destruct (split a) as [|seg segs] eqn:E.
  - exfalso. exact (split_not_nil a E).
  - reflexivity.
Qed.

Lemma split_one (seg : str) : noSep seg -> split seg = [seg].
Proof.
  unfold noSep. induction seg as [|c seg IH]; simpl; [reflexivity|].
  destruct (isSep c); simpl; [discriminate|]. intros H. rewrite (IH H). reflexivity.
Qed.

Lemma unsplit_cons (seg : str) (segs : list str) :
  segs <> [] -> unsplit (seg :: segs) = seg ++ SLASH :: unsplit segs.
Proof. destruct segs; [contradiction | reflexivity]. Qed.

Lemma unsplit_snoc (segs : list str) (seg : str) :
  segs <> [] -> unsplit (segs ++ [seg]) = unsplit segs ++ SLASH :: seg.
Proof.
  induction segs as [|a segs IH]; [contradiction|]. intros _.
  destruct segs as [|b segs]; [reflexivity|].
  change ((a :: b :: segs) ++ [seg]) with (a :: ((b :: segs) ++ [seg])).
  rewrite unsplit_cons by (simpl; discriminate).
  rewrite IH by discriminate.
  rewrite (unsplit_cons a (b :: segs)) by discriminate. reassoc.
Qed.

Lemma split_unsplit (segs : list str) :
  segs <> [] -> Forall noSep segs -> split (unsplit segs) = segs.
Proof.
  induction segs as [|a segs IH]; [contradiction|]. intros _ H.
  inversion H; subst.
  destruct segs as [|b segs]; [apply split_one; assumption|].
  rewrite unsplit_cons by discriminate.
  rewrite split_app_sep, split_one by assumption.
  rewrite IH by (discriminate || assumption). reflexivity.
Qed.

Lemma validSeg_noSep (seg : str) : validSeg seg -> noSep seg.
Proof.
  unfold validSeg, validName, noSep. rewrite !andb_true_iff, !negb_true_iff. tauto.
Qed.

Lemma pushSegment_valid (res : list str) (seg : str) :
  validSeg seg -> pushSegment false res seg = seg :: res.
Proof.
  unfold validSeg, validName, pushSegment.
  rewrite !andb_true_iff, !negb_true_iff. intros [[[H1 _] H2] H3].
  rewrite H1, H2, H3. reflexivity.
Qed.

Lemma pushSegment_keeps (res : list str) (seg : str) :
  noSep seg -> Forall validSeg res -> Forall validSeg (pushSegment false res seg).
Proof.
  intros Hs Hres. unfold pushSegment.
  destruct (isEmpty seg) eqn:E1; simpl; [assumption|].
  destruct (isDot seg) eqn:E2; [assumption|].
  destruct (isDotDot seg) eqn:E3.
  - destruct res as [|l before]; [constructor|].
    inversion Hres; subst. destruct (isDotDot l); assumption.
  - constructor; [|assumption].
    unfold validSeg, validName. rewrite E1, E2, E3, Hs. reflexivity.
Qed.

Lemma fold_pushSegment_keeps (segs res : list str) :
  Forall noSep segs -> Forall validSeg res ->
  Forall validSeg (fold_left (pushSegment false) segs res).
Proof.
  revert res; induction segs as [|seg segs IH]; intros res Hs Hres; simpl; auto.
  inversion Hs; subst. apply IH; auto. apply pushSegment_keeps; auto.
Qed.

Lemma fold_pushSegment_valid (segs res : list str) :
  Forall validSeg segs ->
  fold_left (pushSegment false) segs res = rev segs ++ res.
Proof.
  revert res; induction segs as [|seg segs IH]; intros res H; simpl; auto.
  inversion H; subst. rewrite pushSegment_valid, IH by assumption. reassoc.
Qed.

Lemma normalizeSegments_valid (segs : list str) :
  Forall validSeg segs -> normalizeSegments false ([] :: segs) = segs.
Proof.
  intros H. unfold normalizeSegments. simpl fold_left.
  change (pushSegment false [] []) with (@nil str).
  rewrite fold_pushSegment_valid, app_nil_r, rev_involutive by assumption.
  reflexivity.
Qed.

Lemma normalizeSegments_keeps (segs : list str) :
  Forall noSep segs -> Forall validSeg (normalizeSegments false segs).
Proof.
  intros H. unfold normalizeSegments. apply Forall_rev.
  apply fold_pushSegment_keeps; [assumption | constructor].
Qed.

Lemma endsWith_slash_valid (a seg : str) :
  validSeg seg -> endsWith [SLASH] (a ++ seg) = false.
Proof.
  intros H. pose proof (validSeg_noSep _ H) as Hn.
  unfold validSeg, validName in H. rewrite !andb_true_iff, !negb_true_iff in H.
  destruct H as [[[He _] _] _].
  unfold endsWith. rewrite rev_app_distr.
  destruct (rev seg) as [|c r] eqn:E.
  - apply (f_equal (@rev char)) in E. rewrite rev_involutive in E.
    subst seg. discriminate.
  - simpl. assert (In c seg) as Hin
      by (apply in_rev; rewrite E; left; reflexivity).
    unfold noSep in Hn.
    assert (isSep c = false) as Hc.
    { destruct (isSep c) eqn:Ec; [|reflexivity].
      assert (existsb isSep seg = true) by (apply existsb_exists; eauto).
      congruence. }
    unfold isSep in Hc. rewrite N.eqb_sym, Hc. reflexivity.
Qed.

(** Joining a clean directory and a valid name appends the name. *)
Lemma join_clean (segs : list str) (name : str) :
  segs <> [] -> Forall validSeg segs -> validSeg name ->
  join [clean segs; name] = clean (segs ++ [name]).
Proof.
  intros Hne Hsegs Hname.
  assert (Forall validSeg (segs ++ [name])) as Hall
    by (apply Forall_app; split; [assumption | repeat constructor; assumption]).
  assert (name <> []) as Hn.
  { intros ->. unfold validSeg in Hname. discriminate. }
  assert (join [clean segs; name] = normalize (clean segs ++ SLASH :: name)) as ->.
  { unfold join. destruct name; [contradiction | reflexivity]. }
  assert (clean segs ++ SLASH :: name = SLASH :: unsplit (segs ++ [name])) as E.
  { unfold clean. rewrite unsplit_snoc by assumption. reflexivity. }
  assert (endsWith [SLASH] (clean segs ++ SLASH :: name) = false) as Hend.
  { replace (clean segs ++ SLASH :: name) with ((clean segs ++ [SLASH]) ++ name)
      by reassoc.
    apply endsWith_slash_valid. assumption. }
  assert (normalizeString (clean segs ++ SLASH :: name) false
          = unsplit (segs ++ [name])) as Hbody.
  { unfold normalizeString. rewrite E.
    change (split (SLASH :: unsplit (segs ++ [name])))
      with ([] :: split (unsplit (segs ++ [name]))).
    rewrite split_unsplit.
    - rewrite normalizeSegments_valid by assumption. reflexivity.
    - destruct segs; discriminate.
    - eapply Forall_impl; [|exact Hall]. apply validSeg_noSep. }
  rewrite E in *. unfold normalize.
  cbv beta iota zeta.
  change (isAbsolute (SLASH :: unsplit (segs ++ [name]))) with (SLASH =? SLASH).
  rewrite N.eqb_refl. simpl negb.
  rewrite Hend, Hbody.
  unfold clean.
  destruct (unsplit (segs ++ [name])) eqn:Eu; [|reflexivity].
  rewrite unsplit_snoc in Eu by assumption.
  destruct (unsplit segs); discriminate.
Qed.

Lemma unsplit_app_prefix (more segs : list str) :
  segs <> [] -> exists tail, unsplit (segs ++ more) = unsplit segs ++ tail.
Proof.
  revert segs; induction more as [|seg more IH]; intros segs Hne.
  - exists []. rewrite !app_nil_r. reflexivity.
  - replace (segs ++ seg :: more) with ((segs ++ [seg]) ++ more) by reassoc.
    destruct (IH (segs ++ [seg])) as [tail E]; [destruct segs; discriminate|].
    rewrite E, unsplit_snoc by assumption.
    exists (SLASH :: seg ++ tail). reassoc.
Qed.

Lemma clean_prefix (segs more : list str) :
  segs <> [] -> startsWith (clean segs) (clean (segs ++ more)) = true.
Proof.
  intros Hne. destruct (unsplit_app_prefix more segs Hne) as [tail E].
  unfold clean. rewrite E.
  change (SLASH :: unsplit segs ++ tail) with ((SLASH :: unsplit segs) ++ tail).
  apply startsWith_app.
Qed.

(** The directory the walk starts from is clean. *)
Lemma resolve_src_clean (cwd : str) :
  isAbsolute cwd = true ->
  exists segs, segs <> [] /\ Forall validSeg segs
               /\ resolve cwd [lit "src"] = clean segs.
Proof.
  intros Habs.
  exists (normalizeSegments false (split cwd) ++ [lit "src"]).
  split; [destruct (normalizeSegments false (split cwd)); discriminate|].
  split.
  - apply Forall_app. split.
    + apply normalizeSegments_keeps, split_noSep.
    + repeat constructor.
  - unfold resolve. simpl rev. simpl app.
    change (resolveLoop [lit "src"; cwd] [])
      with (resolveLoop [cwd] (lit "src" ++ [SLASH])).
    unfold resolveLoop. rewrite Habs.
    destruct cwd as [|c cwd']; [discriminate|]. simpl isEmpty. cbv iota.
    simpl negb. unfold clean, normalizeString. f_equal. f_equal.
    rewrite (split_app_sep (c :: cwd') (lit "src" ++ [SLASH])).
    change (split (lit "src" ++ [SLASH])) with [lit "src"; []].
    unfold normalizeSegments. rewrite fold_left_app. simpl fold_left.
    rewrite (pushSegment_valid _ (lit "src")) by reflexivity.
    reflexivity.
Qed.

End PathFacts.

(** ** The walk *)

Open Scope nat_scope.

Lemma weight_app (a b : list Task) : weight (a ++ b) = weight a + weight b.
Proof. unfold weight. rewrite map_app, list_sum_app. reflexivity. Qed.

Lemma extract_perm {A} (i : nat) (x : A) (l : list A) (y : A) (l' : list A) :
  extract i x l = (y, l') -> Permutation (x :: l) (y :: l').
Proof.
  revert i x y l'; induction l as [|z l IH]; intros i x y l' H.
  - destruct i; inversion H; subst; apply Permutation_refl.
  - destruct i as [|j]; simpl in H.
    + inversion H; subst. apply Permutation_refl.
    + destruct (extract j z l) as [u r] eqn:E. inversion H; subst.
      apply IH in E.
      eapply Permutation_trans; [apply perm_skip; exact E|]. apply perm_swap.
Qed.

Lemma extract_weight (i : nat) (x : Task) (l : list Task) (y : Task) (l' : list Task) :
  extract i x l = (y, l') -> weight (x :: l) = weight (y :: l').
Proof.
  intros H. apply extract_perm in H. unfold weight.
  apply Permutation_list_sum, Permutation_map. exact H.
Qed.

Lemma loadCount_app (a b : list event) : loadCount (a ++ b) = loadCount a + loadCount b.
Proof. unfold loadCount. rewrite filter_app, length_app. reflexivity. Qed.

Lemma readsOf_app (a b : list event) : readsOf (a ++ b) = readsOf a ++ readsOf b.
Proof. unfold readsOf. apply flat_map_app. Qed.

Lemma acceptedPaths_file (dir name content : str) (rest : list (str * node)) :
  acceptedPaths dir ((name, File content) :: rest)
  = (if acceptedExtension (Path.join [dir; name]) then [Path.join [dir; name]] else [])
    ++ acceptedPaths dir rest.
Proof.
  unfold acceptedPaths, filesOf.
  change (flat_map ?f ((name, File content) :: rest))
    with ((Path.join [dir; name], content) :: flat_map f rest).
  change (map fst ((Path.join [dir; name], content) :: ?l))
    with (Path.join [dir; name] :: map fst l).
  change (filter ?g (Path.join [dir; name] :: ?l))
    with (if g (Path.join [dir; name])
          then Path.join [dir; name] :: filter g l else filter g l).
  destruct (acceptedExtension (Path.join [dir; name])); reflexivity.
Qed.

Lemma acceptedPaths_dir (dir name : str) (sub rest : list (str * node)) :
  acceptedPaths dir ((name, Dir sub) :: rest)
  = acceptedPaths (Path.join [dir; name]) sub ++ acceptedPaths dir rest.
Proof.
  unfold acceptedPaths, filesOf.
  change (flat_map ?f ((name, Dir sub) :: rest))
    with (filesOfNode (Path.join [dir; name]) (Dir sub) ++ flat_map f rest).
  rewrite map_app, filter_app. reflexivity.
Qed.

Section WalkFacts.

Variable w : World.
Variable knownDirectories : list str.

(** The ways through the visit of a file. *)
Lemma visitFile_cases (aliases : @jsobj str) (filePath content : str)
    (evs : list event) (threw : bool) :
  visitFile w knownDirectories aliases filePath content = (evs, threw) ->
  (throws w (readFileSync filePath) = true
   /\ evs = [Throws (readFileSync filePath)] /\ threw = true)
  \/ (throws w (readFileSync filePath) = false
      /\ ((rewriteContent (cwd w) filePath aliases (shouldReplaceAbsolutePaths w)
             knownDirectories content = content
           /\ evs = [ReadFile filePath] /\ threw = false)
          \/ (rewriteContent (cwd w) filePath aliases (shouldReplaceAbsolutePaths w)
                knownDirectories content <> content
              /\ ((throws w (writeFileSync filePath) = true
                   /\ evs = [ReadFile filePath; Throws (writeFileSync filePath)]
                   /\ threw = true)
                  \/ (throws w (writeFileSync filePath) = false
                      /\ evs = [ReadFile filePath;
                                WriteFile filePath
                                  (rewriteContent (cwd w) filePath aliases
                                     (shouldReplaceAbsolutePaths w)
                                     knownDirectories content);
                                LogUpdated filePath]
                      /\ threw = false))))).
Proof.
  unfold visitFile. intros H.
  destruct (throws w (readFileSync filePath)).
  { inversion H; subst. left. auto. }
  right. split; [reflexivity|].
  destruct (str_eqb _ content) eqn:E.
  { inversion H; subst. left. apply str_eqb_eq in E. auto. }
  right. apply str_eqb_neq in E. split; [exact E|].
  destruct (throws w (writeFileSync filePath)); inversion H; subst; auto.
Qed.

(** The ways through one turn of the [forEach]. *)
Lemma replaceAliases_cons (aliases : @jsobj str) (dir file : str) (n : node)
    (rest : list (str * node)) (calls : nat)
    (evs : list event) (tasks : list Task) (calls' : nat) (threw : bool) :
  replaceAliases w knownDirectories aliases dir ((file, n) :: rest) calls
  = (evs, tasks, calls', threw) ->
  (throws w (lstatSync (Path.join [dir; file])) = true
   /\ evs = [Throws (lstatSync (Path.join [dir; file]))]
   /\ tasks = [] /\ calls' = calls /\ threw = true)
  \/ (throws w (lstatSync (Path.join [dir; file])) = false
      /\ ((exists sub evs0 tasks0,
             n = Dir sub
             /\ replaceAliases w knownDirectories aliases dir rest (S calls)
                = (evs0, tasks0, calls', threw)
             /\ evs = LoadNuxtConfig calls :: evs0
             /\ tasks = {| t_dir := Path.join [dir; file]; t_entries := sub;
                           t_load := calls |} :: tasks0)
          \/ (exists content,
                n = File content
                /\ acceptedExtension (Path.join [dir; file]) = false
                /\ replaceAliases w knownDirectories aliases dir rest calls
                   = (evs, tasks, calls', threw))
          \/ (exists content,
                n = File content
                /\ acceptedExtension (Path.join [dir; file]) = true
                /\ visitFile w knownDirectories aliases (Path.join [dir; file]) content
                   = (evs, true)
                /\ tasks = [] /\ calls' = calls /\ threw = true)
          \/ (exists content evs0 evs1,
                n = File content
                /\ acceptedExtension (Path.join [dir; file]) = true
                /\ visitFile w knownDirectories aliases (Path.join [dir; file]) content
                   = (evs0, false)
                /\ replaceAliases w knownDirectories aliases dir rest calls
                   = (evs1, tasks, calls', threw)
                /\ evs = evs0 ++ evs1))).
Proof.
  intros H. simpl in H.
  destruct (throws w (lstatSync (Path.join [dir; file]))).
  { inversion H; subst. left. auto 6. }
  right. split; [reflexivity|]. destruct n as [content|sub].
  - right. destruct (acceptedExtension (Path.join [dir; file])).
    + right.
      destruct (visitFile w knownDirectories aliases (Path.join [dir; file]) content)
        as [evs0 threw0] eqn:Ev.
      destruct threw0.
      * inversion H; subst. left. exists content. auto 8.
      * destruct (replaceAliases w knownDirectories aliases dir rest calls)
          as [[[evs1 tasks1] calls1] threw1] eqn:E.
        inversion H; subst. right. exists content, evs0, evs1. auto 8.
    + left. exists content. auto.
  - left.
    destruct (replaceAliases w knownDirectories aliases dir rest (S calls))
      as [[[evs0 tasks0] calls0] threw0] eqn:E.
    inversion H; subst. exists sub, evs0, tasks0. auto 8.
Qed.

Lemma visitFile_loads (aliases : @jsobj str) (filePath content : str) :
  loadCount (fst (visitFile w knownDirectories aliases filePath content)) = 0%nat.
Proof.
  destruct (visitFile w knownDirectories aliases filePath content) as [evs threw] eqn:E.
  destruct (visitFile_cases _ _ _ _ _ E)
    as [(_ & -> & _) | (_ & [(_ & -> & _) | (_ & [(_ & -> & _) | (_ & -> & _)])])];
    reflexivity.
Qed.

(** The events of a visit: no load and no error report; a call that throws
    exactly when an exception escapes; the read and the write of the file
    itself. *)
Lemma visitFile_events (aliases : @jsobj str) (filePath content : str) (e : event) :
  In e (fst (visitFile w knownDirectories aliases filePath content)) ->
  isError e = false /\ isLoad e = false.
Proof.
  destruct (visitFile w knownDirectories aliases filePath content) as [evs threw] eqn:E.
  destruct (visitFile_cases _ _ _ _ _ E)
    as [(_ & -> & _) | (_ & [(_ & -> & _) | (_ & [(_ & -> & _) | (_ & -> & _)])])];
    simpl; intuition (subst; reflexivity).
Qed.

Lemma visitFile_threw (aliases : @jsobj str) (filePath content : str)
    (evs : list event) (threw : bool) :
  visitFile w knownDirectories aliases filePath content = (evs, threw) ->
  (threw = true -> exists call, In (Throws call) evs)
  /\ (threw = false -> forall e, In e evs -> isThrow e = false).
Proof.
  intros E. destruct (visitFile_cases _ _ _ _ _ E)
    as [(_ & -> & ->) | (_ & [(_ & -> & ->) | (_ & [(_ & -> & ->) | (_ & -> & ->)])])];
    split; try discriminate; intros _.
  - eexists. left. reflexivity.
  - simpl. intuition (subst; reflexivity).
  - eexists. right. left. reflexivity.
  - simpl. intuition (subst; reflexivity).
Qed.

Lemma visitFile_read (aliases : @jsobj str) (filePath content path : str) :
  In (ReadFile path) (fst (visitFile w knownDirectories aliases filePath content)) ->
  path = filePath.
Proof.
  destruct (visitFile w knownDirectories aliases filePath content) as [evs threw] eqn:E.
  destruct (visitFile_cases _ _ _ _ _ E)
    as [(_ & -> & _) | (_ & [(_ & -> & _) | (_ & [(_ & -> & _) | (_ & -> & _)])])];
    simpl; intuition congruence.
Qed.

Lemma visitFile_write (aliases : @jsobj str) (filePath content path data : str) :
  In (WriteFile path data)
    (fst (visitFile w knownDirectories aliases filePath content)) ->
  path = filePath
  /\ data = rewriteContent (cwd w) filePath aliases (shouldReplaceAbsolutePaths w)
              knownDirectories content
  /\ data <> content.
Proof.
  destruct (visitFile w knownDirectories aliases filePath content) as [evs threw] eqn:E.
  destruct (visitFile_cases _ _ _ _ _ E)
    as [(_ & -> & _) | (_ & [(_ & -> & _) | (Hne & [(_ & -> & _) | (_ & -> & _)])])];
    simpl; intros H.
  - destruct H as [H | []]. discriminate.
  - destruct H as [H | []]. discriminate.
  - destruct H as [H | [H | []]]; discriminate.
  - destruct H as [H | [H | [H | []]]]; try discriminate.
    inversion H; subst. auto.
Qed.

(** A visit that no exception ends reads the file, and writes it and
    reports it when the content is another. *)
Lemma visitFile_done (aliases : @jsobj str) (filePath content : str)
    (evs : list event) :
  visitFile w knownDirectories aliases filePath content = (evs, false) ->
  readsOf evs = [filePath]
  /\ In (ReadFile filePath) evs
  /\ (rewriteContent (cwd w) filePath aliases (shouldReplaceAbsolutePaths w)
        knownDirectories content <> content ->
      In (WriteFile filePath
            (rewriteContent (cwd w) filePath aliases (shouldReplaceAbsolutePaths w)
               knownDirectories content)) evs
      /\ In (LogUpdated filePath) evs).
Proof.
  intros E. destruct (visitFile_cases _ _ _ _ _ E)
    as [(_ & _ & Ht)
       | (_ & [(Heq & -> & _) | (Hne & [(_ & _ & Ht) | (_ & -> & _)])])];
    try discriminate.
  - split; [reflexivity|]. split; [left; reflexivity|]. intros H. contradiction.
  - split; [reflexivity|]. split; [left; reflexivity|]. intros _.
    split; [right; left; reflexivity | right; right; left; reflexivity].
Qed.

(** What one [forEach] leaves behind: a suspended call for every directory
    entry it came to, with one load each; for every directory entry when no
    exception cut it short. *)
Lemma replaceAliases_counts (aliases : @jsobj str) (dir : str) entries :
  forall calls evs tasks calls' threw,
    replaceAliases w knownDirectories aliases dir entries calls
    = (evs, tasks, calls', threw) ->
    calls' = (calls + length tasks)%nat
    /\ loadCount evs = length tasks
    /\ weight tasks <= dirsBelow entries
    /\ (threw = false -> weight tasks = dirsBelow entries).
Proof.
  induction entries as [|[file n] rest IH]; intros calls evs tasks calls' threw H.
  - inversion H; subst. unfold weight, dirsBelow. simpl. repeat split; lia.
  - destruct (replaceAliases_cons _ _ _ _ _ _ _ _ _ _ H)
      as [(_ & -> & -> & -> & ->)
         | (_ & [(sub & evs0 & tasks0 & -> & E & -> & ->)
               | [(content & -> & _ & E)
                 | [(content & -> & _ & Ev & -> & -> & ->)
                   | (content & evs0 & evs1 & -> & _ & Ev & E & ->)]]])].
    + unfold weight, dirsBelow. simpl. repeat split; try lia; discriminate.
    + destruct (IH _ _ _ _ _ E) as (H1 & H2 & H3 & H4).
      unfold weight in *. unfold loadCount in *. unfold dirsBelow in *.
      simpl. repeat split; try lia. intros Ht. specialize (H4 Ht). lia.
    + destruct (IH _ _ _ _ _ E) as (H1 & H2 & H3 & H4).
      unfold dirsBelow in *. simpl. repeat split; auto.
    + pose proof (visitFile_loads aliases (Path.join [dir; file]) content) as Hv.
      rewrite Ev in Hv. simpl in Hv.
      split; [simpl; lia|]. split; [exact Hv|].
      split; [unfold weight; simpl; lia | discriminate].
    + destruct (IH _ _ _ _ _ E) as (H1 & H2 & H3 & H4).
      pose proof (visitFile_loads aliases (Path.join [dir; file]) content) as Hv.
      rewrite Ev in Hv. simpl in Hv.
      unfold dirsBelow in *. simpl. rewrite loadCount_app.
      split; [exact H1|]. split; [lia|]. split; [exact H3 | exact H4].
Qed.

(** Every suspended call is for a directory entry, with the joined path. *)
Lemma replaceAliases_tasks (aliases : @jsobj str) (dir : str) entries :
  forall calls evs tasks calls' threw,
    replaceAliases w knownDirectories aliases dir entries calls
    = (evs, tasks, calls', threw) ->
    Forall (fun t => exists name,
                In (name, Dir (t_entries t)) entries
                /\ t_dir t = Path.join [dir; name]) tasks.
Proof.
  induction entries as [|[file n] rest IH]; intros calls evs tasks calls' threw H.
  - inversion H; subst. constructor.
  - destruct (replaceAliases_cons _ _ _ _ _ _ _ _ _ _ H)
      as [(_ & -> & -> & -> & ->)
         | (_ & [(sub & evs0 & tasks0 & -> & E & -> & ->)
               | [(content & -> & _ & E)
                 | [(content & -> & _ & Ev & -> & -> & ->)
                   | (content & evs0 & evs1 & -> & _ & Ev & E & ->)]]])].
    + constructor.
    + constructor.
      * exists file. split; [left|]; reflexivity.
      * eapply Forall_impl; [|exact (IH _ _ _ _ _ E)].
        intros t (name & Hin & Hd). exists name. split; [right|]; assumption.
    + eapply Forall_impl; [|exact (IH _ _ _ _ _ E)].
      intros t (name & Hin & Hd). exists name. split; [right|]; assumption.
    + constructor.
    + eapply Forall_impl; [|exact (IH _ _ _ _ _ E)].
      intros t (name & Hin & Hd). exists name. split; [right|]; assumption.
Qed.

(** Every event of a [forEach] is a load, a call that throws, or comes from
    an accepted file of the directory. *)
Lemma replaceAliases_events (aliases : @jsobj str) (dir : str) entries :
  forall calls evs tasks calls' threw,
    replaceAliases w knownDirectories aliases dir entries calls
    = (evs, tasks, calls', threw) ->
    Forall (fun e => isLoad e = true
                     \/ isThrow e = true
                     \/ exists name content,
                          In (name, File content) entries
                          /\ acceptedExtension (Path.join [dir; name]) = true
                          /\ In e (fst (visitFile w knownDirectories aliases
                                          (Path.join [dir; name]) content))) evs.
Proof.
  induction entries as [|[file n] rest IH]; intros calls evs tasks calls' threw H.
  - inversion H; subst. constructor.
  - assert (forall evs0,
              Forall (fun e => isLoad e = true
                     \/ isThrow e = true
                     \/ exists name content,
                          In (name, File content) rest
                          /\ acceptedExtension (Path.join [dir; name]) = true
                          /\ In e (fst (visitFile w knownDirectories aliases
                                          (Path.join [dir; name]) content))) evs0 ->
              Forall (fun e => isLoad e = true
                     \/ isThrow e = true
                     \/ exists name content,
                          In (name, File content) ((file, n) :: rest)
                          /\ acceptedExtension (Path.join [dir; name]) = true
                          /\ In e (fst (visitFile w knownDirectories aliases
                                          (Path.join [dir; name]) content))) evs0)
      as Hrest.
    { intros evs0. apply Forall_impl.
      intros e [Hl | [Ht | (name & c & Hin & Ha & He)]]; auto.
      right. right. exists name, c. split; [right|]; auto. }
    destruct (replaceAliases_cons _ _ _ _ _ _ _ _ _ _ H)
      as [(_ & -> & -> & -> & ->)
         | (_ & [(sub & evs0 & tasks0 & -> & E & -> & ->)
               | [(content & -> & _ & E)
                 | [(content & -> & Ha & Ev & -> & -> & ->)
                   | (content & evs0 & evs1 & -> & Ha & Ev & E & ->)]]])].
    + constructor; [right; left; reflexivity | constructor].
    + constructor; [left; reflexivity|]. apply Hrest. exact (IH _ _ _ _ _ E).
    + apply Hrest. exact (IH _ _ _ _ _ E).
    + apply Forall_forall. intros e He. right. right. exists file, content.
      split; [left; reflexivity|]. split; [exact Ha|]. rewrite Ev. exact He.
    + apply Forall_app. split.
      * apply Forall_forall. intros e He. right. right. exists file, content.
        split; [left; reflexivity|]. split; [exact Ha|]. rewrite Ev. exact He.
      * apply Hrest. exact (IH _ _ _ _ _ E).
Qed.

(** When the file system refuses nothing, no exception escapes. *)
Lemma replaceAliases_quiet (aliases : @jsobj str) (dir : str) entries :
  (forall call, throws w call = false) ->
  forall calls evs tasks calls' threw,
    replaceAliases w knownDirectories aliases dir entries calls
    = (evs, tasks, calls', threw) ->
    threw = false.
Proof.
  intros Hq. induction entries as [|[file n] rest IH];
    intros calls evs tasks calls' threw H.
  - inversion H; subst. reflexivity.
  - destruct (replaceAliases_cons _ _ _ _ _ _ _ _ _ _ H)
      as [(Hl & _)
         | (_ & [(sub & evs0 & tasks0 & -> & E & -> & ->)
               | [(content & -> & _ & E)
                 | [(content & -> & _ & Ev & _)
                   | (content & evs0 & evs1 & -> & _ & Ev & E & ->)]]])].
    + rewrite Hq in Hl. discriminate.
    + exact (IH _ _ _ _ _ E).
    + exact (IH _ _ _ _ _ E).
    + destruct (visitFile_cases _ _ _ _ _ Ev)
        as [(Hr & _) | (_ & [(_ & _ & Ht) | (_ & [(Hw & _) | (_ & _ & Ht)])])];
        try discriminate; rewrite Hq in *; discriminate.
    + exact (IH _ _ _ _ _ E).
Qed.

(** Every load of a [forEach] belongs to a call it starts. *)
Lemma replaceAliases_loads (aliases : @jsobj str) (dir : str) entries :
  forall calls evs tasks calls' threw k,
    replaceAliases w knownDirectories aliases dir entries calls
    = (evs, tasks, calls', threw) ->
    In (LoadNuxtConfig k) evs -> exists t, In t tasks /\ t_load t = k.
Proof.
  induction entries as [|[file n] rest IH]; intros calls evs tasks calls' threw k H Hin.
  - inversion H; subst. destruct Hin.
  - destruct (replaceAliases_cons _ _ _ _ _ _ _ _ _ _ H)
      as [(_ & -> & -> & -> & ->)
         | (_ & [(sub & evs0 & tasks0 & -> & E & -> & ->)
               | [(content & -> & _ & E)
                 | [(content & -> & _ & Ev & -> & -> & ->)
                   | (content & evs0 & evs1 & -> & _ & Ev & E & ->)]]])].
    + destruct Hin as [Hin | []]. discriminate.
    + destruct Hin as [Hin | Hin].
      * inversion Hin; subst. eexists. split; [left; reflexivity | reflexivity].
      * destruct (IH _ _ _ _ _ _ E Hin) as (t & Ht & Hk). eauto using in_cons.
    + exact (IH _ _ _ _ _ _ E Hin).
    + pose proof (visitFile_events aliases (Path.join [dir; file]) content
                    (LoadNuxtConfig k)) as Hv.
      rewrite Ev in Hv. destruct (Hv Hin) as [_ Hl]. discriminate.
    + apply in_app_or in Hin as [Hin | Hin].
      * pose proof (visitFile_events aliases (Path.join [dir; file]) content
                      (LoadNuxtConfig k)) as Hv.
        rewrite Ev in Hv. destruct (Hv Hin) as [_ Hl]. discriminate.
      * exact (IH _ _ _ _ _ _ E Hin).
Qed.

(** A call throws in a [forEach] exactly when an exception escapes it. *)
Lemma replaceAliases_threw (aliases : @jsobj str) (dir : str) entries :
  forall calls evs tasks calls' threw,
    replaceAliases w knownDirectories aliases dir entries calls
    = (evs, tasks, calls', threw) ->
    (threw = true -> exists call, In (Throws call) evs)
    /\ (threw = false -> forall e, In e evs -> isThrow e = false).
Proof.
  induction entries as [|[file n] rest IH]; intros calls evs tasks calls' threw H.
  - inversion H; subst. split; [discriminate | intros _ e []].
  - destruct (replaceAliases_cons _ _ _ _ _ _ _ _ _ _ H)
      as [(_ & -> & -> & -> & ->)
         | (_ & [(sub & evs0 & tasks0 & -> & E & -> & ->)
               | [(content & -> & _ & E)
                 | [(content & -> & _ & Ev & -> & -> & ->)
                   | (content & evs0 & evs1 & -> & _ & Ev & E & ->)]]])].
    + split; [|discriminate]. intros _. eexists. left. reflexivity.
    + destruct (IH _ _ _ _ _ E) as [H1 H2]. split.
      * intros Ht. destruct (H1 Ht) as [call Hc]. exists call. right. exact Hc.
      * intros Ht e [<- | He]; [reflexivity | exact (H2 Ht e He)].
    + exact (IH _ _ _ _ _ E).
    + split; [|discriminate]. intros _.
      destruct (visitFile_threw _ _ _ _ _ Ev) as [H1 _]. exact (H1 eq_refl).
    + destruct (IH _ _ _ _ _ E) as [H1 H2].
      destruct (visitFile_threw _ _ _ _ _ Ev) as [_ H3]. split.
      * intros Ht. destruct (H1 Ht) as [call Hc]. exists call.
        apply in_or_app. right. exact Hc.
      * intros Ht e He. apply in_app_or in He as [He | He];
          [exact (H3 eq_refl e He) | exact (H2 Ht e He)].
Qed.

(** A [forEach] that no exception cuts short visits every accepted file of
    the directory and leaves a suspended call for every directory entry;
    the paths it reads and leaves to those calls are those of the
    directory. *)
Lemma replaceAliases_covers (aliases : @jsobj str) (dir : str) entries :
  forall calls evs tasks calls',
    replaceAliases w knownDirectories aliases dir entries calls
    = (evs, tasks, calls', false) ->
    (forall name content,
       In (name, File content) entries ->
       acceptedExtension (Path.join [dir; name]) = true ->
       exists evs0,
         visitFile w knownDirectories aliases (Path.join [dir; name]) content
         = (evs0, false)
         /\ incl evs0 evs)
    /\ (forall name sub,
          In (name, Dir sub) entries ->
          exists t, In t tasks /\ t_dir t = Path.join [dir; name] /\ t_entries t = sub)
    /\ Permutation
         (readsOf evs
          ++ flat_map (fun t => acceptedPaths (t_dir t) (t_entries t)) tasks)
         (acceptedPaths dir entries).
Proof.
  induction entries as [|[file n] rest IH]; intros calls evs tasks calls' H.
  - inversion H; subst. split; [intros ? ? [] | split; [intros ? ? [] |]].
    apply Permutation_refl.
  - destruct (replaceAliases_cons _ _ _ _ _ _ _ _ _ _ H)
      as [(_ & _ & _ & _ & Ht)
         | (_ & [(sub & evs0 & tasks0 & -> & E & -> & ->)
               | [(content & -> & Ha & E)
                 | [(content & -> & _ & Ev & _ & _ & Ht)
                   | (content & evs0 & evs1 & -> & Ha & Ev & E & ->)]]])];
      try discriminate.
    + destruct (IH _ _ _ _ E) as (Hf & Hd & Hp). split; [|split].
      * intros name c [Heq | Hin] Hacc; [discriminate|].
        destruct (Hf name c Hin Hacc) as (evs1 & Hv & Hi).
        exists evs1. split; [exact Hv|]. intros e He. right. exact (Hi e He).
      * intros name s [Heq | Hin].
        -- inversion Heq; subst. eexists. split; [left; reflexivity|]. auto.
        -- destruct (Hd name s Hin) as (t & Ht & H1 & H2).
           exists t. split; [right; exact Ht | auto].
      * rewrite acceptedPaths_dir.
        change (readsOf (LoadNuxtConfig calls :: evs0)) with (readsOf evs0).
        change (flat_map ?f ({| t_dir := Path.join [dir; file]; t_entries := sub;
                                t_load := calls |} :: tasks0))
          with (acceptedPaths (Path.join [dir; file]) sub ++ flat_map f tasks0).
        eapply Permutation_trans; [apply Permutation_app_swap_app|].
        apply Permutation_app_head. exact Hp.
    + destruct (IH _ _ _ _ E) as (Hf & Hd & Hp). split; [|split].
      * intros name c [Heq | Hin] Hacc; [inversion Heq; subst; congruence|].
        exact (Hf name c Hin Hacc).
      * intros name s [Heq | Hin]; [discriminate | exact (Hd name s Hin)].
      * rewrite acceptedPaths_file, Ha. exact Hp.
    + destruct (IH _ _ _ _ E) as (Hf & Hd & Hp).
      destruct (visitFile_done _ _ _ _ Ev) as (Hr & _). split; [|split].
      * intros name c [Heq | Hin] Hacc.
        -- inversion Heq; subst. exists evs0. split; [exact Ev|].
           intros e He. apply in_or_app. left. exact He.
        -- destruct (Hf name c Hin Hacc) as (evs2 & Hv & Hi).
           exists evs2. split; [exact Hv|].
           intros e He. apply in_or_app. right. exact (Hi e He).
      * intros name s [Heq | Hin]; [discriminate | exact (Hd name s Hin)].
      * rewrite acceptedPaths_file, Ha, readsOf_app, Hr, <- app_assoc.
        apply Permutation_app_head. exact Hp.
Qed.

(** The two ways a suspended call resumes. *)
Lemma resume_cases (aliases : @jsobj str) (task : Task) (calls : nat)
    (evs : list event) (tasks : list Task) (calls' : nat) (threw : bool) :
  resume w knownDirectories aliases task calls = (evs, tasks, calls', threw) ->
  (throws w (readdirSync (t_dir task)) = true
   /\ evs = [Throws (readdirSync (t_dir task))]
   /\ tasks = [] /\ calls' = calls /\ threw = true)
  \/ (throws w (readdirSync (t_dir task)) = false
      /\ exists evs0,
           replaceAliases w knownDirectories aliases (t_dir task) (t_entries task) calls
           = (evs0, tasks, calls', threw)
           /\ evs = ReadDir (t_dir task) :: evs0).
Proof.
  unfold resume. intros H. destruct (throws w (readdirSync (t_dir task))).
  - inversion H; subst. left. auto 6.
  - right. split; [reflexivity|].
    destruct (replaceAliases w knownDirectories aliases (t_dir task) (t_entries task) calls)
      as [[[evs0 tasks0] calls0] threw0].
    inversion H; subst. eauto.
Qed.

Lemma resume_counts (aliases : @jsobj str) (task : Task) (calls : nat)
    (evs : list event) (tasks : list Task) (calls' : nat) (threw : bool) :
  resume w knownDirectories aliases task calls = (evs, tasks, calls', threw) ->
  calls' = (calls + length tasks)%nat
  /\ loadCount evs = length tasks
  /\ weight tasks <= dirsBelow (t_entries task)
  /\ (threw = false -> weight tasks = dirsBelow (t_entries task)).
Proof.
  intros H. destruct (resume_cases _ _ _ _ _ _ _ H)
    as [(_ & -> & -> & -> & ->) | (_ & evs0 & E & ->)].
  - unfold weight. simpl. repeat split; try lia; discriminate.
  - destruct (replaceAliases_counts _ _ _ _ _ _ _ _ E) as (H1 & H2 & H3 & H4).
    split; [exact H1|]. split; [exact H2|]. split; [exact H3 | exact H4].
Qed.

Lemma resume_tasks (aliases : @jsobj str) (task : Task) (calls : nat)
    (evs : list event) (tasks : list Task) (calls' : nat) (threw : bool) :
  resume w knownDirectories aliases task calls = (evs, tasks, calls', threw) ->
  Forall (fun t => exists name,
              In (name, Dir (t_entries t)) (t_entries task)
              /\ t_dir t = Path.join [t_dir task; name]) tasks.
Proof.
  intros H. destruct (resume_cases _ _ _ _ _ _ _ H)
    as [(_ & -> & -> & -> & ->) | (_ & evs0 & E & ->)].
  - constructor.
  - exact (replaceAliases_tasks _ _ _ _ _ _ _ _ E).
Qed.

Lemma resume_events (aliases : @jsobj str) (task : Task) (calls : nat)
    (evs : list event) (tasks : list Task) (calls' : nat) (threw : bool) :
  resume w knownDirectories aliases task calls = (evs, tasks, calls', threw) ->
  Forall (fun e => e = ReadDir (t_dir task)
                   \/ isLoad e = true
                   \/ isThrow e = true
                   \/ exists name content,
                        In (name, File content) (t_entries task)
                        /\ acceptedExtension (Path.join [t_dir task; name]) = true
                        /\ In e (fst (visitFile w knownDirectories aliases
                                        (Path.join [t_dir task; name]) content))) evs.
Proof.
  intros H. destruct (resume_cases _ _ _ _ _ _ _ H)
    as [(_ & -> & -> & -> & ->) | (_ & evs0 & E & ->)].
  - constructor; [right; right; left; reflexivity | constructor].
  - constructor; [left; reflexivity|].
    eapply Forall_impl; [|exact (replaceAliases_events _ _ _ _ _ _ _ _ E)].
    intros e He. right. exact He.
Qed.

Lemma resume_quiet (aliases : @jsobj str) (task : Task) (calls : nat)
    (evs : list event) (tasks : list Task) (calls' : nat) (threw : bool) :
  (forall call, throws w call = false) ->
  resume w knownDirectories aliases task calls = (evs, tasks, calls', threw) ->
  threw = false.
Proof.
  intros Hq H. destruct (resume_cases _ _ _ _ _ _ _ H)
    as [(Hr & _) | (_ & evs0 & E & ->)].
  - rewrite Hq in Hr. discriminate.
  - exact (replaceAliases_quiet _ _ _ Hq _ _ _ _ _ E).
Qed.

Lemma resume_loads (aliases : @jsobj str) (task : Task) (calls : nat)
    (evs : list event) (tasks : list Task) (calls' : nat) (threw : bool) (k : nat) :
  resume w knownDirectories aliases task calls = (evs, tasks, calls', threw) ->
  In (LoadNuxtConfig k) evs -> exists t, In t tasks /\ t_load t = k.
Proof.
  intros H Hin. destruct (resume_cases _ _ _ _ _ _ _ H)
    as [(_ & -> & -> & -> & ->) | (_ & evs0 & E & ->)].
  - destruct Hin as [Hin | []]. discriminate.
  - destruct Hin as [Hin | Hin]; [discriminate|].
    exact (replaceAliases_loads _ _ _ _ _ _ _ _ _ E Hin).
Qed.

Lemma resume_threw (aliases : @jsobj str) (task : Task) (calls : nat)
    (evs : list event) (tasks : list Task) (calls' : nat) (threw : bool) :
  resume w knownDirectories aliases task calls = (evs, tasks, calls', threw) ->
  (threw = true -> exists call, In (Throws call) evs)
  /\ (threw = false -> forall e, In e evs -> isThrow e = false).
Proof.
  intros H. destruct (resume_cases _ _ _ _ _ _ _ H)
    as [(_ & -> & -> & -> & ->) | (_ & evs0 & E & ->)].
  - split; [|discriminate]. intros _. eexists. left. reflexivity.
  - destruct (replaceAliases_threw _ _ _ _ _ _ _ _ E) as [H1 H2]. split.
    + intros Ht. destruct (H1 Ht) as [call Hc]. exists call. right. exact Hc.
    + intros Ht e [<- | He]; [reflexivity | exact (H2 Ht e He)].
Qed.

Lemma resume_no_error (aliases : @jsobj str) (task : Task) (calls : nat)
    (evs : list event) (tasks : list Task) (calls' : nat) (threw : bool) (e : event) :
  resume w knownDirectories aliases task calls = (evs, tasks, calls', threw) ->
  In e evs -> isError e = false.
Proof.
  intros H Hin. pose proof (resume_events _ _ _ _ _ _ _ H) as Hall.
  rewrite Forall_forall in Hall.
  destruct (Hall e Hin) as [-> | [Hl | [Ht | (name & c & _ & _ & He)]]].
  - reflexivity.
  - destruct e; try discriminate; reflexivity.
  - destruct e; try discriminate; reflexivity.
  - apply (visitFile_events _ _ _ _ He).
Qed.

(** A call that resumes and that no exception ends. *)
Lemma resume_covers (aliases : @jsobj str) (task : Task) (calls : nat)
    (evs : list event) (tasks : list Task) (calls' : nat) :
  resume w knownDirectories aliases task calls = (evs, tasks, calls', false) ->
  (forall name content,
     In (name, File content) (t_entries task) ->
     acceptedExtension (Path.join [t_dir task; name]) = true ->
     exists evs0,
       visitFile w knownDirectories aliases (Path.join [t_dir task; name]) content
       = (evs0, false)
       /\ incl evs0 evs)
  /\ (forall name sub,
        In (name, Dir sub) (t_entries task) ->
        exists t, In t tasks /\ t_dir t = Path.join [t_dir task; name]
                  /\ t_entries t = sub)
  /\ Permutation
       (readsOf evs
        ++ flat_map (fun t => acceptedPaths (t_dir t) (t_entries t)) tasks)
       (acceptedPaths (t_dir task) (t_entries task)).
Proof.
  intros H. destruct (resume_cases _ _ _ _ _ _ _ H)
    as [(_ & _ & _ & _ & Ht) | (_ & evs0 & E & ->)]; [discriminate|].
  destruct (replaceAliases_covers _ _ _ _ _ _ _ E) as (Hf & Hd & Hp).
  split; [|split; [exact Hd | exact Hp]].
  intros name c Hin Hacc. destruct (Hf name c Hin Hacc) as (evs1 & Hv & Hi).
  exists evs1. split; [exact Hv|]. intros e He. right. exact (Hi e He).
Qed.

(** The step of the event loop, told by an invariant [I] of the suspended
    calls, the number of loads, what is left to the process and the trace. *)
Section Invariant.

Variable I : list Task -> nat -> option nat -> list event -> Prop.

Hypothesis I_step : preserved w knownDirectories I.

Lemma run_invariant : forall fuel pending calls doomed trace out tr,
  I pending calls doomed trace ->
  run w knownDirectories fuel pending calls doomed trace = Some (out, tr) ->
  exists pending0 calls0 doomed0 trace0,
    I pending0 calls0 doomed0 trace0
    /\ ((out = Exit 0 /\ pending0 = [] /\ doomed0 = None /\ tr = trace0)
        \/ (out = Uncaught /\ doomed0 <> None /\ tr = trace0)
        \/ (out = Exit 1 /\ tr = trace0 ++ [ErrorLoadingConfig]
            /\ exists task, In task pending0
                 /\ getAliasesWithPaths (cwd w) (loadNuxtConfig w (t_load task))
                    = None)).
Proof.
  assert (forall pending calls doomed trace out tr,
            I pending calls doomed trace ->
            (doomed = Some 0 \/ pending = []) ->
            (match doomed, pending with
             | Some O, _ => Some (Uncaught, trace)
             | Some _, [] => Some (Uncaught, trace)
             | None, [] => Some (Exit 0, trace)
             | _, _ :: _ => None
             end) = Some (out, tr) ->
            exists pending0 calls0 doomed0 trace0,
              I pending0 calls0 doomed0 trace0
              /\ ((out = Exit 0 /\ pending0 = [] /\ doomed0 = None /\ tr = trace0)
                  \/ (out = Uncaught /\ doomed0 <> None /\ tr = trace0)
                  \/ (out = Exit 1 /\ tr = trace0 ++ [ErrorLoadingConfig]
                      /\ exists task, In task pending0
                           /\ getAliasesWithPaths (cwd w)
                                (loadNuxtConfig w (t_load task)) = None))) as Hend.
  { intros pending calls doomed trace out tr HI _ H.
    exists pending, calls, doomed, trace. split; [exact HI|].
    destruct doomed as [[|k]|]; destruct pending as [|first others];
      inversion H; subst; auto 6; right; left; repeat split; discriminate. }
  induction fuel as [|fuel IH]; intros pending calls doomed trace out tr HI Hrun.
  - apply (Hend pending calls doomed trace out tr HI).
    + destruct doomed as [[|k]|]; destruct pending; simpl in Hrun;
        auto; discriminate.
    + destruct doomed as [[|k]|]; destruct pending; simpl in Hrun;
        auto; discriminate.
  - destruct pending as [|first others].
    + apply (Hend [] calls doomed trace out tr HI); [auto|].
      destruct doomed as [[|k]|]; exact Hrun.
    + destruct doomed as [[|k]|].
      * apply (Hend (first :: others) calls (Some 0) trace out tr HI); [auto|].
        exact Hrun.
      * simpl in Hrun.
        destruct (extract (schedule w (t_dir first :: map t_dir others)) first others)
          as [task pending'] eqn:Ex.
        destruct (getAliasesWithPaths (cwd w) (loadNuxtConfig w (t_load task)))
          as [aliases|] eqn:Ea.
        -- destruct (resume w knownDirectories aliases task calls)
             as [[[evs tasks] calls'] threw] eqn:Ev.
           apply (IH _ _ _ _ _ _ (I_step _ _ _ _ _ _ _ _ _ _ _ _ HI Ex Ea Ev) Hrun).
        -- inversion Hrun; subst. exists (first :: others), calls, (Some (S k)), trace.
           split; [assumption|]. right. right. repeat split; auto.
           exists task. split; [|assumption].
           apply (Permutation_in _ (Permutation_sym (extract_perm _ _ _ _ _ Ex))).
           left; reflexivity.
      * simpl in Hrun.
        destruct (extract (schedule w (t_dir first :: map t_dir others)) first others)
          as [task pending'] eqn:Ex.
        destruct (getAliasesWithPaths (cwd w) (loadNuxtConfig w (t_load task)))
          as [aliases|] eqn:Ea.
        -- destruct (resume w knownDirectories aliases task calls)
             as [[[evs tasks] calls'] threw] eqn:Ev.
           apply (IH _ _ _ _ _ _ (I_step _ _ _ _ _ _ _ _ _ _ _ _ HI Ex Ea Ev) Hrun).
        -- inversion Hrun; subst. exists (first :: others), calls, None, trace.
           split; [assumption|]. right. right. repeat split; auto.
           exists task. split; [|assumption].
           apply (Permutation_in _ (Permutation_sym (extract_perm _ _ _ _ _ Ex))).
           left; reflexivity.
Qed.

End Invariant.

(** The walk comes to an end: every step takes a directory off the tree. *)
Lemma run_total : forall fuel pending calls doomed trace,
  (weight pending <= fuel)%nat ->
  exists r, run w knownDirectories fuel pending calls doomed trace = Some r.
Proof.
  induction fuel as [|fuel IH]; intros pending calls doomed trace Hw.
  - destruct pending as [|t pending].
    + destruct doomed as [[|k]|]; simpl; eauto.
    + unfold weight in Hw. simpl in Hw. lia.
  - destruct pending as [|first others].
    + destruct doomed as [[|k]|]; simpl; eauto.
    + destruct doomed as [[|k]|]; [simpl; eauto | |].
      all: simpl;
        destruct (extract (schedule w (t_dir first :: map t_dir others)) first others)
          as [task pending'] eqn:Ex;
        destruct (getAliasesWithPaths (cwd w) (loadNuxtConfig w (t_load task)))
          as [aliases|]; [|eauto];
        destruct (resume w knownDirectories aliases task calls)
          as [[[evs tasks] calls'] threw] eqn:Ev;
        apply IH;
        apply extract_weight in Ex;
        apply resume_counts in Ev as (_ & _ & Hd & _);
        rewrite weight_app; unfold weight in *; simpl in *; lia.
Qed.

(** When no load fails and the file system refuses nothing, the walk runs to
    its end. *)
Lemma run_succeeds :
  (forall k, getAliasesWithPaths (cwd w) (loadNuxtConfig w k) <> None) ->
  (forall call, throws w call = false) ->
  forall fuel pending calls trace,
    (weight pending <= fuel)%nat ->
    exists tr, run w knownDirectories fuel pending calls None trace = Some (Exit 0, tr).
Proof.
  intros Hok Hq. induction fuel as [|fuel IH]; intros pending calls trace Hw.
  - destruct pending as [|t pending]; [simpl; eauto|].
    unfold weight in Hw. simpl in Hw. lia.
  - destruct pending as [|first others]; simpl; [eauto|].
    destruct (extract (schedule w (t_dir first :: map t_dir others)) first others)
      as [task pending'] eqn:Ex.
    destruct (getAliasesWithPaths (cwd w) (loadNuxtConfig w (t_load task)))
      as [aliases|] eqn:Ea; [|exfalso; exact (Hok _ Ea)].
    destruct (resume w knownDirectories aliases task calls)
      as [[[evs tasks] calls'] threw] eqn:Ev.
    rewrite (resume_quiet _ _ _ _ _ _ _ Hq Ev). simpl afterCall.
    apply IH.
    apply extract_weight in Ex.
    apply resume_counts in Ev as (_ & _ & Hd & _).
    rewrite weight_app. unfold weight in *. simpl in *. lia.
Qed.

(** The trace only grows. *)
Lemma run_extends : forall fuel pending calls doomed trace out tr,
  run w knownDirectories fuel pending calls doomed trace = Some (out, tr) ->
  exists suffix, tr = trace ++ suffix.
Proof.
  pose (I := fun (pending : list Task) (calls : nat) (doomed : option nat)
                 (tr : list event) => True).
  induction fuel as [|fuel IH]; intros pending calls doomed trace out tr H.
  - destruct doomed as [[|k]|]; destruct pending; simpl in H;
      try discriminate; inversion H; subst; exists []; rewrite app_nil_r; reflexivity.
  - destruct pending as [|first others].
    + destruct doomed as [[|k]|]; simpl in H; inversion H; subst;
        exists []; rewrite app_nil_r; reflexivity.
    + destruct doomed as [[|k]|];
        [simpl in H; inversion H; subst; exists []; rewrite app_nil_r; reflexivity
        | |].
      all: simpl in H;
        destruct (extract (schedule w (t_dir first :: map t_dir others)) first others)
          as [task pending'];
        destruct (getAliasesWithPaths (cwd w) (loadNuxtConfig w (t_load task)))
          as [aliases|];
        [ destruct (resume w knownDirectories aliases task calls)
            as [[[evs tasks] calls'] threw];
          apply IH in H as [suffix ->]; rewrite <- app_assoc; eauto
        | inversion H; subst; eauto ].
Qed.

Lemma sound_preserved : preserved w knownDirectories (sound w).
Proof.
  intros first others calls doomed trace task pending' aliases evs tasks calls' threw
    (He & Hq & Ht & Hl) Ex Ea Ev.
  destruct (resume_threw _ _ _ _ _ _ _ Ev) as [Hthrew Hquiet].
  split; [|split; [|split]].
  - intros e Hin. apply in_app_or in Hin as [Hin | Hin];
      [exact (He e Hin) | exact (resume_no_error _ _ _ _ _ _ _ e Ev Hin)].
  - intros Hd. destruct doomed as [k|]; [discriminate|].
    destruct threw; [discriminate|].
    intros e Hin. apply in_app_or in Hin as [Hin | Hin];
      [exact (Hq eq_refl e Hin) | exact (Hquiet eq_refl e Hin)].
  - intros Hd. destruct doomed as [k|].
    + destruct Ht as [call Hc]; [discriminate|].
      exists call. apply in_or_app. left. exact Hc.
    + destruct threw; [|contradiction].
      destruct (Hthrew eq_refl) as [call Hc]. exists call.
      apply in_or_app. right. exact Hc.
  - intros k Hin. apply in_app_or in Hin as [Hin | Hin].
    + destruct (Hl k Hin) as [Hok | (t & Hin' & Hk)]; [left; exact Hok|].
      apply (Permutation_in _ (extract_perm _ _ _ _ _ Ex)) in Hin'.
      destruct Hin' as [<- | Hin'].
      * left. rewrite <- Hk, Ea. discriminate.
      * right. exists t. split; [apply in_or_app; left; exact Hin' | exact Hk].
    + destruct (resume_loads _ _ _ _ _ _ _ k Ev Hin) as (t & Hin' & Hk).
      right. exists t. split; [apply in_or_app; right; exact Hin' | exact Hk].
Qed.

End WalkFacts.

(** ** The whole script *)

Lemma firstEvents_no_file (w : World) (known : list str) (e : event) :
  In e (firstEvents w known) -> touchesFile e = false.
Proof.
  unfold firstEvents, knownDirectoriesEvents. intros H.
  apply in_app_or in H as [H | [<- | []]]; [|reflexivity].
  destruct (shouldReplaceAbsolutePaths w); [|destruct H].
  destruct (existsInRoot w (lit "src")); simpl in H;
    intuition (subst; reflexivity).
Qed.

Lemma firstEvents_quiet (w : World) (known : list str) (e : event) :
  In e (firstEvents w known) ->
  fileEvent e = false /\ isError e = false /\ isThrow e = false.
Proof.
  unfold firstEvents, knownDirectoriesEvents. intros H.
  apply in_app_or in H as [H | [<- | []]]; [|repeat split; reflexivity].
  destruct (shouldReplaceAbsolutePaths w); [|destruct H].
  destruct (existsInRoot w (lit "src")); simpl in H;
    intuition (subst; reflexivity).
Qed.

Lemma firstEvents_loads (w : World) (known : list str) :
  loadCount (firstEvents w known) = 1.
Proof.
  unfold firstEvents, knownDirectoriesEvents. rewrite loadCount_app.
  destruct (shouldReplaceAbsolutePaths w); [|reflexivity].
  destruct (existsInRoot w (lit "src")); reflexivity.
Qed.

Lemma getKnownDirectories_src (w : World) (srcEntries : list (str * node)) :
  lookupEntry (lit "src") (rootEntries w) = Some (Dir srcEntries) ->
  exists known,
    (if shouldReplaceAbsolutePaths w then getKnownDirectories w else Some [])
    = Some known.
Proof.
  intros H. unfold getKnownDirectories. rewrite H.
  destruct (shouldReplaceAbsolutePaths w); eauto.
Qed.

(** A listing that throws: directories read, then the call that throws. *)
Lemma getVisibleDirectoriesThrows_trace (w : World) (dir : str)
    (entries : list (str * node)) (trace : list event) :
  getVisibleDirectoriesThrows w dir entries = Some trace ->
  exists call,
    trace = [Throws call] \/ trace = [ReadDir dir; Throws call].
Proof.
  unfold getVisibleDirectoriesThrows. intros H.
  destruct (throws w (readdirSync dir)); [inversion H; eauto|].
  destruct (find _ _) as [call|]; inversion H; eauto.
Qed.

Lemma getKnownDirectoriesThrows_trace (w : World) (trace : list event) :
  getKnownDirectoriesThrows w = Some trace ->
  exists before call,
    trace = before ++ [Throws call]
    /\ forall e, In e before -> exists path, e = ReadDir path.
Proof.
  unfold getKnownDirectoriesThrows. intros H.
  destruct (getVisibleDirectoriesThrows w (cwd w) (rootEntries w)) as [t0|] eqn:E0.
  - inversion H; subst.
    destruct (getVisibleDirectoriesThrows_trace _ _ _ _ E0) as [call [-> | ->]].
    + exists [], call. split; [reflexivity | intros e []].
    + exists [ReadDir (cwd w)], call. split; [reflexivity|].
      intros e [<- | []]. eauto.
  - destruct (lookupEntry (lit "src") (rootEntries w)) as [[content|srcEntries]|];
      try discriminate.
    destruct (getVisibleDirectoriesThrows w (startDir w) srcEntries) as [t1|] eqn:E1;
      [|discriminate].
    inversion H; subst.
    destruct (getVisibleDirectoriesThrows_trace _ _ _ _ E1) as [call [-> | ->]].
    + exists [ReadDir (cwd w)], call. split; [reflexivity|].
      intros e [<- | []]. eauto.
    + exists [ReadDir (cwd w); ReadDir (startDir w)], call. split; [reflexivity|].
      intros e [<- | [<- | []]]; eauto.
Qed.

Lemma getKnownDirectoriesThrows_quiet (w : World) :
  (forall call, throws w call = false) -> getKnownDirectoriesThrows w = None.
Proof.
  intros Hq.
  assert (forall dir entries, getVisibleDirectoriesThrows w dir entries = None) as Hv.
  { intros dir entries. unfold getVisibleDirectoriesThrows. rewrite Hq.
    destruct (find _ _) as [call|] eqn:E; [|reflexivity].
    apply find_some in E as [_ E]. rewrite Hq in E. discriminate. }
  unfold getKnownDirectoriesThrows. rewrite Hv.
  destruct (lookupEntry (lit "src") (rootEntries w)) as [[content|srcEntries]|];
    try reflexivity.
  rewrite Hv. reflexivity.
Qed.

(** The ways through the script. *)
Lemma main_cases (w : World) (out : outcome) (trace : list event) :
  main w = Some (out, trace) ->
  ((existsInRoot w (lit "nuxt.config.ts") || existsInRoot w (lit "nuxt.config.js"))
   = false
   /\ out = Exit 1 /\ trace = [ErrorConfigNotFound])
  \/ ((existsInRoot w (lit "nuxt.config.ts") || existsInRoot w (lit "nuxt.config.js"))
      = true
      /\ ((out = Uncaught
           /\ exists before call,
                trace = before ++ [Throws call]
                /\ forall e, In e before -> exists path, e = ReadDir path)
          \/ exists known,
               (if shouldReplaceAbsolutePaths w then getKnownDirectories w else Some [])
               = Some known
               /\ ((exists srcEntries,
                      lookupEntry (lit "src") (rootEntries w) = Some (Dir srcEntries)
                      /\ run w known (countDirs (Dir srcEntries))
                           [firstTask w srcEntries] 1 None (firstEvents w known)
                         = Some (out, trace))
                   \/ ((forall srcEntries,
                          lookupEntry (lit "src") (rootEntries w)
                          <> Some (Dir srcEntries))
                       /\ ((out = Exit 1
                            /\ getAliasesWithPaths (cwd w) (loadNuxtConfig w 0) = None
                            /\ trace = firstEvents w known ++ [ErrorLoadingConfig])
                           \/ (out = Uncaught
                               /\ getAliasesWithPaths (cwd w) (loadNuxtConfig w 0)
                                  <> None
                               /\ trace = firstEvents w known
                                          ++ [Throws (readdirSync (startDir w))])))))).
Proof.
  intros Hmain. unfold main in Hmain.
  destruct (existsInRoot w (lit "nuxt.config.ts") || existsInRoot w (lit "nuxt.config.js"))
    eqn:Hc.
  2:{ apply orb_false_iff in Hc as [H1 H2]. rewrite H1, H2 in Hmain.
      inversion Hmain; subst. left. auto. }
  right. split; [reflexivity|].
  assert (negb (existsInRoot w (lit "nuxt.config.ts"))
          && negb (existsInRoot w (lit "nuxt.config.js")) = false) as Hn.
  { destruct (existsInRoot w (lit "nuxt.config.ts"));
      destruct (existsInRoot w (lit "nuxt.config.js")); try discriminate; reflexivity. }
  rewrite Hn in Hmain.
  destruct (if shouldReplaceAbsolutePaths w then getKnownDirectoriesThrows w else None)
    as [t0|] eqn:Et.
  { inversion Hmain; subst. left. split; [reflexivity|].
    destruct (shouldReplaceAbsolutePaths w); [|discriminate].
    exact (getKnownDirectoriesThrows_trace w _ Et). }
  destruct (if shouldReplaceAbsolutePaths w then getKnownDirectories w else Some [])
    as [known|].
  2:{ inversion Hmain; subst. left. split; [reflexivity|].
      exists [ReadDir (cwd w)], (readdirSync (startDir w)).
      split; [reflexivity|]. intros e [<- | []]. eauto. }
  right. exists known. split; [reflexivity|].
  fold (firstEvents w known) in Hmain.
  destruct (lookupEntry (lit "src") (rootEntries w)) as [[content|srcEntries]|].
  - right. split; [intros srcEntries; discriminate|].
    destruct (getAliasesWithPaths (cwd w) (loadNuxtConfig w 0)) eqn:E0;
      inversion Hmain; subst; [right | left]; repeat split; auto; discriminate.
  - left. exists srcEntries. split; [reflexivity | exact Hmain].
  - right. split; [intros srcEntries; discriminate|].
    destruct (getAliasesWithPaths (cwd w) (loadNuxtConfig w 0)) eqn:E0;
      inversion Hmain; subst; [right | left]; repeat split; auto; discriminate.
Qed.

(** Either [main] ends before it touches a file, or it walks the source
    directory. *)
Lemma main_walk (w : World) (out : outcome) (trace : list event) :
  main w = Some (out, trace) ->
  (forall e, In e trace -> fileEvent e = false)
  \/ exists known srcEntries,
       (if shouldReplaceAbsolutePaths w then getKnownDirectories w else Some [])
       = Some known
       /\ lookupEntry (lit "src") (rootEntries w) = Some (Dir srcEntries)
       /\ run w known (countDirs (Dir srcEntries)) [firstTask w srcEntries] 1 None
            (firstEvents w known) = Some (out, trace).
Proof.
  intros Hmain.
  destruct (main_cases w out trace Hmain)
    as [(_ & _ & ->)
       | (_ & [(_ & before & call & -> & Hb)
              | (known & Hk & [(srcEntries & Hs & Hrun)
                              | (_ & [(_ & _ & ->) | (_ & _ & ->)])])])].
  - left. intros e [<- | []]. reflexivity.
  - left. intros e He. apply in_app_or in He as [He | [<- | []]]; [|reflexivity].
    destruct (Hb e He) as [path ->]. reflexivity.
  - right. exists known, srcEntries. auto.
  - left. intros e He. apply in_app_or in He as [He | [<- | []]]; [|reflexivity].
    apply (firstEvents_quiet w known e He).
  - left. intros e He. apply in_app_or in He as [He | [<- | []]]; [|reflexivity].
    apply (firstEvents_quiet w known e He).
Qed.

(** [main] always comes to an end. *)
Lemma main_total (w : World) : exists r, main w = Some r.
Proof.
  unfold main.
  destruct (negb (existsInRoot w (lit "nuxt.config.ts"))
            && negb (existsInRoot w (lit "nuxt.config.js"))); [eauto|].
  destruct (if shouldReplaceAbsolutePaths w then getKnownDirectoriesThrows w else None);
    [eauto|].
  destruct (if shouldReplaceAbsolutePaths w then getKnownDirectories w else Some [])
    as [known|]; [|eauto].
  destruct (lookupEntry (lit "src") (rootEntries w)) as [[content|srcEntries]|].
  - destruct (getAliasesWithPaths (cwd w) (loadNuxtConfig w 0)); eauto.
  - apply run_total. unfold weight. simpl. unfold dirsBelow. lia.
  - destruct (getAliasesWithPaths (cwd w) (loadNuxtConfig w 0)); eauto.
Qed.

(** With a configuration file, a source directory and a listing of the
    known directories that does not throw, [main] is the walk. *)
Lemma main_src (w : World) (srcEntries : list (str * node)) (known : list str) :
  (existsInRoot w (lit "nuxt.config.ts") || existsInRoot w (lit "nuxt.config.js"))
  = true ->
  lookupEntry (lit "src") (rootEntries w) = Some (Dir srcEntries) ->
  (if shouldReplaceAbsolutePaths w then getKnownDirectoriesThrows w else None) = None ->
  (if shouldReplaceAbsolutePaths w then getKnownDirectories w else Some [])
  = Some known ->
  main w = run w known (countDirs (Dir srcEntries)) [firstTask w srcEntries] 1 None
             (firstEvents w known).
Proof.
  intros Hc Hs Ht Hk. unfold main. rewrite Ht, Hk, Hs.
  destruct (existsInRoot w (lit "nuxt.config.ts"));
    destruct (existsInRoot w (lit "nuxt.config.js")); try discriminate; reflexivity.
Qed.

Lemma main_src_quiet (w : World) (srcEntries : list (str * node)) :
  (existsInRoot w (lit "nuxt.config.ts") || existsInRoot w (lit "nuxt.config.js"))
  = true ->
  lookupEntry (lit "src") (rootEntries w) = Some (Dir srcEntries) ->
  (forall call, throws w call = false) ->
  exists known,
    (if shouldReplaceAbsolutePaths w then getKnownDirectories w else Some [])
    = Some known
    /\ main w = run w known (countDirs (Dir srcEntries)) [firstTask w srcEntries]
                  1 None (firstEvents w known).
Proof.
  intros Hc Hs Hq. destruct (getKnownDirectories_src w srcEntries Hs) as [known Hk].
  exists known. split; [exact Hk|]. apply main_src; auto.
  rewrite (getKnownDirectoriesThrows_quiet w Hq).
  destruct (shouldReplaceAbsolutePaths w); reflexivity.
Qed.

Lemma firstEvents_load (w : World) (known : list str) (k : nat) :
  In (LoadNuxtConfig k) (firstEvents w known) -> k = 0.
Proof.
  unfold firstEvents, knownDirectoriesEvents. intros H.
  apply in_app_or in H as [H | [H | []]]; [|congruence].
  destruct (shouldReplaceAbsolutePaths w); [|destruct H].
  destruct (existsInRoot w (lit "src")); simpl in H;
    intuition discriminate.
Qed.

Lemma firstEvents_not_nil (w : World) (known : list str) : firstEvents w known <> [].
Proof.
  unfold firstEvents. intros H. apply app_eq_nil in H as [_ H]. discriminate.
Qed.

(** How the walk ends, and what its trace holds then. *)
Lemma walk_outcome (w : World) (known : list str) (srcEntries : list (str * node))
    (fuel : nat) (out : outcome) (trace : list event) :
  run w known fuel [firstTask w srcEntries] 1 None (firstEvents w known)
  = Some (out, trace) ->
  trace <> []
  /\ ((out = Exit 0
       /\ (forall e, In e trace -> isError e = false /\ isThrow e = false)
       /\ (forall k, In (LoadNuxtConfig k) trace ->
             getAliasesWithPaths (cwd w) (loadNuxtConfig w k) <> None))
      \/ (out = Uncaught
          /\ (forall e, In e trace -> isError e = false)
          /\ exists call, In (Throws call) trace)
      \/ (out = Exit 1
          /\ exists before,
               trace = before ++ [ErrorLoadingConfig]
               /\ forall e, In e before -> isError e = false)).
Proof.
  intros Hrun. split.
  { destruct (run_extends _ _ _ _ _ _ _ _ _ Hrun) as [suffix ->].
    intros H. apply app_eq_nil in H as [H _].
    exact (firstEvents_not_nil w known H). }
  assert (sound w [firstTask w srcEntries] 1 None (firstEvents w known)) as HI.
  { split; [|split; [|split]].
    - intros e He. apply (firstEvents_quiet w known e He).
    - intros _ e He. apply (firstEvents_quiet w known e He).
    - intros H. contradiction.
    - intros k Hk. apply firstEvents_load in Hk. subst k.
      right. exists (firstTask w srcEntries). split; [left|]; reflexivity. }
  destruct (run_invariant w known (sound w) (sound_preserved w known)
              _ _ _ _ _ _ _ HI Hrun)
    as (pending0 & calls0 & doomed0 & trace0 & (He & Hq & Ht & Hl) & Hend).
  destruct Hend as [(-> & -> & -> & ->) | [(-> & Hd & ->) | (-> & -> & _)]].
  - left. split; [reflexivity|]. split.
    + intros e Hin. split; [exact (He e Hin) | exact (Hq eq_refl e Hin)].
    + intros k Hk. destruct (Hl k Hk) as [Hok | (t & [] & _)]. exact Hok.
  - right. left. split; [reflexivity|]. split; [exact He | exact (Ht Hd)].
  - right. right. split; [reflexivity|]. exists trace0. split; [reflexivity | exact He].
Qed.


Lemma validEntries_In (entries : list (str * node)) (name : str) (n : node) :
  validEntries entries = true -> In (name, n) entries ->
  validName name = true /\ validNode n = true.
Proof.
  unfold validEntries. rewrite forallb_forall. intros H Hin.
  specialize (H _ Hin). simpl in H. apply andb_true_iff in H. exact H.
Qed.

Lemma filesOf_file (dir : str) (entries : list (str * node)) (name content : str) :
  In (name, File content) entries ->
  In (Path.join [dir; name], content) (filesOf dir entries).
Proof.
  intros H. unfold filesOf. apply in_flat_map.
  exists (name, File content). split; [assumption | left; reflexivity].
Qed.

Lemma filesOf_dir (dir : str) (entries sub : list (str * node)) (name : str) :
  In (name, Dir sub) entries ->
  incl (filesOf (Path.join [dir; name]) sub) (filesOf dir entries).
Proof.
  intros H f Hf. apply in_flat_map.
  exists (name, Dir sub). split; [assumption | exact Hf].
Qed.

Close Scope nat_scope.

(** * The properties of the specification *)

(** ** The Alias Table *)

(** C6: the table the script resolves maps every token to what the user
    declared for it and, for a token the user did not declare, to the
    default: the source directory for [~] and [@], the root directory for
    [~~] and [@@], and the source directory joined with the token for
    [assets] and [public].  A collision is no error; in particular a target
    declared for [@] is the one the table holds. *)
Theorem getAliasesWithPaths_table
    (projectRoot : str) (nuxtConfig : NuxtConfig) (srcDir : str) :
  let rootDir := rootDirOfConfig projectRoot nuxtConfig in
  let userAliases := match nc_alias nuxtConfig with Some a => a | None => [] end in
  srcDirOfConfig projectRoot nuxtConfig = Some srcDir ->
  NoDup (map fst userAliases) ->
  exists aliases,
    getAliasesWithPaths projectRoot (Some nuxtConfig) = Some aliases
    /\ (forall token,
          objGet token aliases
          = match objGet token userAliases with
            | Some target => Some target
            | None =>
                objGet token
                  [ (lit "~", srcDir);
                    (lit "@", srcDir);
                    (lit "~~", rootDir);
                    (lit "@@", rootDir);
                    (lit "assets", Path.join [srcDir; lit "assets"]);
                    (lit "public", Path.join [srcDir; lit "public"]) ]
            end)
    /\ (forall target,
          objGet (lit "@") userAliases = Some target ->
          objGet (lit "@") aliases = Some target).
Proof.
  intros rootDir userAliases Hsrc Hnd.
  unfold getAliasesWithPaths. rewrite Hsrc.
  eexists. split; [reflexivity|].
  assert (forall token,
            objGet token (objSpread (defaultAliases rootDir srcDir) userAliases)
            = match objGet token userAliases with
              | Some target => Some target
              | None => objGet token (defaultAliases rootDir srcDir)
              end) as H.
  { intros token. apply objGet_objSpread; [apply defaultAliases_keys | exact Hnd]. }
  split.
  - exact H.
  - intros target Ht. fold rootDir userAliases. rewrite H, Ht. reflexivity.
Qed.

(** C6 for a user who declares [@] as [/custom/dir]. *)
Lemma getAliasesWithPaths_table_witness :
  exists aliases,
    getAliasesWithPaths (lit "/proj")
      (Some {| nc_rootDir := Some (lit "/proj");
               nc_srcDir := Some (lit "/proj/src");
               nc_alias := Some [(lit "@", lit "/custom/dir")] |})
    = Some aliases
    /\ (forall token,
          objGet token aliases
          = match objGet token [(lit "@", lit "/custom/dir")] with
            | Some target => Some target
            | None =>
                objGet token
                  [ (lit "~", lit "/proj/src");
                    (lit "@", lit "/proj/src");
                    (lit "~~", lit "/proj");
                    (lit "@@", lit "/proj");
                    (lit "assets", Path.join [lit "/proj/src"; lit "assets"]);
                    (lit "public", Path.join [lit "/proj/src"; lit "public"]) ]
            end)
    /\ (forall target,
          objGet (lit "@") [(lit "@", lit "/custom/dir")] = Some target ->
          objGet (lit "@") aliases = Some target).
Proof.
  apply (getAliasesWithPaths_table (lit "/proj")
           {| nc_rootDir := Some (lit "/proj");
              nc_srcDir := Some (lit "/proj/src");
              nc_alias := Some [(lit "@", lit "/custom/dir")] |}
           (lit "/proj/src")).
  - reflexivity.
  - simpl. constructor; [intros [] | constructor].
Defined.

(** The table of that user, entry by entry. *)
Example getAliasesWithPaths_custom :
  getAliasesWithPaths (lit "/proj")
    (Some {| nc_rootDir := Some (lit "/proj");
             nc_srcDir := Some (lit "/proj/src");
             nc_alias := Some [(lit "@", lit "/custom/dir")] |})
  = Some [ (lit "~", lit "/proj/src");
           (lit "@", lit "/custom/dir");
           (lit "~~", lit "/proj");
           (lit "@@", lit "/proj");
           (lit "assets", lit "/proj/src/assets");
           (lit "public", lit "/proj/src/public") ].
Proof. reflexivity. Qed.

(** ** The Specifier Rewriter *)

(** C1, as the code has it: in the substitution pass of an alias, an
    occurrence of the alias followed by a slash and a subpath up to a quote,
    the subpath free of quotes and line terminators, the alias not preceded
    by a slash, and no earlier match of the pass reaching into it, is
    replaced by the path from the file's directory to the alias target joined
    with the subpath, followed by the same quote; the text before and the
    text after are rewritten on their own. *)
Theorem aliasPass_occurrence
    (cwd filePath alias targetPath pre sub post : str) (q : char) :
  let content := pre ++ alias ++ SLASH :: sub ++ q :: post in
  isQuote q = true ->
  Forall plain sub ->
  notAfterSlash (prevChar content (length pre)) = true ->
  (forall i m, (i < length pre)%nat ->
     matchAt (aliasRegExp alias) content i = Some m ->
     (i + m_length m <= length pre)%nat) ->
  aliasPass cwd filePath content (alias, targetPath)
  = aliasPass cwd filePath pre (alias, targetPath)
    ++ Path.relative cwd (Path.dirname filePath) (Path.join [targetPath; sub])
    ++ q :: aliasPass cwd filePath post (alias, targetPath).
Proof.
  intros content Hq Hsub Hprev Hfit. subst content.
  rewrite prevChar_app in Hprev.
  unfold aliasPass, replace.
  rewrite (replaceScan_app _ _ (aliasRegExp_bound alias)
             (aliasRegExp_extend alias) (aliasRegExp_restrict alias));
    [| lia | apply fitsBefore_of_matchAt; exact Hfit].
  f_equal.
  assert (alias ++ SLASH :: sub ++ q :: post
          = (alias ++ SLASH :: sub ++ [q]) ++ post) as E.
  { rewrite <- app_assoc. simpl. rewrite <- app_assoc. reflexivity. }
  rewrite E.
  rewrite (replaceScan_match _ _ (aliasRegExp_bound alias) _ _ _
             (aliasMatch alias sub q)).
  - unfold aliasReplacer at 1. simpl m_capture. simpl m_quote.
    rewrite <- app_assoc. f_equal. simpl. f_equal.
    apply aliasScan_prev.
    replace (alias ++ SLASH :: sub ++ [q]) with ((alias ++ SLASH :: sub) ++ [q])
      by (rewrite <- app_assoc; reflexivity).
    rewrite lastOpt_snoc, quote_not_slash; auto.
  - rewrite <- E. apply aliasRegExp_Some. split; auto.
    exists sub, q, post. auto.
  - simpl. rewrite !length_app. simpl. rewrite !length_app. simpl. lia.
Qed.

(** C1, the scenario of the specification: in [/proj/src/components/A.vue]
    the specifier [~/utils/x] becomes [../utils/x]. *)
Lemma aliasPass_occurrence_witness :
  aliasPass (lit "/proj") (lit "/proj/src/components/A.vue")
    (lit "import X from '" ++ lit "~" ++ SLASH :: lit "utils/x" ++ SQUOTE :: [])
    (lit "~", lit "/proj/src")
  = aliasPass (lit "/proj") (lit "/proj/src/components/A.vue")
      (lit "import X from '") (lit "~", lit "/proj/src")
    ++ Path.relative (lit "/proj") (Path.dirname (lit "/proj/src/components/A.vue"))
         (Path.join [lit "/proj/src"; lit "utils/x"])
    ++ SQUOTE :: aliasPass (lit "/proj") (lit "/proj/src/components/A.vue") []
                   (lit "~", lit "/proj/src").
Proof.
  apply (aliasPass_occurrence (lit "/proj") (lit "/proj/src/components/A.vue")
           (lit "~") (lit "/proj/src") (lit "import X from '") (lit "utils/x") []
           SQUOTE).
  - reflexivity.
  - repeat constructor.
  - reflexivity.
  - intros i m Hi.
    do 15 (destruct i as [|i]; [vm_compute; discriminate|]).
    simpl in Hi. lia.
Defined.

(** C1 fails on the default table: [~~/lib/x] is first met by the pass of
    [~], whose pattern matches from the second tilde on, so the specifier
    never becomes the path to [/proj/lib/x].  It fails within one pass as
    well: in [~/a~/b'] the match of the first occurrence runs to the quote
    and takes the second occurrence, [~/b'], with it. *)
Lemma aliasPass_occurrence_counterexample :
  (exists aliases,
     getAliasesWithPaths (lit "/proj") (Some plainConfig) = Some aliases
     /\ objGet (lit "~~") aliases = Some (lit "/proj")
     /\ Path.relative (lit "/proj") (Path.dirname (lit "/proj/src/components/A.vue"))
          (Path.join [lit "/proj"; lit "lib/x"]) = lit "../../lib/x"
     /\ rewriteAliases (lit "/proj") (lit "/proj/src/components/A.vue") aliases
          (lit "import X from '" ++ lit "~~" ++ SLASH :: lit "lib/x" ++ [SQUOTE])
        = lit "import X from '~../lib/x'"
     /\ lit "import X from '~../lib/x'" <> lit "import X from '../../lib/x'")
  /\ Path.relative (lit "/proj") (Path.dirname (lit "/proj/src/components/A.vue"))
       (Path.join [lit "/proj/src"; lit "b"]) = lit "../b"
  /\ aliasPass (lit "/proj") (lit "/proj/src/components/A.vue")
       (lit "from '~/a" ++ lit "~" ++ SLASH :: lit "b" ++ [SQUOTE])
       (lit "~", lit "/proj/src")
     = lit "from '../a~/b'"
  /\ lit "from '../a~/b'" <> lit "from '~/a" ++ lit "../b" ++ [SQUOTE].
Proof.
  split.
  - eexists. split; [reflexivity|].
    split; [reflexivity|]. split; [reflexivity|]. split; [reflexivity|].
    discriminate.
  - split; [reflexivity|]. split; [reflexivity|]. discriminate.
Qed.

(** C3, as the code has it: whatever the content, the pattern of an alias
    never matches at a position that a slash precedes; the text made of the
    slash, the alias, a slash, a subpath and a quote comes out of the pass of
    that alias unchanged when no match of the pass overlaps it: none that
    begins before it reaches into it, and none begins inside it. *)
Theorem aliasPass_after_slash (cwd filePath alias targetPath : str) :
  (forall content i,
     prevChar content i = Some SLASH ->
     matchAt (aliasRegExp alias) content i = None)
  /\ (forall (pre sub post : str) (q : char),
        let occurrence := SLASH :: alias ++ SLASH :: sub ++ [q] in
        let content := pre ++ occurrence ++ post in
        isQuote q = true ->
        (forall i m, In (i, m) (matchAll (aliasRegExp alias) content) ->
           (i + m_length m <= length pre)%nat
           \/ (length pre + length occurrence <= i)%nat) ->
        aliasPass cwd filePath content (alias, targetPath)
        = aliasPass cwd filePath pre (alias, targetPath)
          ++ occurrence ++ aliasPass cwd filePath post (alias, targetPath)).
Proof.
  split.
  - intros content i Hprev. unfold matchAt. rewrite Hprev.
    apply aliasRegExp_after_slash.
  - intros pre sub post q occurrence content Hq Hfree.
    unfold aliasPass, replace. unfold matchAll in Hfree. subst content.
    destruct (scan_app _ (aliasReplacer cwd filePath targetPath)
                (aliasRegExp_bound alias) (aliasRegExp_extend alias)
                (aliasRegExp_restrict alias) pre (occurrence ++ post)
                None 0%nat 0%nat) as [E1 E2]; [lia | |].
    { intros i m Hin Hi. destruct (Hfree i m Hin) as [H | H]; simpl; lia. }
    rewrite E1. f_equal. rewrite E2 in Hfree.
    change (0 + length pre)%nat with (length pre) in Hfree.
    rewrite (scan_untouched _ _ occurrence post (lastOpt None pre) (length pre)).
    + f_equal. apply aliasScan_prev. subst occurrence.
      replace (SLASH :: alias ++ SLASH :: sub ++ [q])
        with ((SLASH :: alias ++ SLASH :: sub) ++ [q]) by reassoc.
      rewrite lastOpt_snoc, quote_not_slash; auto.
    + intros i m Hin.
      destruct (matchesScan_bounds _ (aliasRegExp_bound alias) _ _ _ _ _ _ Hin)
        as [Hlow Hlen].
      destruct (Hfree i m (in_or_app _ _ _ (or_intror Hin))) as [H | H]; lia.
Qed.

(** C3 at [x/~/bar], after an import the pass rewrites. *)
Lemma aliasPass_after_slash_witness :
  aliasPass (lit "/proj") (lit "/proj/src/components/A.vue")
    (lit "from '~/a' + 'x"
       ++ (SLASH :: lit "~" ++ SLASH :: lit "bar" ++ [SQUOTE]) ++ [])
    (lit "~", lit "/proj/src")
  = aliasPass (lit "/proj") (lit "/proj/src/components/A.vue")
      (lit "from '~/a' + 'x") (lit "~", lit "/proj/src")
    ++ (SLASH :: lit "~" ++ SLASH :: lit "bar" ++ [SQUOTE])
    ++ aliasPass (lit "/proj") (lit "/proj/src/components/A.vue") []
         (lit "~", lit "/proj/src").
Proof.
  apply (proj2 (aliasPass_after_slash (lit "/proj") (lit "/proj/src/components/A.vue")
                  (lit "~") (lit "/proj/src"))
           (lit "from '~/a' + 'x") (lit "bar") [] SQUOTE).
  - reflexivity.
  - intros i m Hin. vm_compute in Hin.
    destruct Hin as [E | []]. inversion E; subst. left. vm_compute. lia.
Defined.

(** The pass of the witness rewrites the import and leaves the guarded
    alias. *)
Example aliasPass_after_slash_result :
  aliasPass (lit "/proj") (lit "/proj/src/components/A.vue")
    (lit "from '~/a' + 'x/~/bar'") (lit "~", lit "/proj/src")
  = lit "from '../a' + 'x/~/bar'".
Proof. reflexivity. Qed.

(** C3 fails where the subpath holds the alias again, this time not after a
    slash: in the pass of [~], the text [/~/a~/x'] becomes [/~/a../x']. *)
Lemma aliasPass_after_slash_counterexample :
  aliasPass (lit "/proj") (lit "/proj/src/components/A.vue")
    (lit "from '" ++ SLASH :: lit "~" ++ SLASH :: lit "a~/x" ++ [SQUOTE])
    (lit "~", lit "/proj/src")
  = lit "from '/~/a../x'"
  /\ lit "from '/~/a../x'"
     <> lit "from '" ++ SLASH :: lit "~" ++ SLASH :: lit "a~/x" ++ [SQUOTE].
Proof. split; [reflexivity | discriminate]. Qed.

(** ** The Absolute-Path Rewriter *)

(** C4, as the code has it: a specifier made of a quote, a slash, a subpath
    free of quotes and line terminators and the same quote, at whose opening
    quote the scan arrives (no match the scan finds before it reaches into
    it), is replaced, when the first segment of the subpath is a known
    directory, by the quoted path from the file's directory to the subpath
    under the effective root (the source directory when the file path
    starts with it, the project root otherwise), and is left as it is when
    the first segment is not known. *)
Theorem rewriteAbsolute_specifier
    (cwd filePath : str) (knownDirectories : list str)
    (pre sub post : str) (q : char) :
  let specifier := q :: SLASH :: sub ++ [q] in
  let content := pre ++ specifier ++ post in
  let effectiveRoot :=
    if startsWith (Path.resolve cwd [lit "src"]) filePath
    then Path.resolve cwd [lit "src"] else cwd in
  isQuote q = true ->
  Forall plain sub ->
  (forall i m, In (i, m) (matchAll absolutePathRegex content) ->
     (i < length pre)%nat -> (i + m_length m <= length pre)%nat) ->
  rewriteAbsolute cwd filePath knownDirectories content
  = rewriteAbsolute cwd filePath knownDirectories pre
    ++ (if includes knownDirectories (firstSegment sub)
        then q :: Path.relative cwd (Path.dirname filePath)
                    (Path.join [effectiveRoot; sub]) ++ [q]
        else specifier)
    ++ rewriteAbsolute cwd filePath knownDirectories post.
Proof.
  intros specifier content effectiveRoot Hq Hsub Hfit.
  unfold rewriteAbsolute, replace. unfold matchAll in Hfit. subst content.
  destruct (scan_app _ (absoluteReplacer cwd filePath knownDirectories)
              absolutePathRegex_bound absolutePathRegex_extend
              absolutePathRegex_restrict pre (specifier ++ post)
              None 0%nat 0%nat) as [E1 _]; [lia | exact Hfit |].
  rewrite E1. f_equal.
  rewrite (replaceScan_match _ _ absolutePathRegex_bound _ _ _
             (absoluteMatch sub q)).
  - f_equal. apply absoluteScan_prev.
  - apply absolutePathRegex_Some. exists q, sub, q, post.
    repeat split; auto.
    subst specifier. simpl. rewrite <- app_assoc. reflexivity.
  - subst specifier. simpl. rewrite !length_app. simpl. lia.
Qed.

(** C4 with the known directory [assets], after a specifier whose closing
    quote a slash follows. *)
Lemma rewriteAbsolute_specifier_witness :
  rewriteAbsolute (lit "/proj") (lit "/proj/src/pages/index.vue") [lit "assets"]
    (lit "<link href='/x.css'/><img src="
       ++ (SQUOTE :: SLASH :: lit "assets/a.png" ++ [SQUOTE]) ++ lit ">")
  = rewriteAbsolute (lit "/proj") (lit "/proj/src/pages/index.vue") [lit "assets"]
      (lit "<link href='/x.css'/><img src=")
    ++ (if includes [lit "assets"] (firstSegment (lit "assets/a.png"))
        then SQUOTE
             :: Path.relative (lit "/proj")
                  (Path.dirname (lit "/proj/src/pages/index.vue"))
                  (Path.join
                     [if startsWith (Path.resolve (lit "/proj") [lit "src"])
                           (lit "/proj/src/pages/index.vue")
                      then Path.resolve (lit "/proj") [lit "src"]
                      else lit "/proj";
                      lit "assets/a.png"])
             ++ [SQUOTE]
        else SQUOTE :: SLASH :: lit "assets/a.png" ++ [SQUOTE])
    ++ rewriteAbsolute (lit "/proj") (lit "/proj/src/pages/index.vue") [lit "assets"]
         (lit ">").
Proof.
  apply (rewriteAbsolute_specifier (lit "/proj") (lit "/proj/src/pages/index.vue")
           [lit "assets"] (lit "<link href='/x.css'/><img src=")
           (lit "assets/a.png") (lit ">") SQUOTE).
  - reflexivity.
  - repeat constructor.
  - intros i m Hin Hi. vm_compute in Hin.
    destruct Hin as [E | [E | []]]; inversion E; subst; vm_compute in Hi |- *; lia.
Defined.

(** The content of the witness and the scenario of the specification. *)
Example rewriteAbsolute_specifier_result :
  rewriteAbsolute (lit "/proj") (lit "/proj/src/pages/index.vue") [lit "assets"]
    (lit "<link href='/x.css'/><img src='/assets/a.png'>")
  = lit "<link href='/x.css'/><img src='../assets/a.png'>"
  /\ rewriteAbsolute (lit "/proj") (lit "/proj/src/pages/index.vue")
       [lit "components"; lit "pages"]
       (lit "import Foo from '/components/Foo.vue'; const u = '/unknown/Foo.vue'")
     = lit "import Foo from '../components/Foo.vue'; const u = '/unknown/Foo.vue'".
Proof. split; reflexivity. Qed.

(** C4 fails where the scan is out of step with the literals: after the
    closing quote of [href='x'] comes a slash, so a match begins there and
    ends at the opening quote of ['/assets/a.png'], which is then passed
    over although [assets] is a known directory. *)
Lemma rewriteAbsolute_specifier_counterexample :
  includes [lit "assets"] (firstSegment (lit "assets/a.png")) = true
  /\ rewriteAbsolute (lit "/proj") (lit "/proj/src/components/A.vue") [lit "assets"]
       (lit "<a href='x'/><img src="
          ++ (SQUOTE :: SLASH :: lit "assets/a.png" ++ [SQUOTE]) ++ lit ">")
     = lit "<a href='x'/><img src='/assets/a.png'>"
  /\ rewriteAbsolute (lit "/proj") (lit "/proj/src/components/A.vue") [lit "assets"]
       (lit "<img src="
          ++ (SQUOTE :: SLASH :: lit "assets/a.png" ++ [SQUOTE]) ++ lit ">")
     = lit "<img src='../assets/a.png'>".
Proof. repeat split; reflexivity. Qed.

(** ** Both stages together *)

(** The scenario of the specification: with the table of the defaults, the
    import of [~/utils/x] in [/proj/src/components/A.vue] becomes a relative
    one, and a second run leaves it alone. *)
Example end_to_end :
  exists aliases,
    getAliasesWithPaths (lit "/proj") (Some plainConfig) = Some aliases
    /\ rewriteContent (lit "/proj") (lit "/proj/src/components/A.vue") aliases
         false [] (lit "import X from '~/utils/x'")
       = lit "import X from '../utils/x'"
    /\ rewriteContent (lit "/proj") (lit "/proj/src/components/A.vue") aliases
         false [] (lit "import X from '../utils/x'")
       = lit "import X from '../utils/x'".
Proof. eexists. repeat split; reflexivity. Qed.

(** C2, as the code has it: a second run changes nothing when the output of
    the first is converged, that is when no alias pattern matches in it and,
    with absolute-path mode on, every match of the absolute pattern in it
    begins with a segment that is not a known directory. *)
Theorem rewriteContent_converged
    (cwd filePath : str) (aliases : list (str * str))
    (shouldReplaceAbsolute : bool) (knownDirectories : list str) (content : str) :
  let once :=
    rewriteContent cwd filePath aliases shouldReplaceAbsolute knownDirectories
      content in
  (forall alias targetPath i, In (alias, targetPath) aliases ->
     matchAt (aliasRegExp alias) once i = None) ->
  (shouldReplaceAbsolute = true ->
   forall i m, matchAt absolutePathRegex once i = Some m ->
     includes knownDirectories (firstSegment (m_capture m)) = false) ->
  rewriteContent cwd filePath aliases shouldReplaceAbsolute knownDirectories once
  = once.
Proof.
  intros once Halias Habs. generalize dependent once. intros once Halias Habs.
  unfold rewriteContent at 1.
  rewrite (rewriteAliases_no_match cwd filePath aliases once Halias).
  destruct shouldReplaceAbsolute; [|reflexivity].
  unfold rewriteAbsolute, replace.
  rewrite (replaceScan_kept _ _ absolutePathRegex_bound once None 0%nat);
    [reflexivity | lia |].
  apply keptAsIs_of_matchAt. intros i m Hm.
  unfold absoluteReplacer. rewrite (Habs eq_refl i m Hm). reflexivity.
Qed.

(** C2 at the scenario of the specification: the rewritten import is converged. *)
Lemma rewriteContent_converged_witness :
  rewriteContent (lit "/proj") (lit "/proj/src/components/A.vue")
    [(lit "~", lit "/proj/src")] true [lit "components"]
    (rewriteContent (lit "/proj") (lit "/proj/src/components/A.vue")
       [(lit "~", lit "/proj/src")] true [lit "components"]
       (lit "import X from '~/utils/x'"))
  = rewriteContent (lit "/proj") (lit "/proj/src/components/A.vue")
      [(lit "~", lit "/proj/src")] true [lit "components"]
      (lit "import X from '~/utils/x'").
Proof.
  apply (rewriteContent_converged (lit "/proj") (lit "/proj/src/components/A.vue")
           [(lit "~", lit "/proj/src")] true [lit "components"]
           (lit "import X from '~/utils/x'")).
  - intros alias targetPath i [E | []]. inversion E; subst.
    do 27 (destruct i as [|i]; [reflexivity|]).
    apply matchAt_alias_beyond. vm_compute. lia.
  - intros _ i m.
    do 27 (destruct i as [|i]; [vm_compute; discriminate|]).
    rewrite matchAt_absolute_beyond by (vm_compute; lia). discriminate.
Defined.

(** C2 fails in [/proj/src/A.vue] on the specifier [@/~/a]: the first run
    leaves [~/a], which the pass of [~] had already gone by, and the second
    run turns it into [a]. *)
Lemma rewriteContent_converged_counterexample :
  exists aliases,
    getAliasesWithPaths (lit "/proj") (Some plainConfig) = Some aliases
    /\ rewriteContent (lit "/proj") (lit "/proj/src/A.vue") aliases false []
         (lit "import X from '@/~/a'")
       = lit "import X from '~/a'"
    /\ rewriteContent (lit "/proj") (lit "/proj/src/A.vue") aliases false []
         (lit "import X from '~/a'")
       = lit "import X from 'a'"
    /\ lit "import X from 'a'" <> lit "import X from '~/a'".
Proof.
  eexists. split; [reflexivity|]. split; [reflexivity|]. split; [reflexivity|].
  discriminate.
Qed.

(** C5, as the code has it: the passes are applied one after the other,
    each to the output of the one before, and the result can depend on their
    order.  It is the same for every order of the entries when the aliases
    do not interfere in the content: in each of its lines the pattern of
    one entry only matches, and no pattern of the table matches in what the
    pass of that entry leaves of the line. *)
Theorem rewriteAliases_order
    (cwd filePath : str) (table1 table2 : list (str * str)) (lines : list str) :
  Permutation table1 table2 ->
  NoDup (map fst table1) ->
  (forall entry, In entry table1 -> noLineTerminator (fst entry)) ->
  (forall line, In line lines ->
     exists entry,
       In entry table1
       /\ (forall other, In other table1 -> fst other <> fst entry ->
             matchAll (aliasRegExp (fst other)) line = [])
       /\ (forall other, In other table1 ->
             matchAll (aliasRegExp (fst other)) (aliasPass cwd filePath line entry)
             = [])) ->
  rewriteAliases cwd filePath table1 (joinLines lines)
  = rewriteAliases cwd filePath table2 (joinLines lines).
Proof.
  intros Hperm Hnd Hterm Hlines.
  assert (NoDup (map fst table2)) as Hnd2
    by (apply (Permutation_NoDup (Permutation_map fst Hperm)); exact Hnd).
  assert (forall entry, In entry table2 -> In entry table1) as Hback
    by (intros entry; apply Permutation_in; apply Permutation_sym; exact Hperm).
  rewrite !rewriteAliases_lines; [| intros e He; apply Hterm, Hback, He | exact Hterm].
  f_equal. apply map_ext_in. intros line Hline.
  destruct (Hlines line Hline) as (entry & Hin & Hothers & Hafter).
  rewrite (rewriteAliases_single cwd filePath table1 line entry Hnd Hin Hothers Hafter).
  symmetry. apply rewriteAliases_single; [exact Hnd2 | | |].
  - apply (Permutation_in _ Hperm). exact Hin.
  - intros other Ho. apply Hothers, Hback, Ho.
  - intros other Ho. apply Hafter, Hback, Ho.
Qed.

(** C5 on two imports, one of [~] and one of [@], which both orders of the
    table rewrite. *)
Lemma rewriteAliases_order_witness :
  rewriteAliases (lit "/proj") (lit "/proj/src/pages/index.vue")
    [(lit "~", lit "/proj/src"); (lit "@", lit "/proj/lib")]
    (joinLines [lit "import A from '~/a'"; lit "import B from '@/b'"])
  = rewriteAliases (lit "/proj") (lit "/proj/src/pages/index.vue")
      [(lit "@", lit "/proj/lib"); (lit "~", lit "/proj/src")]
      (joinLines [lit "import A from '~/a'"; lit "import B from '@/b'"]).
Proof.
  apply (rewriteAliases_order (lit "/proj") (lit "/proj/src/pages/index.vue")
           [(lit "~", lit "/proj/src"); (lit "@", lit "/proj/lib")]
           [(lit "@", lit "/proj/lib"); (lit "~", lit "/proj/src")]
           [lit "import A from '~/a'"; lit "import B from '@/b'"]).
  - apply perm_swap.
  - repeat constructor; simpl; intuition discriminate.
  - intros entry [<- | [<- | []]]; repeat constructor.
  - intros line [<- | [<- | []]].
    + exists (lit "~", lit "/proj/src"). split; [left; reflexivity|]. split.
      * intros other [<- | [<- | []]] Hne; [congruence | reflexivity].
      * intros other [<- | [<- | []]]; reflexivity.
    + exists (lit "@", lit "/proj/lib"). split; [right; left; reflexivity|]. split.
      * intros other [<- | [<- | []]] Hne; [reflexivity | congruence].
      * intros other [<- | [<- | []]]; reflexivity.
Defined.

(** What both orders give in the witness. *)
Example rewriteAliases_order_result :
  rewriteAliases (lit "/proj") (lit "/proj/src/pages/index.vue")
    [(lit "@", lit "/proj/lib"); (lit "~", lit "/proj/src")]
    (joinLines [lit "import A from '~/a'"; lit "import B from '@/b'"])
  = joinLines [lit "import A from '../a'"; lit "import B from '../../lib/b'"].
Proof. reflexivity. Qed.

(** C5 fails on [~~/lib/x]: with [~] before [~~], as in the table the script
    builds, the pass of [~] rewrites it from the second tilde on; with [~~]
    first it becomes the path to [/proj/lib/x].  It fails on [@/~/a] in
    [/proj/src/A.vue] too: what the pass of [@] leaves is a specifier of
    [~], which is rewritten only if the pass of [~] comes later. *)
Lemma rewriteAliases_order_counterexample :
  Permutation [(lit "~", lit "/proj/src"); (lit "~~", lit "/proj")]
              [(lit "~~", lit "/proj"); (lit "~", lit "/proj/src")]
  /\ rewriteAliases (lit "/proj") (lit "/proj/src/components/A.vue")
       [(lit "~", lit "/proj/src"); (lit "~~", lit "/proj")]
       (lit "import X from '~~/lib/x'")
     = lit "import X from '~../lib/x'"
  /\ rewriteAliases (lit "/proj") (lit "/proj/src/components/A.vue")
       [(lit "~~", lit "/proj"); (lit "~", lit "/proj/src")]
       (lit "import X from '~~/lib/x'")
     = lit "import X from '../../lib/x'"
  /\ lit "import X from '~../lib/x'" <> lit "import X from '../../lib/x'"
  /\ Permutation [(lit "~", lit "/proj/src"); (lit "@", lit "/proj/src")]
                 [(lit "@", lit "/proj/src"); (lit "~", lit "/proj/src")]
  /\ rewriteAliases (lit "/proj") (lit "/proj/src/A.vue")
       [(lit "~", lit "/proj/src"); (lit "@", lit "/proj/src")]
       (lit "import X from '@/~/a'")
     = lit "import X from '~/a'"
  /\ rewriteAliases (lit "/proj") (lit "/proj/src/A.vue")
       [(lit "@", lit "/proj/src"); (lit "~", lit "/proj/src")]
       (lit "import X from '@/~/a'")
     = lit "import X from 'a'".
Proof.
  split; [apply perm_swap|]. split; [reflexivity|]. split; [reflexivity|].
  split; [discriminate|].
  split; [apply perm_swap|]. split; reflexivity.
Qed.

(** ** The Tree Walker *)

(** C7: a file is written only if its path ends in one of the four
    extensions and the content the two stages give differs from the content
    it had; the data written is that content. *)
Theorem writes_only_changed
    (w : World) (out : outcome) (trace : list event) (path data : str) :
  main w = Some (out, trace) ->
  In (WriteFile path data) trace ->
  (endsWith (lit ".ts") path || endsWith (lit ".vue") path
   || endsWith (lit ".scss") path || endsWith (lit ".js") path) = true
  /\ exists srcEntries known aliases content,
       lookupEntry (lit "src") (rootEntries w) = Some (Dir srcEntries)
       /\ (if shouldReplaceAbsolutePaths w then getKnownDirectories w else Some [])
          = Some known
       /\ (exists call,
             getAliasesWithPaths (cwd w) (loadNuxtConfig w call) = Some aliases)
       /\ In (path, content) (filesOf (startDir w) srcEntries)
       /\ data = rewriteContent (cwd w) path aliases
                   (shouldReplaceAbsolutePaths w) known content
       /\ data <> content.
Proof.
  intros Hmain Hin.
  destruct (main_walk w out trace Hmain)
    as [Hno | (known & srcEntries & Hk & Hs & Hrun)].
  { specialize (Hno _ Hin). discriminate. }
  set (good := fun p d =>
         acceptedExtension p = true
         /\ exists aliases content,
              (exists call,
                 getAliasesWithPaths (cwd w) (loadNuxtConfig w call) = Some aliases)
              /\ In (p, content) (filesOf (startDir w) srcEntries)
              /\ d = rewriteContent (cwd w) p aliases
                       (shouldReplaceAbsolutePaths w) known content
              /\ d <> content).
  set (I := fun (pending : list Task) (calls : nat) (doomed : option nat)
                (tr : list event) =>
         (forall t, In t pending ->
            incl (filesOf (t_dir t) (t_entries t)) (filesOf (startDir w) srcEntries))
         /\ (forall p d, In (WriteFile p d) tr -> good p d)).
  assert (I [firstTask w srcEntries] 1%nat None (firstEvents w known)) as HI.
  { split.
    - intros t [<- | []]. apply incl_refl.
    - intros p d H. apply firstEvents_no_file in H. discriminate. }
  assert (preserved w known I) as Hstep.
  { intros first others calls doomed tr task pending' aliases evs tasks calls' threw
      [Hf Hw] Ex Ea Ev.
    assert (In task (first :: others)) as Htask.
    { apply (Permutation_in _ (Permutation_sym (extract_perm _ _ _ _ _ Ex))).
      left; reflexivity. }
    split.
    - intros t Ht. apply in_app_or in Ht as [Ht | Ht].
      + apply Hf.
        apply (Permutation_in _ (Permutation_sym (extract_perm _ _ _ _ _ Ex))).
        right; exact Ht.
      + pose proof (resume_tasks _ _ _ _ _ _ _ _ _ Ev) as Ft.
        rewrite Forall_forall in Ft. destruct (Ft _ Ht) as (name & Hn & Hd).
        rewrite Hd. intros f Hff. apply (Hf task Htask).
        apply (filesOf_dir _ _ _ _ Hn). exact Hff.
    - intros p d Hpd.
      apply in_app_or in Hpd as [Hpd | Hpd]; [apply Hw; exact Hpd|].
      pose proof (resume_events _ _ _ _ _ _ _ _ _ Ev) as Fe.
      rewrite Forall_forall in Fe.
      destruct (Fe _ Hpd) as [E | [Hl | [Ht | (name & content & Hn & Hacc & He)]]];
        try discriminate.
      apply visitFile_write in He as (-> & -> & Hne).
      split; [exact Hacc|].
      exists aliases, content. split; [exists (t_load task); exact Ea|].
      split; [apply (Hf task Htask), filesOf_file; exact Hn|].
      split; [reflexivity | exact Hne]. }
  destruct (run_invariant w known I Hstep _ _ _ _ _ _ _ HI Hrun)
    as (pending0 & calls0 & doomed0 & trace0 & [_ Hw] & Hend).
  assert (In (WriteFile path data) trace0) as Hin0.
  { destruct Hend as [(_ & _ & _ & ->) | [(_ & _ & ->) | (_ & -> & _)]];
      [exact Hin | exact Hin |].
    apply in_app_or in Hin as [H | [E | []]]; [exact H | discriminate]. }
  destruct (Hw _ _ Hin0) as (Ha & aliases & content & Hc & Hf & Hd & Hne).
  split; [exact Ha|]. exists srcEntries, known, aliases, content.
  repeat split; assumption.
Qed.

(** C7 in the project [/proj]: [a.js] is written, with the import rewritten. *)
Lemma writes_only_changed_witness :
  (endsWith (lit ".ts") (lit "/proj/src/a.js")
   || endsWith (lit ".vue") (lit "/proj/src/a.js")
   || endsWith (lit ".scss") (lit "/proj/src/a.js")
   || endsWith (lit ".js") (lit "/proj/src/a.js")) = true
  /\ exists srcEntries known aliases content,
       lookupEntry (lit "src") (rootEntries (smallWorld (fun _ => Some plainConfig)))
       = Some (Dir srcEntries)
       /\ (if shouldReplaceAbsolutePaths (smallWorld (fun _ => Some plainConfig))
           then getKnownDirectories (smallWorld (fun _ => Some plainConfig))
           else Some [])
          = Some known
       /\ (exists call,
             getAliasesWithPaths (cwd (smallWorld (fun _ => Some plainConfig)))
               (loadNuxtConfig (smallWorld (fun _ => Some plainConfig)) call)
             = Some aliases)
       /\ In (lit "/proj/src/a.js", content)
            (filesOf (startDir (smallWorld (fun _ => Some plainConfig))) srcEntries)
       /\ lit "import X from 'b'"
          = rewriteContent (cwd (smallWorld (fun _ => Some plainConfig)))
              (lit "/proj/src/a.js") aliases
              (shouldReplaceAbsolutePaths (smallWorld (fun _ => Some plainConfig)))
              known content
       /\ lit "import X from 'b'" <> content.
Proof.
  apply (writes_only_changed (smallWorld (fun _ => Some plainConfig)) (Exit 0)
           [ LoadNuxtConfig 0; ReadDir (lit "/proj/src");
             ReadFile (lit "/proj/src/a.js");
             WriteFile (lit "/proj/src/a.js") (lit "import X from 'b'");
             LogUpdated (lit "/proj/src/a.js");
             LoadNuxtConfig 1; ReadDir (lit "/proj/src/sub") ]).
  - reflexivity.
  - simpl. auto.
Defined.

(** C10: when the working directory is an absolute path and the names under
    [src] are names a directory listing can hold, every file the walk reads
    has a path that starts with the source directory, so the root the
    absolute-path stage uses for it is the source directory. *)
Theorem walked_files_in_src
    (w : World) (out : outcome) (trace : list event) (path : str) :
  Path.isAbsolute (cwd w) = true ->
  (forall srcEntries,
     lookupEntry (lit "src") (rootEntries w) = Some (Dir srcEntries) ->
     validEntries srcEntries = true) ->
  main w = Some (out, trace) ->
  In (ReadFile path) trace ->
  startsWith (Path.resolve (cwd w) [lit "src"]) path = true
  /\ isInSrc (cwd w) path = true
  /\ rootDirOf (cwd w) path = Path.resolve (cwd w) [lit "src"].
Proof.
  intros Habs Hvalid Hmain Hin.
  assert (startsWith (Path.resolve (cwd w) [lit "src"]) path = true) as Hstart.
  2:{ split; [exact Hstart|]. unfold rootDirOf, isInSrc, srcDirOf.
      rewrite Hstart. auto. }
  destruct (main_walk w out trace Hmain)
    as [Hno | (known & srcEntries & Hk & Hs & Hrun)].
  { specialize (Hno _ Hin). discriminate. }
  destruct (PathFacts.resolve_src_clean (cwd w) Habs) as (segs & Hne & Hsegs & Hsrc).
  fold (startDir w) in Hsrc. fold (startDir w).
  set (I := fun (pending : list Task) (calls : nat) (doomed : option nat)
                (tr : list event) =>
         (forall t, In t pending ->
            validEntries (t_entries t) = true
            /\ exists more, t_dir t = clean (segs ++ more)
                            /\ Forall validSeg (segs ++ more))
         /\ (forall p, In (ReadFile p) tr -> startsWith (startDir w) p = true)).
  assert (I [firstTask w srcEntries] 1%nat None (firstEvents w known)) as HI.
  { split.
    - intros t [<- | []]. split; [apply Hvalid; exact Hs|].
      exists []. rewrite app_nil_r. split; [exact Hsrc | exact Hsegs].
    - intros p H. apply firstEvents_no_file in H. discriminate. }
  assert (preserved w known I) as Hstep.
  { intros first others calls doomed tr task pending' aliases evs tasks calls' threw
      [Hd Hr] Ex Ea Ev.
    assert (In task (first :: others)) as Htask.
    { apply (Permutation_in _ (Permutation_sym (extract_perm _ _ _ _ _ Ex))).
      left; reflexivity. }
    destruct (Hd task Htask) as (Hve & more & Hdir & Hmore).
    assert (forall name n, In (name, n) (t_entries task) ->
              Path.join [t_dir task; name] = clean (segs ++ more ++ [name])
              /\ Forall validSeg (segs ++ more ++ [name])
              /\ validNode n = true) as Hjoin.
    { intros name n Hn.
      destruct (validEntries_In _ _ _ Hve Hn) as [Hname Hnode].
      rewrite Hdir, PathFacts.join_clean; auto.
      - rewrite <- app_assoc. repeat split; auto.
        rewrite app_assoc. apply Forall_app. split; [exact Hmore|].
        repeat constructor. exact Hname.
      - destruct segs; [contradiction | discriminate]. }
    split.
    - intros t Ht. apply in_app_or in Ht as [Ht | Ht].
      + apply Hd.
        apply (Permutation_in _ (Permutation_sym (extract_perm _ _ _ _ _ Ex))).
        right; exact Ht.
      + pose proof (resume_tasks _ _ _ _ _ _ _ _ _ Ev) as Ft.
        rewrite Forall_forall in Ft. destruct (Ft _ Ht) as (name & Hn & Hdt).
        destruct (Hjoin _ _ Hn) as (Hj & Hv & Hnode).
        split; [exact Hnode|]. exists (more ++ [name]).
        rewrite Hdt. split; assumption.
    - intros p Hp.
      apply in_app_or in Hp as [Hp | Hp]; [apply Hr; exact Hp|].
      pose proof (resume_events _ _ _ _ _ _ _ _ _ Ev) as Fe.
      rewrite Forall_forall in Fe.
      destruct (Fe _ Hp) as [E | [Hl | [Ht | (name & content & Hn & Hacc & He)]]];
        try discriminate.
      destruct (Hjoin _ _ Hn) as (Hj & Hv & Hnode).
      apply visitFile_read in He. subst p. rewrite Hj, Hsrc.
      apply PathFacts.clean_prefix. exact Hne. }
  destruct (run_invariant w known I Hstep _ _ _ _ _ _ _ HI Hrun)
    as (pending0 & calls0 & doomed0 & trace0 & [_ Hr] & Hend).
  apply Hr.
  destruct Hend as [(_ & _ & _ & ->) | [(_ & _ & ->) | (_ & -> & _)]];
    [exact Hin | exact Hin |].
  apply in_app_or in Hin as [H | [E | []]]; [exact H | discriminate].
Qed.

(** C10 in the project [/proj], for [a.js]. *)
Lemma walked_files_in_src_witness :
  startsWith (Path.resolve (cwd (smallWorld (fun _ => Some plainConfig))) [lit "src"])
    (lit "/proj/src/a.js") = true
  /\ isInSrc (cwd (smallWorld (fun _ => Some plainConfig))) (lit "/proj/src/a.js")
     = true
  /\ rootDirOf (cwd (smallWorld (fun _ => Some plainConfig))) (lit "/proj/src/a.js")
     = Path.resolve (cwd (smallWorld (fun _ => Some plainConfig))) [lit "src"].
Proof.
  apply (walked_files_in_src (smallWorld (fun _ => Some plainConfig)) (Exit 0)
           [ LoadNuxtConfig 0; ReadDir (lit "/proj/src");
             ReadFile (lit "/proj/src/a.js");
             WriteFile (lit "/proj/src/a.js") (lit "import X from 'b'");
             LogUpdated (lit "/proj/src/a.js");
             LoadNuxtConfig 1; ReadDir (lit "/proj/src/sub") ]).
  - reflexivity.
  - intros srcEntries H. vm_compute in H. inversion H; subst. reflexivity.
  - reflexivity.
  - simpl. auto.
Defined.

(** ** The run as a whole *)



(** The fatal errors in [/proj]: the provider fails at once, and the
    configuration file is not there; and a run that an exception ends: the
    file [dead.js] cannot be read, and [z.js], which comes after it, is not
    looked at. *)
Example main_fatal_errors :
  main (smallWorld (fun _ => None))
  = Some (Exit 1, [LoadNuxtConfig 0; ErrorLoadingConfig])
  /\ main {| cwd := lit "/proj"; argv := [];
             rootEntries := [(lit "src", Dir [(lit "a.js", File (lit "import X from '~/b'"))])];
             loadNuxtConfig := fun _ => Some plainConfig;
             schedule := fun _ => O;
             throws := fun _ => false;
             lastResumes := O |}
     = Some (Exit 1, [ErrorConfigNotFound])
  /\ main {| cwd := lit "/proj"; argv := [];
             rootEntries :=
               [ (lit "nuxt.config.js", File []);
                 (lit "src", Dir [ (lit "a.js", File (lit "import X from '~/b'"));
                                   (lit "dead.js", File []);
                                   (lit "z.js", File (lit "import Y from '~/c'")) ]) ];
             loadNuxtConfig := fun _ => Some plainConfig;
             schedule := fun _ => O;
             throws := fun call =>
               match call with
               | readFileSync path => str_eqb path (lit "/proj/src/dead.js")
               | _ => false
               end;
             lastResumes := O |}
     = Some (Uncaught,
             [ LoadNuxtConfig 0; ReadDir (lit "/proj/src");
               ReadFile (lit "/proj/src/a.js");
               WriteFile (lit "/proj/src/a.js") (lit "import X from 'b'");
               LogUpdated (lit "/proj/src/a.js");
               Throws (readFileSync (lit "/proj/src/dead.js")) ]).
Proof. repeat split; reflexivity. Qed.


(** C9, as the code has it: every call of [replaceAliases] loads the
    configuration, so a run in which no load fails and the file system
    refuses no call makes one load for every directory of the tree under
    [src], that directory included; there is one load only when [src] has
    no directory below it. *)
Theorem loads_once_per_directory (w : World) (srcEntries : list (str * node)) :
  (existsInRoot w (lit "nuxt.config.ts") || existsInRoot w (lit "nuxt.config.js"))
  = true ->
  lookupEntry (lit "src") (rootEntries w) = Some (Dir srcEntries) ->
  (forall call, getAliasesWithPaths (cwd w) (loadNuxtConfig w call) <> None) ->
  (forall call, throws w call = false) ->
  exists trace,
    main w = Some (Exit 0, trace)
    /\ loadCount trace = countDirs (Dir srcEntries)
    /\ (loadCount trace = 1%nat <-> dirsBelow srcEntries = 0%nat).
Proof.
  intros Hc Hs Hok Hq.
  destruct (main_src_quiet w srcEntries Hc Hs Hq) as (known & Hk & Hmain).
  destruct (run_succeeds w known Hok Hq (countDirs (Dir srcEntries))
              [firstTask w srcEntries] 1%nat (firstEvents w known)) as [trace Hrun].
  { unfold weight. simpl. unfold dirsBelow. lia. }
  exists trace. split; [rewrite Hmain; exact Hrun|].
  remember (countDirs (Dir srcEntries)) as total eqn:Etotal.
  set (I := fun (pending : list Task) (calls : nat) (doomed : option nat)
                (tr : list event) =>
         loadCount tr = calls
         /\ (calls + weight pending = total + length pending)%nat).
  assert (I [firstTask w srcEntries] 1%nat None (firstEvents w known)) as HI.
  { split; [apply firstEvents_loads|].
    subst total. unfold weight. simpl. unfold dirsBelow. lia. }
  assert (preserved w known I) as Hstep.
  { intros first others calls doomed tr task pending' aliases evs tasks calls' threw
      [Hl Hsum] Ex Ea Ev.
    pose proof (extract_weight _ _ _ _ _ Ex) as Hw.
    pose proof (Permutation_length (extract_perm _ _ _ _ _ Ex)) as Hlen.
    pose proof (resume_quiet _ _ _ _ _ _ _ _ _ Hq Ev) as Hthrew.
    apply resume_counts in Ev as (Hcalls & Hloads & _ & Hdirs).
    specialize (Hdirs Hthrew).
    split.
    - rewrite loadCount_app. lia.
    - rewrite weight_app, length_app.
      unfold weight in Hw. simpl in Hw. fold (weight others) in Hw.
      fold (weight pending') in Hw. simpl in Hlen.
      unfold weight in Hsum at 1. simpl in Hsum. fold (weight others) in Hsum.
      lia. }
  destruct (run_invariant w known I Hstep _ _ _ _ _ _ _ HI Hrun)
    as (pending0 & calls0 & doomed0 & trace0 & [Hl Hsum] & Hend).
  destruct Hend as [(_ & -> & _ & ->) | [(E & _) | (E & _)]]; try discriminate.
  unfold weight in Hsum. simpl in Hsum.
  assert (loadCount trace0 = total) as Ht by lia.
  split; [exact Ht|]. rewrite Ht. subst total. simpl. unfold dirsBelow. lia.
Qed.

(** C9 in the project [/proj] with a provider that always works. *)
Lemma loads_once_per_directory_witness :
  exists trace,
    main (smallWorld (fun _ => Some plainConfig)) = Some (Exit 0, trace)
    /\ loadCount trace
       = countDirs (Dir [ (lit "a.js", File (lit "import X from '~/b'"));
                          (lit "notes.txt", File (lit "see '~/b'"));
                          (lit "sub", Dir []) ])
    /\ (loadCount trace = 1%nat
        <-> dirsBelow [ (lit "a.js", File (lit "import X from '~/b'"));
                        (lit "notes.txt", File (lit "see '~/b'"));
                        (lit "sub", Dir []) ] = 0%nat).
Proof.
  apply (loads_once_per_directory (smallWorld (fun _ => Some plainConfig))).
  - reflexivity.
  - reflexivity.
  - intros call. discriminate.
  - intros call. reflexivity.
Defined.

(** C9 fails as soon as [src] holds a directory: the run in [/proj] loads
    the configuration twice, once for [src] and once for [src/sub]. *)
Lemma loads_once_per_directory_counterexample :
  main (smallWorld (fun _ => Some plainConfig))
  = Some (Exit 0,
          [ LoadNuxtConfig 0;
            ReadDir (lit "/proj/src");
            ReadFile (lit "/proj/src/a.js");
            WriteFile (lit "/proj/src/a.js") (lit "import X from 'b'");
            LogUpdated (lit "/proj/src/a.js");
            LoadNuxtConfig 1;
            ReadDir (lit "/proj/src/sub") ])
  /\ loadCount
       [ LoadNuxtConfig 0;
         ReadDir (lit "/proj/src");
         ReadFile (lit "/proj/src/a.js");
         WriteFile (lit "/proj/src/a.js") (lit "import X from 'b'");
         LogUpdated (lit "/proj/src/a.js");
         LoadNuxtConfig 1;
         ReadDir (lit "/proj/src/sub") ] = 2%nat.
Proof. split; reflexivity. Qed.

(** * Further properties of the code *)

#[local] Arguments N.eqb : simpl never.

(** ** The two stages on plain text *)

Lemma In_skipn {A} (x : A) (n : nat) (l : list A) : In x (skipn n l) -> In x l.
Proof.
  intros H. rewrite <- (firstn_skipn n l). apply in_or_app. right. exact H.
Qed.

(** A match of either pattern holds a slash and a quote. *)
Lemma aliasRegExp_needs (alias : str) (prev : option char) (s : str) (m : RegExpMatch) :
  aliasRegExp alias prev s = Some m ->
  In SLASH s /\ exists q, isQuote q = true /\ In q s.
Proof.
  intros H. apply aliasRegExp_Some in H as (_ & cap & q & rest & -> & Hq & _ & _).
  split.
  - apply in_or_app. right. left. reflexivity.
  - exists q. split; [exact Hq|].
    apply in_or_app. right. right. apply in_or_app. right. left. reflexivity.
Qed.

Lemma absolutePathRegex_needs (prev : option char) (s : str) (m : RegExpMatch) :
  absolutePathRegex prev s = Some m ->
  In SLASH s /\ exists q, isQuote q = true /\ In q s.
Proof.
  intros H. apply absolutePathRegex_Some in H
    as (q0 & cap & q & rest & -> & Hq0 & _ & _ & _).
  split.
  - right. left. reflexivity.
  - exists q0. split; [exact Hq0 | left; reflexivity].
Qed.

(** X1: a content without a quote character, or without a slash, comes out
    of both stages as it went in, whatever the table, the mode and the known
    directories: such a file is never written. *)
Theorem rewriteContent_plain_text
    (cwd filePath : str) (aliases : list (str * str))
    (shouldReplaceAbsolute : bool) (knownDirectories : list str) (content : str) :
  (forall c, In c content -> isQuote c = false) \/ ~ In SLASH content ->
  rewriteContent cwd filePath aliases shouldReplaceAbsolute knownDirectories content
  = content.
Proof.
  intros H.
  assert (forall q, isQuote q = true -> In q content -> In SLASH content -> False)
    as Hno.
  { intros q Hq Hin Hs. destruct H as [H | H]; [|exact (H Hs)].
    rewrite (H q Hin) in Hq. discriminate. }
  unfold rewriteContent.
  rewrite rewriteAliases_no_match.
  - destruct shouldReplaceAbsolute; [|reflexivity].
    unfold rewriteAbsolute. apply replace_no_match.
    + apply absolutePathRegex_bound.
    + intros i. destruct (matchAt absolutePathRegex content i) as [m|] eqn:E;
        [|reflexivity].
      unfold matchAt in E.
      apply absolutePathRegex_needs in E as (Hs & q & Hq & Hin).
      exfalso. apply (Hno q Hq); eapply In_skipn; eassumption.
  - intros alias targetPath i _.
    destruct (matchAt (aliasRegExp alias) content i) as [m|] eqn:E; [|reflexivity].
    unfold matchAt in E.
    apply aliasRegExp_needs in E as (Hs & q & Hq & Hin).
    exfalso. apply (Hno q Hq); eapply In_skipn; eassumption.
Qed.

(** X1 on a template line with an alias-like path but no quote. *)
Lemma rewriteContent_plain_text_witness :
  rewriteContent (lit "/proj") (lit "/proj/src/A.vue")
    [(lit "~", lit "/proj/src")] true [lit "components"]
    (lit "<!-- see ~/utils/x and /components/Foo.vue -->")
  = lit "<!-- see ~/utils/x and /components/Foo.vue -->".
Proof.
  apply (rewriteContent_plain_text (lit "/proj") (lit "/proj/src/A.vue")
           [(lit "~", lit "/proj/src")] true [lit "components"]
           (lit "<!-- see ~/utils/x and /components/Foo.vue -->")).
  left. intros c Hc. vm_compute in Hc.
  repeat (destruct Hc as [<- | Hc]; [reflexivity|]). destruct Hc.
Defined.

(** ** Line by line *)

(** X2: the rewrite works line by line.  When no alias token holds a line
    terminator, rewriting two texts joined by a line terminator gives the
    two rewritten texts joined by it: no specifier is matched across a line
    break, and a line is rewritten the same whatever the lines around it. *)
Theorem rewriteContent_line_by_line
    (cwd filePath : str) (aliases : list (str * str))
    (shouldReplaceAbsolute : bool) (knownDirectories : list str)
    (above below : str) (c : char) :
  isLineTerminator c = true ->
  (forall alias targetPath, In (alias, targetPath) aliases -> noLineTerminator alias) ->
  rewriteContent cwd filePath aliases shouldReplaceAbsolute knownDirectories
    (above ++ c :: below)
  = rewriteContent cwd filePath aliases shouldReplaceAbsolute knownDirectories above
    ++ c :: rewriteContent cwd filePath aliases shouldReplaceAbsolute
              knownDirectories below.
Proof.
  intros Hc Ha. unfold rewriteContent.
  rewrite (rewriteAliases_line cwd filePath aliases c Hc).
  - destruct shouldReplaceAbsolute; [|reflexivity].
    apply rewriteAbsolute_line. exact Hc.
  - intros [alias targetPath] Hin. exact (Ha alias targetPath Hin).
Qed.

(** X2 on two imports, one to a line. *)
Lemma rewriteContent_line_by_line_witness :
  rewriteContent (lit "/proj") (lit "/proj/src/pages/index.vue")
    [(lit "~", lit "/proj/src"); (lit "@", lit "/proj/src")] true [lit "components"]
    (lit "import A from '~/a'" ++ 10 :: lit "import B from '/components/B.vue'")
  = rewriteContent (lit "/proj") (lit "/proj/src/pages/index.vue")
      [(lit "~", lit "/proj/src"); (lit "@", lit "/proj/src")] true [lit "components"]
      (lit "import A from '~/a'")
    ++ 10 :: rewriteContent (lit "/proj") (lit "/proj/src/pages/index.vue")
               [(lit "~", lit "/proj/src"); (lit "@", lit "/proj/src")] true
               [lit "components"] (lit "import B from '/components/B.vue'").
Proof.
  apply (rewriteContent_line_by_line (lit "/proj") (lit "/proj/src/pages/index.vue")
           [(lit "~", lit "/proj/src"); (lit "@", lit "/proj/src")] true
           [lit "components"]).
  - reflexivity.
  - intros alias targetPath [E | [E | []]]; inversion E; subst;
      repeat constructor.
Defined.

(** ** Quotes that do not pair *)

(** X3: the absolute pattern takes any quote as the opening one and any
    quote as the closing one.  When the two differ and the first segment is
    a known directory, the replacement is wrapped in the closing quote on
    both sides, so the opening quote of the text changes; when the first
    segment is not known, both quotes stay. *)
Theorem rewriteAbsolute_quotes
    (cwd filePath : str) (knownDirectories : list str)
    (pre sub post : str) (opening closing : char) :
  let content := pre ++ opening :: SLASH :: sub ++ closing :: post in
  isQuote opening = true ->
  isQuote closing = true ->
  Forall plain sub ->
  (forall i m, (i < length pre)%nat ->
     matchAt absolutePathRegex content i = Some m ->
     (i + m_length m <= length pre)%nat) ->
  rewriteAbsolute cwd filePath knownDirectories content
  = rewriteAbsolute cwd filePath knownDirectories pre
    ++ (if includes knownDirectories (firstSegment sub)
        then closing
             :: Path.relative cwd (Path.dirname filePath)
                  (Path.join [rootDirOf cwd filePath; sub])
             ++ [closing]
        else opening :: SLASH :: sub ++ [closing])
    ++ rewriteAbsolute cwd filePath knownDirectories post.
Proof.
  intros content Ho Hc Hsub Hfit. subst content.
  unfold rewriteAbsolute, replace.
  rewrite (replaceScan_app _ _ absolutePathRegex_bound
             absolutePathRegex_extend absolutePathRegex_restrict);
    [| lia | apply fitsBefore_of_matchAt; exact Hfit].
  f_equal.
  replace (opening :: SLASH :: sub ++ closing :: post)
    with ((opening :: SLASH :: sub ++ [closing]) ++ post) by reassoc.
  rewrite (replaceScan_match _ _ absolutePathRegex_bound _ _ _
             (absoluteMatch sub closing)).
  - f_equal. apply absoluteScan_prev.
  - apply absolutePathRegex_Some. exists opening, sub, closing, post.
    repeat split; auto. reassoc.
  - simpl. rewrite !length_app. simpl. lia.
Qed.

(** X3 on a single quote closed by a double one. *)
Lemma rewriteAbsolute_quotes_witness :
  rewriteAbsolute (lit "/proj") (lit "/proj/src/pages/index.vue") [lit "components"]
    (lit "x = " ++ SQUOTE :: SLASH :: lit "components/Foo.vue" ++ DQUOTE :: lit ";")
  = rewriteAbsolute (lit "/proj") (lit "/proj/src/pages/index.vue")
      [lit "components"] (lit "x = ")
    ++ (if includes [lit "components"] (firstSegment (lit "components/Foo.vue"))
        then DQUOTE
             :: Path.relative (lit "/proj")
                  (Path.dirname (lit "/proj/src/pages/index.vue"))
                  (Path.join [rootDirOf (lit "/proj") (lit "/proj/src/pages/index.vue");
                              lit "components/Foo.vue"])
             ++ [DQUOTE]
        else SQUOTE :: SLASH :: lit "components/Foo.vue" ++ [DQUOTE])
    ++ rewriteAbsolute (lit "/proj") (lit "/proj/src/pages/index.vue")
         [lit "components"] (lit ";").
Proof.
  apply (rewriteAbsolute_quotes (lit "/proj") (lit "/proj/src/pages/index.vue")
           [lit "components"] (lit "x = ") (lit "components/Foo.vue") (lit ";")
           SQUOTE DQUOTE).
  - reflexivity.
  - reflexivity.
  - repeat constructor.
  - intros i m Hi.
    do 4 (destruct i as [|i]; [vm_compute; discriminate|]).
    simpl in Hi. lia.
Defined.

(** What that text becomes. *)
Example rewriteAbsolute_quotes_result :
  rewriteAbsolute (lit "/proj") (lit "/proj/src/pages/index.vue") [lit "components"]
    (lit "x = " ++ SQUOTE :: SLASH :: lit "components/Foo.vue" ++ DQUOTE :: lit ";")
  = lit "x = " ++ DQUOTE :: lit "../components/Foo.vue" ++ DQUOTE :: lit ";".
Proof. reflexivity. Qed.

(** ** The escape of the alias *)

(** X4: the escape of line 105 puts a backslash before each of the fourteen
    characters that have a meaning in a pattern and before nothing else, so
    the pattern it gives reads back as the alias itself, whatever characters
    the alias holds; an alias without such a character is its own pattern. *)
Theorem escapeRegExp_reads_back (alias : str) :
  readLiteral (escapeRegExp alias) = Some alias
  /\ (length alias <= length (escapeRegExp alias) <= 2 * length alias)%nat
  /\ (escapeRegExp alias = alias
      <-> forall c, In c alias -> isSyntaxCharacter c = false).
Proof.
  assert (forall a : str,
            (length a <= length (escapeRegExp a) <= 2 * length a)%nat) as Hlen.
  { unfold escapeRegExp. induction a as [|c a IH]; [simpl; lia|].
    simpl flat_map. rewrite length_app.
    destruct (isSyntaxCharacter c); simpl in *; lia. }
  split; [apply readLiteral_escapeRegExp|]. split; [apply Hlen|].
  induction alias as [|c alias IH];
    [split; [intros _ c [] | reflexivity]|].
  change (escapeRegExp (c :: alias))
    with ((if isSyntaxCharacter c then [BACKSLASH; c] else [c]) ++ escapeRegExp alias).
  destruct (isSyntaxCharacter c) eqn:E.
  - split.
    + simpl. intros H. inversion H as [[H1 H2]].
      exfalso. apply (f_equal (@Datatypes.length char)) in H2. simpl in H2.
      pose proof (Hlen alias) as Hl. lia.
    + intros H. rewrite (H c (or_introl eq_refl)) in E. discriminate.
  - simpl. split.
    + intros H. assert (escapeRegExp alias = alias) as H1 by congruence.
      intros d [<- | Hd]; [exact E|].
      apply IH; assumption.
    + intros H. f_equal. apply IH. intros d Hd. apply H. right. exact Hd.
Qed.

(** The escape of an alias with a dot and a dollar sign. *)
Example escapeRegExp_ex :
  escapeRegExp (lit "a.b$") = [97; 92; 46; 98; 92; 36]
  /\ aliasPass (lit "/proj") (lit "/proj/src/A.vue")
       (lit "from 'a.b$/x' or 'aXb$/x'") (lit "a.b$", lit "/proj/lib")
     = lit "from '../lib/x' or 'aXb$/x'".
Proof. split; reflexivity. Qed.

(** ** The order of the table *)

Section ObjectOrder.

Context {V : Type}.
Implicit Types (o : @jsobj V) (k : str) (v : V).

Lemma keys_objUpdate o k v : map fst (objUpdate k v o) = map fst o.
Proof.
  induction o as [|[k' v'] r IH]; [reflexivity|]. simpl.
  destruct (str_eqb k k'); simpl; [reflexivity | rewrite IH; reflexivity].
Qed.

Lemma objGet_includes o k :
  includes (map fst o) k = match objGet k o with Some _ => true | None => false end.
Proof.
  induction o as [|[k' v'] r IH]; [reflexivity|]. simpl.
  destruct (str_eqb k k'); simpl; [reflexivity | exact IH].
Qed.

Lemma keys_objSet o k v :
  arrayIndex k = None ->
  map fst (objSet o (k, v))
  = if includes (map fst o) k then map fst o else map fst o ++ [k].
Proof.
  intros Hk. unfold objSet. rewrite objGet_includes, Hk.
  destruct (objGet k o).
  - apply keys_objUpdate.
  - rewrite map_app. reflexivity.
Qed.

Lemma includes_snoc (l : list str) (k x : str) :
  includes (l ++ [k]) x = includes l x || str_eqb x k.
Proof.
  unfold includes. rewrite existsb_app. simpl. rewrite orb_false_r. reflexivity.
Qed.

Lemma keys_fold (b : @jsobj V) : forall a,
  NoDup (map fst b) ->
  (forall k, In k (map fst b) -> arrayIndex k = None) ->
  map fst (fold_left objSet b a)
  = map fst a ++ filter (fun k => negb (includes (map fst a) k)) (map fst b).
Proof.
  induction b as [|[k v] r IH]; intros a Hnd Hidx.
  - simpl. rewrite app_nil_r. reflexivity.
  - simpl in Hnd. inversion Hnd as [|? ? Hk Hr]; subst.
    change (fold_left objSet ((k, v) :: r) a)
      with (fold_left objSet r (objSet a (k, v))).
    rewrite IH; [| exact Hr | intros x Hx; apply Hidx; right; exact Hx].
    rewrite keys_objSet by (apply Hidx; left; reflexivity).
    simpl map. simpl filter.
    destruct (includes (map fst a) k) eqn:E; simpl; [reflexivity|].
    rewrite <- app_assoc. simpl. f_equal. f_equal.
    apply filter_ext_in. intros x Hx. rewrite includes_snoc.
    destruct (str_eqb x k) eqn:Ex; [|rewrite orb_false_r; reflexivity].
    apply str_eqb_eq in Ex. subst x. contradiction.
Qed.

End ObjectOrder.

(** X5: the table keeps the six default tokens first, in the order [~], [@],
    [~~], [@@], [assets], [public], also when the user redeclares some of
    them; the tokens only the user declares follow in the user's order.
    This is the order of the substitution passes.  (A token that is the
    decimal form of an array index would come first; none is one here.) *)
Theorem getAliasesWithPaths_order
    (projectRoot : str) (nuxtConfig : NuxtConfig) (srcDir : str) :
  let userAliases := match nc_alias nuxtConfig with Some a => a | None => [] end in
  srcDirOfConfig projectRoot nuxtConfig = Some srcDir ->
  NoDup (map fst userAliases) ->
  (forall token, In token (map fst userAliases) -> arrayIndex token = None) ->
  exists aliases,
    getAliasesWithPaths projectRoot (Some nuxtConfig) = Some aliases
    /\ map fst aliases
       = [lit "~"; lit "@"; lit "~~"; lit "@@"; lit "assets"; lit "public"]
         ++ filter (fun token => negb (includes defaultTokens token))
              (map fst userAliases).
Proof.
  intros userAliases Hsrc Hnd Hidx.
  unfold getAliasesWithPaths. rewrite Hsrc. eexists. split; [reflexivity|].
  fold userAliases. unfold objSpread.
  rewrite keys_fold by assumption. reflexivity.
Qed.

(** X5 for a user who redeclares [@] and adds [lib] and [#ui]. *)
Lemma getAliasesWithPaths_order_witness :
  exists aliases,
    getAliasesWithPaths (lit "/proj")
      (Some {| nc_rootDir := Some (lit "/proj");
               nc_srcDir := Some (lit "/proj/src");
               nc_alias := Some [ (lit "lib", lit "/proj/lib");
                                  (lit "@", lit "/custom/dir");
                                  (lit "#ui", lit "/proj/ui") ] |})
    = Some aliases
    /\ map fst aliases
       = [lit "~"; lit "@"; lit "~~"; lit "@@"; lit "assets"; lit "public"]
         ++ filter (fun token => negb (includes defaultTokens token))
              (map fst [ (lit "lib", lit "/proj/lib");
                         (lit "@", lit "/custom/dir");
                         (lit "#ui", lit "/proj/ui") ]).
Proof.
  apply (getAliasesWithPaths_order (lit "/proj")
           {| nc_rootDir := Some (lit "/proj");
              nc_srcDir := Some (lit "/proj/src");
              nc_alias := Some [ (lit "lib", lit "/proj/lib");
                                 (lit "@", lit "/custom/dir");
                                 (lit "#ui", lit "/proj/ui") ] |}
           (lit "/proj/src")).
  - reflexivity.
  - simpl. repeat (constructor; [vm_compute; intuition discriminate|]). constructor.
  - intros token H. simpl in H.
    destruct H as [<- | [<- | [<- | []]]]; reflexivity.
Defined.

(** The tokens of that table, in the order of their passes. *)
Example getAliasesWithPaths_order_ex :
  option_map (map fst)
    (getAliasesWithPaths (lit "/proj")
       (Some {| nc_rootDir := Some (lit "/proj");
                nc_srcDir := Some (lit "/proj/src");
                nc_alias := Some [ (lit "lib", lit "/proj/lib");
                                   (lit "@", lit "/custom/dir");
                                   (lit "#ui", lit "/proj/ui") ] |}))
  = Some [lit "~"; lit "@"; lit "~~"; lit "@@"; lit "assets"; lit "public";
          lit "lib"; lit "#ui"].
Proof. reflexivity. Qed.

(** ** The known directories *)

Lemma includes_In (l : list str) (x : str) : includes l x = true <-> In x l.
Proof.
  unfold includes. rewrite existsb_exists. split.
  - intros (y & Hy & E). apply str_eqb_eq in E. subst. exact Hy.
  - intros H. exists x. split; [exact H | apply str_eqb_refl].
Qed.

Lemma uniq_In (l : list str) : forall seen x,
  In x (uniq seen l) <-> In x l /\ ~ In x seen.
Proof.
  induction l as [|y l IH]; intros seen x; simpl; [tauto|].
  destruct (includes seen y) eqn:E.
  - apply includes_In in E. rewrite IH. split.
    + intros [H1 H2]. auto.
    + intros [[<- | H1] H2]; [contradiction | auto].
  - assert (~ In y seen) as Hy.
    { intros H. apply includes_In in H. congruence. }
    simpl. rewrite IH. rewrite in_app_iff. simpl. split.
    + intros [<- | [H1 H2]]; [auto | tauto].
    + intros [[<- | H1] H2]; [auto|].
      destruct (list_eq_dec N.eq_dec y x) as [<- | Hne]; [auto|].
      right. split; [exact H1|]. intros [H | [H | []]]; auto.
Qed.

Lemma uniq_NoDup (l : list str) : forall seen, NoDup (uniq seen l).
Proof.
  induction l as [|y l IH]; intros seen; simpl; [constructor|].
  destruct (includes seen y); [apply IH|].
  constructor; [|apply IH].
  rewrite uniq_In. intros [_ H]. apply H. apply in_or_app. right. left. reflexivity.
Qed.

Lemma getVisibleDirectories_In (entries : list (str * node)) (name : str) :
  In name (getVisibleDirectories entries)
  <-> startsWith (lit ".") name = false /\ exists sub, In (name, Dir sub) entries.
Proof.
  unfold getVisibleDirectories. rewrite in_map_iff. split.
  - intros ([n e] & <- & H). apply filter_In in H as [Hin Hf].
    destruct e as [content|sub]; [discriminate|].
    change (negb (startsWith (lit ".") n) = true) in Hf.
    apply negb_true_iff in Hf. split; [exact Hf | exists sub; exact Hin].
  - intros [Hs [sub Hin]]. exists (name, Dir sub). split; [reflexivity|].
    apply filter_In. split; [exact Hin|].
    change (negb (startsWith (lit ".") name) = true). rewrite Hs. reflexivity.
Qed.

Lemma lookupEntry_In (name : str) (entries : list (str * node)) (n : node) :
  lookupEntry name entries = Some n -> In (name, n) entries.
Proof.
  unfold lookupEntry. destruct (find _ entries) as [[k e]|] eqn:E; [|discriminate].
  intros H. inversion H; subst. apply find_some in E as [Hin Hk].
  simpl in Hk. apply str_eqb_eq in Hk. subst. exact Hin.
Qed.

(** X6: the known directories are, without repetition, the names of the
    directories of the project root and of [src] that do not begin with a
    dot; [src] itself is one of them when it is a directory.  The listing
    fails only when [src] exists and is not a directory. *)
Theorem getKnownDirectories_members (w : World) :
  (getKnownDirectories w = None
   <-> exists content, lookupEntry (lit "src") (rootEntries w) = Some (File content))
  /\ forall known,
       getKnownDirectories w = Some known ->
       NoDup known
       /\ (forall name,
             In name known
             <-> startsWith (lit ".") name = false
                 /\ ((exists sub, In (name, Dir sub) (rootEntries w))
                     \/ exists srcEntries sub,
                          lookupEntry (lit "src") (rootEntries w)
                          = Some (Dir srcEntries)
                          /\ In (name, Dir sub) srcEntries))
       /\ (forall srcEntries,
             lookupEntry (lit "src") (rootEntries w) = Some (Dir srcEntries) ->
             In (lit "src") known).
Proof.
  unfold getKnownDirectories. split.
  - destruct (lookupEntry (lit "src") (rootEntries w)) as [[content|srcEntries]|];
      split; try discriminate; eauto; intros [c H]; discriminate.
  - intros known H.
    destruct (lookupEntry (lit "src") (rootEntries w)) as [[content|srcEntries]|] eqn:Es;
      [discriminate | |]; inversion H; subst; clear H.
    + split; [apply uniq_NoDup|]. split.
      * intros name. rewrite uniq_In, in_app_iff, !getVisibleDirectories_In. split.
        -- intros [[[Hs Hr] | [Hs Hr]] _]; split; auto.
           right. destruct Hr as [sub Hr]. exists srcEntries, sub. auto.
        -- intros [Hs [Hr | (es & sub & E & Hr)]]; (split; [|intros []]); auto.
           inversion E; subst. right. split; [exact Hs | exists sub; exact Hr].
      * intros es E. inversion E; subst.
        rewrite uniq_In, in_app_iff, getVisibleDirectories_In. split; [|intros []].
        left. split; [reflexivity|]. exists es. apply lookupEntry_In. exact Es.
    + split; [apply uniq_NoDup|]. split.
      * intros name. rewrite uniq_In, getVisibleDirectories_In. split.
        -- intros [[Hs Hr] _]. auto.
        -- intros [Hs [Hr | (es & sub & E & _)]]; [|discriminate].
           split; [|intros []]. auto.
      * intros es E. discriminate.
Qed.

(** X6 in the project [/proj] with a hidden directory beside [src]. *)
Example getKnownDirectories_ex :
  getKnownDirectories
    {| cwd := lit "/proj"; argv := [lit "--replace-absolute"];
       rootEntries :=
         [ (lit ".git", Dir []);
           (lit "nuxt.config.ts", File []);
           (lit "components", Dir []);
           (lit "src", Dir [ (lit "components", Dir []);
                             (lit "pages", Dir []);
                             (lit ".cache", Dir []);
                             (lit "app.vue", File []) ]) ];
       loadNuxtConfig := fun _ => Some plainConfig;
       schedule := fun _ => O;
       throws := fun _ => false;
       lastResumes := O |}
  = Some [lit "components"; lit "src"; lit "pages"].
Proof. reflexivity. Qed.

(** ** The source directory of the table *)

Lemma resolveLoop_absolute (todo : list str) : forall resolvedPath,
  (exists p, In p todo /\ Path.isAbsolute p = true) ->
  snd (Path.resolveLoop todo resolvedPath) = true.
Proof.
  induction todo as [|p rest IH]; intros resolvedPath (q & Hin & Hq); [destruct Hin|].
  simpl. destruct p as [|c p'].
  - simpl. apply IH. destruct Hin as [<- | Hin]; [discriminate | eauto].
  - change (isEmpty (c :: p')) with false. cbv beta iota.
    destruct (Path.isAbsolute (c :: p')) eqn:Ea; [reflexivity|].
    apply IH. destruct Hin as [<- | Hin]; [congruence | eauto].
Qed.

Lemma resolve_absolute (cwd : str) (args : list str) :
  Path.isAbsolute cwd = true -> Path.isAbsolute (Path.resolve cwd args) = true.
Proof.
  intros Habs. unfold Path.resolve.
  pose proof (resolveLoop_absolute (rev args ++ [cwd]) []) as H.
  destruct (Path.resolveLoop (rev args ++ [cwd]) []) as [resolvedPath resolvedAbsolute].
  simpl in H. rewrite H; [reflexivity|].
  exists cwd. split; [apply in_or_app; right; left; reflexivity | exact Habs].
Qed.

Lemma normalize_absolute (p : str) :
  Path.isAbsolute p = true -> Path.isAbsolute (Path.normalize p) = true.
Proof.
  destruct p as [|c r]; [discriminate|]. intros Habs. unfold Path.normalize.
  rewrite Habs.
  destruct (Path.normalizeString (c :: r) (negb true)); reflexivity.
Qed.

Lemma join_absolute (first : str) (others : list str) :
  Path.isAbsolute first = true -> Path.isAbsolute (Path.join (first :: others)) = true.
Proof.
  destruct first as [|c r]; [discriminate|]. intros Habs. unfold Path.join.
  change (filter ?f ((c :: r) :: others)) with ((c :: r) :: filter f others).
  cbv beta iota. apply normalize_absolute.
  destruct (filter (fun a => negb (isEmpty a)) others); exact Habs.
Qed.

(** X11: the table is resolved exactly when the configuration holds a
    source directory; without one, line 23 throws before its fallback is
    reached and the load counts as failed.  When the working directory is an
    absolute path, the targets of [~], [@], [assets] and [public] that the
    user did not declare are absolute paths. *)
Theorem getAliasesWithPaths_source_directory
    (projectRoot : str) (nuxtConfig : NuxtConfig) :
  let userAliases := match nc_alias nuxtConfig with Some a => a | None => [] end in
  Path.isAbsolute projectRoot = true ->
  NoDup (map fst userAliases) ->
  (getAliasesWithPaths projectRoot (Some nuxtConfig) = None
   <-> nc_srcDir nuxtConfig = None)
  /\ (forall aliases token,
        getAliasesWithPaths projectRoot (Some nuxtConfig) = Some aliases ->
        In token [lit "~"; lit "@"; lit "assets"; lit "public"] ->
        objGet token userAliases = None ->
        exists target,
          objGet token aliases = Some target /\ Path.isAbsolute target = true).
Proof.
  intros userAliases Habs Hnd.
  assert (forall srcDir,
            srcDirOfConfig projectRoot nuxtConfig = Some srcDir ->
            Path.isAbsolute srcDir = true) as Hsrc.
  { unfold srcDirOfConfig. intros srcDir H.
    destruct (nc_srcDir nuxtConfig) as [s|]; [|discriminate].
    destruct (Path.isAbsolute s) eqn:Es; inversion H; subst.
    - exact Es.
    - apply resolve_absolute. exact Habs. }
  split.
  - unfold getAliasesWithPaths, srcDirOfConfig.
    destruct (nc_srcDir nuxtConfig) as [s|].
    + destruct (Path.isAbsolute s); split; discriminate.
    + split; reflexivity.
  - intros aliases token H Hin Huser. unfold getAliasesWithPaths in H.
    destruct (srcDirOfConfig projectRoot nuxtConfig) as [srcDir|] eqn:Es;
      [|discriminate].
    inversion H; subst aliases. fold userAliases.
    rewrite (objGet_objSpread _ _ _ (defaultAliases_keys _ _) Hnd), Huser.
    specialize (Hsrc srcDir eq_refl).
    destruct Hin as [<- | [<- | [<- | [<- | []]]]].
    + exists srcDir. split; [reflexivity | exact Hsrc].
    + exists srcDir. split; [reflexivity | exact Hsrc].
    + exists (Path.join [srcDir; lit "assets"]).
      split; [reflexivity | apply join_absolute; exact Hsrc].
    + exists (Path.join [srcDir; lit "public"]).
      split; [reflexivity | apply join_absolute; exact Hsrc].
Qed.

(** X11 for a configuration whose source directory is [client], below the
    root directory [/proj]. *)
Lemma getAliasesWithPaths_source_directory_witness :
  let nuxtConfig :=
    {| nc_rootDir := Some (lit "/proj");
       nc_srcDir := Some (lit "client");
       nc_alias := Some [(lit "@", lit "lib")] |} in
  (getAliasesWithPaths (lit "/proj") (Some nuxtConfig) = None
   <-> nc_srcDir nuxtConfig = None)
  /\ (forall aliases token,
        getAliasesWithPaths (lit "/proj") (Some nuxtConfig) = Some aliases ->
        In token [lit "~"; lit "@"; lit "assets"; lit "public"] ->
        objGet token [(lit "@", lit "lib")] = None ->
        exists target,
          objGet token aliases = Some target /\ Path.isAbsolute target = true).
Proof.
  apply (getAliasesWithPaths_source_directory (lit "/proj")
           {| nc_rootDir := Some (lit "/proj");
              nc_srcDir := Some (lit "client");
              nc_alias := Some [(lit "@", lit "lib")] |}).
  - reflexivity.
  - repeat constructor. intros [].
Defined.

(** The table of that configuration: [~] is resolved below the root
    directory, [@] is what the user declared, relative as it is. *)
Example getAliasesWithPaths_source_directory_ex :
  getAliasesWithPaths (lit "/proj")
    (Some {| nc_rootDir := Some (lit "/proj");
             nc_srcDir := Some (lit "client");
             nc_alias := Some [(lit "@", lit "lib")] |})
  = Some [ (lit "~", lit "/proj/client");
           (lit "@", lit "lib");
           (lit "~~", lit "/proj");
           (lit "@@", lit "/proj");
           (lit "assets", lit "/proj/client/assets");
           (lit "public", lit "/proj/client/public") ]
  /\ getAliasesWithPaths (lit "/proj")
       (Some {| nc_rootDir := Some (lit "/proj");
                nc_srcDir := None;
                nc_alias := None |})
     = None.
Proof. split; reflexivity. Qed.

(** ** What the walk reaches *)

Open Scope nat_scope.

Lemma filesOf_In (dir : str) (entries : list (str * node)) (p c : str) :
  In (p, c) (filesOf dir entries) ->
  (exists name, In (name, File c) entries /\ p = Path.join [dir; name])
  \/ exists name sub,
       In (name, Dir sub) entries /\ In (p, c) (filesOf (Path.join [dir; name]) sub).
Proof.
  unfold filesOf at 1. rewrite in_flat_map. intros ([name n] & Hin & Hf).
  destruct n as [content|sub]; simpl in Hf.
  - destruct Hf as [Hf | []]. inversion Hf; subst. left. eauto.
  - right. exists name, sub. auto.
Qed.

(** A run that ends with code 0 is a walk of the source directory. *)
Lemma main_zero (w : World) (trace : list event) :
  main w = Some (Exit 0, trace) ->
  exists known srcEntries,
    (if shouldReplaceAbsolutePaths w then getKnownDirectories w else Some [])
    = Some known
    /\ lookupEntry (lit "src") (rootEntries w) = Some (Dir srcEntries)
    /\ run w known (countDirs (Dir srcEntries)) [firstTask w srcEntries] 1 None
         (firstEvents w known) = Some (Exit 0, trace).
Proof.
  intros Hmain.
  destruct (main_cases w _ trace Hmain)
    as [(_ & E & _)
       | (_ & [(E & _)
              | (known & Hk & [(srcEntries & Hs & Hrun)
                              | (_ & [(E & _) | (E & _)])])])];
    try discriminate.
  exists known, srcEntries. auto.
Qed.

(** X7: in a run that ends with code 0, every file under [src] whose path
    ends in one of the four extensions has been read, whatever the order in
    which the suspended calls resumed, and it has been written with the
    rewritten content and reported when that content differs from the one
    it had.  (A run in which a call of the file system throws does not end
    with code 0.) *)
Theorem every_file_visited
    (w : World) (srcEntries : list (str * node)) (trace : list event)
    (path content : str) :
  main w = Some (Exit 0, trace) ->
  lookupEntry (lit "src") (rootEntries w) = Some (Dir srcEntries) ->
  In (path, content) (filesOf (startDir w) srcEntries) ->
  acceptedExtension path = true ->
  exists known aliases,
    (if shouldReplaceAbsolutePaths w then getKnownDirectories w else Some [])
    = Some known
    /\ (exists call,
          getAliasesWithPaths (cwd w) (loadNuxtConfig w call) = Some aliases)
    /\ In (ReadFile path) trace
    /\ (rewriteContent (cwd w) path aliases (shouldReplaceAbsolutePaths w) known
          content <> content ->
        In (WriteFile path
              (rewriteContent (cwd w) path aliases (shouldReplaceAbsolutePaths w)
                 known content)) trace
        /\ In (LogUpdated path) trace).
Proof.
  intros Hmain Hs Hfile Hacc.
  destruct (main_zero w trace Hmain) as (known & srcEntries' & Hk & Hs' & Hrun).
  rewrite Hs in Hs'. inversion Hs'; subst srcEntries'. clear Hs'.
  set (done := fun (tr : list event) (p c : str) =>
         exists aliases evs0,
           (exists call,
              getAliasesWithPaths (cwd w) (loadNuxtConfig w call) = Some aliases)
           /\ visitFile w known aliases p c = (evs0, false)
           /\ incl evs0 tr).
  set (I := fun (pending : list Task) (calls : nat) (doomed : option nat)
                (tr : list event) =>
         doomed = None ->
         forall p c,
           In (p, c) (filesOf (startDir w) srcEntries) ->
           acceptedExtension p = true ->
           done tr p c
           \/ exists t, In t pending /\ In (p, c) (filesOf (t_dir t) (t_entries t))).
  assert (I [firstTask w srcEntries] 1 None (firstEvents w known)) as HI.
  { intros _ p c Hp _. right. exists (firstTask w srcEntries).
    split; [left; reflexivity | exact Hp]. }
  assert (preserved w known I) as Hstep.
  { intros first others calls doomed tr task pending' aliases evs tasks calls' threw
      HI0 Ex Ea Ev Hd p c Hp Ha.
    destruct doomed as [k|]; [discriminate|].
    destruct threw; [discriminate|]. clear Hd.
    destruct (resume_covers _ _ _ _ _ _ _ _ Ev) as (Hf & Hdir & _).
    destruct (HI0 eq_refl p c Hp Ha)
      as [(al & evs0 & Hal & Hv & Hincl) | (t & Ht & Hin)].
    - left. exists al, evs0. split; [exact Hal|]. split; [exact Hv|].
      intros e He. apply in_or_app. left. exact (Hincl e He).
    - apply (Permutation_in _ (extract_perm _ _ _ _ _ Ex)) in Ht.
      destruct Ht as [<- | Ht].
      + destruct (filesOf_In _ _ _ _ Hin)
          as [(name & Hn & ->) | (name & sub & Hn & Hsub)].
        * left. destruct (Hf name c Hn Ha) as (evs0 & Hv & Hi).
          exists aliases, evs0. split; [exists (t_load task); exact Ea|].
          split; [exact Hv|].
          intros e He. apply in_or_app. right. exact (Hi e He).
        * right. destruct (Hdir name sub Hn) as (t' & Ht' & H1 & H2).
          exists t'. split; [apply in_or_app; right; exact Ht'|].
          rewrite H1, H2. exact Hsub.
      + right. exists t. split; [apply in_or_app; left; exact Ht | exact Hin]. }
  destruct (run_invariant w known I Hstep _ _ _ _ _ _ _ HI Hrun)
    as (pending0 & calls0 & doomed0 & trace0 & HI0 & Hend).
  destruct Hend as [(_ & Hp0 & Hd0 & Ht0) | [(E & _) | (E & _)]]; try discriminate.
  rewrite Hp0 in HI0. rewrite <- Ht0 in HI0.
  destruct (HI0 Hd0 path content Hfile Hacc)
    as [(aliases & evs0 & Hal & Hv & Hincl) | (t & [] & _)].
  exists known, aliases. split; [exact Hk|]. split; [exact Hal|].
  destruct (visitFile_done _ _ _ _ _ _ Hv) as (_ & Hread & Hwrite).
  split; [exact (Hincl _ Hread)|].
  intros Hne. destruct (Hwrite Hne) as [H1 H2].
  split; [exact (Hincl _ H1) | exact (Hincl _ H2)].
Qed.

(** X7 in the project [/proj], for [a.js]. *)
Lemma every_file_visited_witness :
  let w := smallWorld (fun _ => Some plainConfig) in
  let trace :=
    [ LoadNuxtConfig 0; ReadDir (lit "/proj/src");
      ReadFile (lit "/proj/src/a.js");
      WriteFile (lit "/proj/src/a.js") (lit "import X from 'b'");
      LogUpdated (lit "/proj/src/a.js");
      LoadNuxtConfig 1; ReadDir (lit "/proj/src/sub") ] in
  exists known aliases,
    (if shouldReplaceAbsolutePaths w then getKnownDirectories w else Some [])
    = Some known
    /\ (exists call,
          getAliasesWithPaths (cwd w) (loadNuxtConfig w call) = Some aliases)
    /\ In (ReadFile (lit "/proj/src/a.js")) trace
    /\ (rewriteContent (cwd w) (lit "/proj/src/a.js") aliases
          (shouldReplaceAbsolutePaths w) known (lit "import X from '~/b'")
        <> lit "import X from '~/b'" ->
        In (WriteFile (lit "/proj/src/a.js")
              (rewriteContent (cwd w) (lit "/proj/src/a.js") aliases
                 (shouldReplaceAbsolutePaths w) known (lit "import X from '~/b'")))
          trace
        /\ In (LogUpdated (lit "/proj/src/a.js")) trace).
Proof.
  apply (every_file_visited (smallWorld (fun _ => Some plainConfig))
           [ (lit "a.js", File (lit "import X from '~/b'"));
             (lit "notes.txt", File (lit "see '~/b'"));
             (lit "sub", Dir []) ]).
  - reflexivity.
  - reflexivity.
  - left. reflexivity.
  - reflexivity.
Defined.

(** ** Every file once *)

Lemma readsOf_firstEvents (w : World) (known : list str) :
  readsOf (firstEvents w known) = [].
Proof.
  unfold firstEvents, knownDirectoriesEvents.
  destruct (shouldReplaceAbsolutePaths w); [|reflexivity].
  destruct (existsInRoot w (lit "src")); reflexivity.
Qed.

(** X8: in a run that ends with code 0, the files read are the files under
    [src] whose path ends in one of the four extensions, each one once for
    each time the tree holds it, whatever the order in which the suspended
    calls resumed. *)
Theorem files_read_once
    (w : World) (srcEntries : list (str * node)) (trace : list event) :
  main w = Some (Exit 0, trace) ->
  lookupEntry (lit "src") (rootEntries w) = Some (Dir srcEntries) ->
  Permutation (readsOf trace)
    (filter acceptedExtension (map fst (filesOf (startDir w) srcEntries))).
Proof.
  intros Hmain Hs.
  destruct (main_zero w trace Hmain) as (known & srcEntries' & Hk & Hs' & Hrun).
  rewrite Hs in Hs'. inversion Hs'; subst srcEntries'. clear Hs'.
  set (rest := flat_map (fun t => acceptedPaths (t_dir t) (t_entries t))).
  set (I := fun (pending : list Task) (calls : nat) (doomed : option nat)
                (tr : list event) =>
         doomed = None ->
         Permutation (readsOf tr ++ rest pending)
           (acceptedPaths (startDir w) srcEntries)).
  assert (I [firstTask w srcEntries] 1 None (firstEvents w known)) as HI.
  { intros _. unfold rest. rewrite readsOf_firstEvents. simpl. rewrite app_nil_r.
    apply Permutation_refl. }
  assert (preserved w known I) as Hstep.
  { intros first others calls doomed tr task pending' aliases evs tasks calls' threw
      HI0 Ex Ea Ev Hd.
    destruct doomed as [k|]; [discriminate|].
    destruct threw; [discriminate|]. clear Hd.
    destruct (resume_covers _ _ _ _ _ _ _ _ Ev) as (_ & _ & Hp).
    eapply Permutation_trans; [|exact (HI0 eq_refl)].
    rewrite readsOf_app.
    unfold rest at 1. rewrite flat_map_app. fold rest.
    rewrite <- app_assoc. apply Permutation_app_head.
    eapply Permutation_trans;
      [|exact (Permutation_flat_map _
                 (Permutation_sym (extract_perm _ _ _ _ _ Ex)))].
    change (flat_map ?f (task :: pending'))
      with (acceptedPaths (t_dir task) (t_entries task) ++ rest pending').
    eapply Permutation_trans; [apply Permutation_app_swap_app|].
    eapply Permutation_trans; [apply Permutation_app_comm|].
    apply Permutation_app_tail. exact Hp. }
  destruct (run_invariant w known I Hstep _ _ _ _ _ _ _ HI Hrun)
    as (pending0 & calls0 & doomed0 & trace0 & HI0 & Hend).
  destruct Hend as [(_ & Hp0 & Hd0 & Ht0) | [(E & _) | (E & _)]]; try discriminate.
  rewrite Hp0 in HI0. rewrite <- Ht0 in HI0. specialize (HI0 Hd0).
  unfold rest in HI0. simpl in HI0. rewrite app_nil_r in HI0. exact HI0.
Qed.

(** X8 in the project [/proj]. *)
Lemma files_read_once_witness :
  Permutation
    (readsOf
       [ LoadNuxtConfig 0; ReadDir (lit "/proj/src");
         ReadFile (lit "/proj/src/a.js");
         WriteFile (lit "/proj/src/a.js") (lit "import X from 'b'");
         LogUpdated (lit "/proj/src/a.js");
         LoadNuxtConfig 1; ReadDir (lit "/proj/src/sub") ])
    (filter acceptedExtension
       (map fst
          (filesOf (startDir (smallWorld (fun _ => Some plainConfig)))
             [ (lit "a.js", File (lit "import X from '~/b'"));
               (lit "notes.txt", File (lit "see '~/b'"));
               (lit "sub", Dir []) ]))).
Proof.
  apply (files_read_once (smallWorld (fun _ => Some plainConfig))).
  - reflexivity.
  - reflexivity.
Defined.

(** ** Writes and their reports *)

Lemma writesReported_quiet (tr : list event) :
  (forall path data, ~ In (WriteFile path data) tr) ->
  (forall path, ~ In (LogUpdated path) tr) ->
  writesReported tr.
Proof.
  intros H1 H2. split.
  - intros p d Hin. destruct (H1 p d Hin).
  - intros p Hin. destruct (H2 p Hin).
Qed.

Lemma writesReported_silent (tr : list event) :
  (forall e, In e tr -> fileEvent e = false) -> writesReported tr.
Proof.
  intros H. apply writesReported_quiet.
  - intros p d Hin. apply H in Hin. discriminate.
  - intros p Hin. apply H in Hin. discriminate.
Qed.

Lemma writesReported_app (a b : list event) :
  writesReported a -> writesReported b -> writesReported (a ++ b).
Proof.
  intros [Ha1 Ha2] [Hb1 Hb2]. split.
  - intros p d Hin. apply in_app_or in Hin as [Hin | Hin].
    + destruct (Ha1 p d Hin) as (before & after & ->).
      exists before, (after ++ b). rewrite <- app_assoc. reflexivity.
    + destruct (Hb1 p d Hin) as (before & after & ->).
      exists (a ++ before), after. rewrite app_assoc. reflexivity.
  - intros p Hin. apply in_app_or in Hin as [Hin | Hin].
    + destruct (Ha2 p Hin) as (before & d & after & ->).
      exists before, d, (after ++ b). rewrite <- app_assoc. reflexivity.
    + destruct (Hb2 p Hin) as (before & d & after & ->).
      exists (a ++ before), d, after. rewrite app_assoc. reflexivity.
Qed.

Section Reports.

Variable w : World.
Variable knownDirectories : list str.

Lemma writesReported_visitFile (aliases : @jsobj str) (filePath content : str)
    (evs : list event) (threw : bool) :
  visitFile w knownDirectories aliases filePath content = (evs, threw) ->
  writesReported evs.
Proof.
  intros E. destruct (visitFile_cases _ _ _ _ _ _ _ E)
    as [(_ & -> & _) | (_ & [(_ & -> & _) | (_ & [(_ & -> & _) | (_ & -> & _)])])].
  - apply writesReported_quiet; intros; simpl; intuition discriminate.
  - apply writesReported_quiet; intros; simpl; intuition discriminate.
  - apply writesReported_quiet; intros; simpl; intuition discriminate.
  - split.
    + intros p d [H | [H | [H | []]]]; try discriminate.
      inversion H; subst. exists [], []. reflexivity.
    + intros p [H | [H | [H | []]]]; try discriminate.
      inversion H; subst. eexists [], _, []. reflexivity.
Qed.

Lemma replaceAliases_reported (aliases : @jsobj str) (dir : str) entries :
  forall calls evs tasks calls' threw,
    replaceAliases w knownDirectories aliases dir entries calls
    = (evs, tasks, calls', threw) ->
    writesReported evs.
Proof.
  induction entries as [|[file n] rest IH]; intros calls evs tasks calls' threw H.
  - inversion H; subst. apply writesReported_silent. intros e [].
  - destruct (replaceAliases_cons _ _ _ _ _ _ _ _ _ _ _ _ H)
      as [(_ & -> & -> & -> & ->)
         | (_ & [(sub & evs0 & tasks0 & -> & E & -> & ->)
               | [(content & -> & _ & E)
                 | [(content & -> & _ & Ev & -> & -> & ->)
                   | (content & evs0 & evs1 & -> & _ & Ev & E & ->)]]])].
    + apply writesReported_silent. intros e [<- | []]. reflexivity.
    + apply (writesReported_app [LoadNuxtConfig calls]); [|exact (IH _ _ _ _ _ E)].
      apply writesReported_silent. intros e [<- | []]. reflexivity.
    + exact (IH _ _ _ _ _ E).
    + exact (writesReported_visitFile _ _ _ _ _ Ev).
    + apply writesReported_app;
        [exact (writesReported_visitFile _ _ _ _ _ Ev) | exact (IH _ _ _ _ _ E)].
Qed.

Lemma resume_reported (aliases : @jsobj str) (task : Task) (calls : nat)
    (evs : list event) (tasks : list Task) (calls' : nat) (threw : bool) :
  resume w knownDirectories aliases task calls = (evs, tasks, calls', threw) ->
  writesReported evs.
Proof.
  intros H. destruct (resume_cases _ _ _ _ _ _ _ _ _ H)
    as [(_ & -> & -> & -> & ->) | (_ & evs0 & E & ->)].
  - apply writesReported_silent. intros e [<- | []]. reflexivity.
  - apply (writesReported_app [ReadDir (t_dir task)]).
    + apply writesReported_silent. intros e [<- | []]. reflexivity.
    + exact (replaceAliases_reported _ _ _ _ _ _ _ _ E).
Qed.

End Reports.

(** X9: in every run, whatever its outcome, a write stands directly between
    the read of the same file and the report of its update, and every
    report of an update directly follows a write of that file. *)
Theorem writes_are_reported
    (w : World) (out : outcome) (trace : list event) :
  main w = Some (out, trace) ->
  (forall path data,
     In (WriteFile path data) trace ->
     exists before after,
       trace = before ++ ReadFile path :: WriteFile path data :: LogUpdated path :: after)
  /\ (forall path,
        In (LogUpdated path) trace ->
        exists before data after,
          trace = before ++ ReadFile path :: WriteFile path data :: LogUpdated path :: after).
Proof.
  intros Hmain. change (writesReported trace).
  destruct (main_walk w out trace Hmain)
    as [Hq | (known & srcEntries & _ & _ & Hrun)].
  { apply writesReported_silent. exact Hq. }
  set (I := fun (pending : list Task) (calls : nat) (doomed : option nat)
                (tr : list event) => writesReported tr).
  assert (I [firstTask w srcEntries] 1 None (firstEvents w known)) as HI.
  { apply writesReported_silent. intros e He. apply (firstEvents_quiet w known e He). }
  assert (preserved w known I) as Hstep.
  { intros first others calls doomed tr task pending' aliases evs tasks calls' threw
      HI0 Ex Ea Ev. unfold I in *. apply writesReported_app; [exact HI0|].
    exact (resume_reported w known _ _ _ _ _ _ _ Ev). }
  destruct (run_invariant w known I Hstep _ _ _ _ _ _ _ HI Hrun)
    as (pending0 & calls0 & doomed0 & trace0 & HI0 & Hend).
  destruct Hend as [(_ & _ & _ & Ht0) | [(_ & _ & Ht0) | (_ & Ht0 & _)]]; rewrite Ht0.
  - exact HI0.
  - exact HI0.
  - apply writesReported_app; [exact HI0|].
    apply writesReported_silent. intros e [<- | []]. reflexivity.
Qed.

(** X9 for the run in the project [/proj]. *)
Lemma writes_are_reported_witness :
  let trace :=
    [ LoadNuxtConfig 0; ReadDir (lit "/proj/src");
      ReadFile (lit "/proj/src/a.js");
      WriteFile (lit "/proj/src/a.js") (lit "import X from 'b'");
      LogUpdated (lit "/proj/src/a.js");
      LoadNuxtConfig 1; ReadDir (lit "/proj/src/sub") ] in
  (forall path data,
     In (WriteFile path data) trace ->
     exists before after,
       trace = before ++ ReadFile path :: WriteFile path data :: LogUpdated path :: after)
  /\ (forall path,
        In (LogUpdated path) trace ->
        exists before data after,
          trace = before ++ ReadFile path :: WriteFile path data :: LogUpdated path :: after).
Proof.
  apply (writes_are_reported (smallWorld (fun _ => Some plainConfig)) (Exit 0)).
  reflexivity.
Defined.

(** ** How the process ends *)

(** X10: the process ends in one of three ways.  An error is reported
    exactly when it ends with [process.exit(1)], and the report is the last
    thing that happens.  It ends with code 0 exactly when no error was
    reported and no call of the file system has thrown, and then a
    configuration file is there and [src] is a directory; it ends with an
    exception nothing catches only after a call of the file system has
    thrown. *)
Theorem main_outcome (w : World) (out : outcome) (trace : list event) :
  main w = Some (out, trace) ->
  (out = Exit 0 \/ out = Exit 1 \/ out = Uncaught)
  /\ (exists before last,
        trace = before ++ [last]
        /\ (forall e, In e before -> isError e = false)
        /\ (isError last = true <-> out = Exit 1))
  /\ (out = Exit 0
      <-> forall e, In e trace -> isError e = false /\ isThrow e = false)
  /\ (out = Exit 0 ->
      (existsInRoot w (lit "nuxt.config.ts") || existsInRoot w (lit "nuxt.config.js"))
      = true
      /\ exists srcEntries,
           lookupEntry (lit "src") (rootEntries w) = Some (Dir srcEntries))
  /\ (out = Uncaught ->
      (existsInRoot w (lit "nuxt.config.ts") || existsInRoot w (lit "nuxt.config.js"))
      = true
      /\ exists call, In (Throws call) trace).
Proof.
  intros Hmain.
  destruct (main_cases w out trace Hmain)
    as [(Hc & -> & ->)
       | (Hc & [(-> & before & call0 & -> & Hb)
               | (known & Hk & [(srcEntries & Hs & Hrun)
                               | (Hs & [(-> & Hfail & ->) | (-> & Hok0 & ->)])])])].
  - split; [auto|]. split; [|split; [|split; discriminate]].
    + exists [], ErrorConfigNotFound. split; [reflexivity|].
      split; [intros e []|]. split; reflexivity.
    + split; [discriminate|]. intros H.
      destruct (H ErrorConfigNotFound (or_introl eq_refl)) as [E _]. discriminate.
  - split; [auto|]. split; [|split; [|split; [discriminate|]]].
    + exists before, (Throws call0). split; [reflexivity|]. split.
      * intros e He. destruct (Hb e He) as [p ->]. reflexivity.
      * split; discriminate.
    + split; [discriminate|]. intros H.
      destruct (H (Throws call0)) as [_ E]; [|discriminate].
      apply in_or_app. right. left. reflexivity.
    + intros _. split; [exact Hc|]. exists call0.
      apply in_or_app. right. left. reflexivity.
  - destruct (walk_outcome w known srcEntries _ out trace Hrun)
      as (Hne & [(-> & Hq & _) | [(-> & He & call0 & Hc0) | (-> & before & -> & Hb)]]).
    + split; [auto|]. split; [|split; [|split; [|discriminate]]].
      * destruct (exists_last Hne) as (before & last & Heq).
        exists before, last. split; [exact Heq|]. rewrite Heq in Hq.
        split; [intros e He; apply Hq; apply in_or_app; left; exact He|].
        split; [|discriminate].
        intros Hl. destruct (Hq last) as [E _];
          [apply in_or_app; right; left; reflexivity|].
        rewrite E in Hl. discriminate.
      * split; [intros _; exact Hq | reflexivity].
      * intros _. split; [exact Hc | eauto].
    + split; [auto|]. split; [|split; [|split; [discriminate|]]].
      * destruct (exists_last Hne) as (before & last & Heq).
        exists before, last. split; [exact Heq|]. rewrite Heq in He.
        split; [intros e Hin; apply He; apply in_or_app; left; exact Hin|].
        split; [|discriminate].
        intros Hl. rewrite He in Hl; [discriminate|].
        apply in_or_app. right. left. reflexivity.
      * split; [discriminate|]. intros H.
        destruct (H (Throws call0) Hc0) as [_ E]. discriminate.
      * intros _. split; [exact Hc | eauto].
    + split; [auto|]. split; [|split; [|split; discriminate]].
      * exists before, ErrorLoadingConfig. split; [reflexivity|].
        split; [exact Hb|]. split; reflexivity.
      * split; [discriminate|]. intros H.
        destruct (H ErrorLoadingConfig) as [E _]; [|discriminate].
        apply in_or_app. right. left. reflexivity.
  - split; [auto|]. split; [|split; [|split; discriminate]].
    + exists (firstEvents w known), ErrorLoadingConfig. split; [reflexivity|].
      split; [intros e He; apply (firstEvents_quiet w known e He)|].
      split; reflexivity.
    + split; [discriminate|]. intros H.
      destruct (H ErrorLoadingConfig) as [E _]; [|discriminate].
      apply in_or_app. right. left. reflexivity.
  - split; [auto|]. split; [|split; [|split; [discriminate|]]].
    + exists (firstEvents w known), (Throws (readdirSync (startDir w))).
      split; [reflexivity|].
      split; [intros e He; apply (firstEvents_quiet w known e He)|].
      split; discriminate.
    + split; [discriminate|]. intros H.
      destruct (H (Throws (readdirSync (startDir w)))) as [_ E]; [|discriminate].
      apply in_or_app. right. left. reflexivity.
    + intros _. split; [exact Hc|]. exists (readdirSync (startDir w)).
      apply in_or_app. right. left. reflexivity.
Qed.

(** X10 for a run that an exception ends: [dead.js] cannot be read. *)
Lemma main_outcome_witness :
  let w :=
    {| cwd := lit "/proj"; argv := [];
       rootEntries :=
         [ (lit "nuxt.config.js", File []);
           (lit "src", Dir [ (lit "a.js", File (lit "import X from '~/b'"));
                             (lit "dead.js", File []);
                             (lit "z.js", File (lit "import Y from '~/c'")) ]) ];
       loadNuxtConfig := fun _ => Some plainConfig;
       schedule := fun _ => O;
       throws := fun call =>
         match call with
         | readFileSync path => str_eqb path (lit "/proj/src/dead.js")
         | _ => false
         end;
       lastResumes := O |} in
  let trace :=
    [ LoadNuxtConfig 0; ReadDir (lit "/proj/src");
      ReadFile (lit "/proj/src/a.js");
      WriteFile (lit "/proj/src/a.js") (lit "import X from 'b'");
      LogUpdated (lit "/proj/src/a.js");
      Throws (readFileSync (lit "/proj/src/dead.js")) ] in
  (Uncaught = Exit 0 \/ Uncaught = Exit 1 \/ Uncaught = Uncaught)
  /\ (exists before last,
        trace = before ++ [last]
        /\ (forall e, In e before -> isError e = false)
        /\ (isError last = true <-> Uncaught = Exit 1))
  /\ (Uncaught = Exit 0
      <-> forall e, In e trace -> isError e = false /\ isThrow e = false)
  /\ (Uncaught = Exit 0 ->
      (existsInRoot w (lit "nuxt.config.ts") || existsInRoot w (lit "nuxt.config.js"))
      = true
      /\ exists srcEntries,
           lookupEntry (lit "src") (rootEntries w) = Some (Dir srcEntries))
  /\ (Uncaught = Uncaught ->
      (existsInRoot w (lit "nuxt.config.ts") || existsInRoot w (lit "nuxt.config.js"))
      = true
      /\ exists call, In (Throws call) trace).
Proof.
  intros w trace. apply (main_outcome w Uncaught trace).
  reflexivity.
Defined.

Close Scope nat_scope.
